(** * VCM Dashboard: the Venture Capital Method calculation engine

    A shallow embedding of the three pieces of [src/App.tsx] that carry the
    arithmetic of the dashboard:

    - [results], the memoised block that derives the seven valuation figures
      from the input state (the specification's [computeResults]);
    - [sensitivityData], the memoised sweep over six discount rates (the
      specification's [computeSensitivity]);
    - [formatCurrency], the display formatter.

    The formulas of [results] are written once, over an interface of
    arithmetic operations ([Arith]), and read in [JSNumber]: IEEE-754
    binary64, the arithmetic the program runs in (Rocq's primitive
    floats, specified by [SpecFloat]). Where a property compares a
    result with the exact value of a formula, the binary64 numbers are
    read as the real numbers they stand for ([B2R]); the operations
    remain those of the program.

    Around the engine, the file also embeds what the component does with
    it: [handleInputChange] and the preset buttons that call it, the
    theme state with its effect on [localStorage] and on the class list
    of the root element, the two [useMemo] cells, the texts of the four
    cards and the tooltip of the chart.
*)

From Stdlib Require Import ZArith QArith Reals Floats String Ascii List Bool.
From Stdlib Require Import Nnat DecimalString DecimalFacts DecimalPos DecimalN.
From Stdlib Require Import Sorted Lia Lra Psatz.
Import ListNotations.

Set Warnings "-inexact-float".

(** ** Arithmetic interface *)

(** The operations the engine uses on numbers: literals, the four
    operators and [Math.pow]. *)
Class Arith (num : Type) : Type := {
  lit : Q -> num;
  add : num -> num -> num;
  sub : num -> num -> num;
  mul : num -> num -> num;
  div : num -> num -> num;
  Math_pow : num -> num -> num
}.

Arguments lit {num _} _%_Q.

Declare Scope num_scope.
Delimit Scope num_scope with num.
Notation "x + y" := (add x y) : num_scope.
Notation "x - y" := (sub x y) : num_scope.
Notation "x * y" := (mul x y) : num_scope.
Notation "x / y" := (div x y) : num_scope.

(** ** Data model ([types.ts]) *)

(** [enum CurrencyUnit { MILLIONS = 1000000, THOUSANDS = 1000, ONES = 1 }] *)
Inductive CurrencyUnit : Type := MILLIONS | THOUSANDS | ONES.

Definition CurrencyUnit_value (u : CurrencyUnit) : Q :=
  match u with
  | MILLIONS => 1000000
  | THOUSANDS => 1000
  | ONES => 1
  end.

(** [interface VCMState]: every numeric field is a [number], the two unit
    fields included. *)
Record VCMState {num : Type} : Type := {
  ricaviY5 : num;
  ricaviUnita : num;
  multiplo : num;
  discountRate : num;
  anni : num;
  investimento : num;
  investUnita : num;
  settore : string
}.
Arguments VCMState : clear implicits.

(** [interface VCMResults] *)
Record VCMResults {num : Type} : Type := {
  exitValue : num;
  valuationToday : num;
  preMoneyVal : num;
  vcOwnership : num;
  roiAtteso : num;
  profitto : num;
  powerFactor : num
}.
Arguments VCMResults : clear implicits.

(** [interface SensitivityData] *)
Record SensitivityData {num : Type} : Type := {
  dr : string;
  valuation : num
}.
Arguments SensitivityData : clear implicits.

(** ** The valuation engine *)

Section Engine.
Context {num : Type} {arith : Arith num}.
Local Open Scope num_scope.

(** The body of the [results] memo. *)
Definition results (state : VCMState num) : VCMResults num :=
  let ricaviTotal := state.(ricaviY5) * state.(ricaviUnita) in
  let investTotal := state.(investimento) * state.(investUnita) in
  let dr := state.(discountRate) / lit 100 in
  let exitValue := ricaviTotal * state.(multiplo) in
  let powerFactor := Math_pow (lit 1 + dr) state.(anni) in
  let valuationToday := exitValue / powerFactor in
  let preMoneyVal := valuationToday - investTotal in
  let vcOwnership := investTotal / valuationToday in
  let roiAtteso := (exitValue * vcOwnership) / investTotal in
  let profitto := (exitValue * vcOwnership) - investTotal in
  {| exitValue := exitValue;
     valuationToday := valuationToday;
     preMoneyVal := preMoneyVal;
     vcOwnership := vcOwnership;
     roiAtteso := roiAtteso;
     profitto := profitto;
     powerFactor := powerFactor |}.

End Engine.

(** ** States side by side *)

(** Two states that differ in the discount rate at most. *)
Definition same_but_discountRate {num : Type} (s1 s2 : VCMState num) : Prop :=
  ricaviY5 s1 = ricaviY5 s2 /\ ricaviUnita s1 = ricaviUnita s2
  /\ multiplo s1 = multiplo s2 /\ anni s1 = anni s2
  /\ investimento s1 = investimento s2 /\ investUnita s1 = investUnita s2
  /\ settore s1 = settore s2.

(** ** JavaScript numbers *)

(** A JavaScript [number] is an IEEE-754 binary64 value: Rocq's primitive
    [float], whose operations are specified bit for bit by [SpecFloat]. *)

Module JS.
Local Open Scope float_scope.

(** The binary64 value nearest to the rational [a / b] (ties to even):
    [SFdiv] rounds the exact quotient of its two operands. *)
Definition nearest (a : Z) (b : positive) : float :=
  match a with
  | Z0 => 0
  | Zpos a' => SF2Prim (SF64div (S754_finite false a' 0) (S754_finite false b 0))
  | Zneg a' => SF2Prim (SF64div (S754_finite true a' 0) (S754_finite false b 0))
  end.

(** A numeric literal denotes the binary64 value nearest to its decimal
    value. *)
Definition literal (q : Q) : float := nearest (Qnum q) (Qden q).

(** *** Classification *)

(** [x] is a finite number with an integral value. *)
Definition is_integral (x : float) : bool :=
  match Prim2SF x with
  | S754_zero _ => true
  | S754_finite _ m e =>
      if (0 <=? e)%Z then true else (Zpos m mod 2 ^ (- e) =? 0)%Z
  | _ => false
  end.

(** [x] is a finite number whose value is an odd integer. *)
Definition is_odd_integral (x : float) : bool :=
  match Prim2SF x with
  | S754_finite _ m e =>
      if (0 <? e)%Z then false
      else (Zpos m mod 2 ^ (- e) =? 0)%Z && Z.odd (Zpos m / 2 ^ (- e))
  | _ => false
  end.

(** *** [Math.pow] *)

Section Pow.
(** ECMA-262 fixes the result of [Math.pow] on special operands and
    leaves the general case "implementation-approximated"; the
    approximation is a parameter of the model. *)
Variable pow_approx : float -> float -> float.

(** [Number::exponentiate (base, exponent)], step by step. *)
Definition pow (base exponent : float) : float :=
  if is_nan exponent then nan
  else if is_zero exponent then 1
  else if is_nan base then nan
  else if base =? infinity then
    if 0 <? exponent then infinity else 0
  else if base =? neg_infinity then
    if 0 <? exponent
    then (if is_odd_integral exponent then neg_infinity else infinity)
    else (if is_odd_integral exponent then neg_zero else 0)
  else if is_zero base && negb (get_sign base) then
    if 0 <? exponent then 0 else infinity
  else if is_zero base then
    if 0 <? exponent
    then (if is_odd_integral exponent then neg_zero else 0)
    else (if is_odd_integral exponent then neg_infinity else infinity)
  else if exponent =? infinity then
    if 1 <? abs base then infinity
    else if abs base =? 1 then nan
    else 0
  else if exponent =? neg_infinity then
    if 1 <? abs base then 0
    else if abs base =? 1 then nan
    else infinity
  else if (base <? 0) && negb (is_integral exponent) then nan
  else pow_approx base exponent.
End Pow.

(** An approximation to evaluate the model with: the correctly rounded
    power for an integral exponent, which is the only kind of exponent
    the dashboard produces ([anni] is read with [parseInt]). It is not
    meant for a fractional exponent, where it answers [nan]. *)
Definition pow_integral (base exponent : float) : float :=
  match Prim2SF base, Prim2SF exponent with
  | S754_finite sb mb eb, S754_finite se me ee =>
      if is_integral exponent then
        let n := (if 0 <=? ee then Zpos me * 2 ^ ee else Zpos me / 2 ^ (- ee))%Z in
        let m := Z.to_pos (Zpos mb ^ n) in
        let s := sb && is_odd_integral exponent in
        if se
        then SF2Prim (SF64div (S754_finite false 1 0) (S754_finite s m (eb * n)))
        else SF2Prim (binary_normalize prec emax (if s then Zneg m else Zpos m) (eb * n) false)
      else nan
  | _, _ => nan
  end.

(** The arithmetic of the program, for a given approximation of the
    general case of [Math.pow]. *)
Definition JSNumber (pow_approx : float -> float -> float) : Arith float := {|
  lit := literal;
  add := PrimFloat.add;
  sub := PrimFloat.sub;
  mul := PrimFloat.mul;
  div := PrimFloat.div;
  Math_pow := pow pow_approx
|}.

(** *** Completions *)

(** An operation of the language either returns a value or throws. The
    only exception within reach of the engine is the [RangeError] of
    [toFixed]. *)
Inductive exn : Type := RangeError.

Inductive completion (A : Type) : Type :=
| Normal (a : A)
| Throw (e : exn).
Arguments Normal {A} a.
Arguments Throw {A} e.

Definition bind {A B : Type} (c : completion A) (k : A -> completion B)
  : completion B :=
  match c with
  | Normal a => k a
  | Throw e => Throw e
  end.

Notation "x <- c ;; k" := (bind c (fun x => k))
  (at level 61, c at next level, right associativity).

(** [Array.prototype.map]: the callback runs on the elements from left to
    right, and the first exception ends the call. *)
Fixpoint Array_map {A B : Type} (f : A -> completion B) (l : list A)
  : completion (list B) :=
  match l with
  | [] => Normal []
  | a :: l' =>
      b <- f a ;;
      bs <- Array_map f l' ;;
      Normal (b :: bs)
  end.

(** *** Number to string *)

Local Open Scope string_scope.
Local Open Scope float_scope.

(** The decimal digits of a non-negative integer. *)
Definition digits (n : Z) : string :=
  NilZero.string_of_uint (N.to_uint (Z.to_N n)).

Definition zeros (n : Z) : string :=
  string_of_list_ascii (repeat "0"%char (Z.to_nat n)).

Definition take (n : Z) (s : string) : string :=
  substring 0 (Z.to_nat n) s.

Definition drop (n : Z) (s : string) : string :=
  substring (Z.to_nat n) (String.length s - Z.to_nat n) s.

(** A finite positive number as a fraction [p / q] of integers. *)
Definition fraction (x : float) : Z * Z :=
  match Prim2SF x with
  | S754_finite _ m e =>
      if (0 <=? e)%Z then (Zpos m * 2 ^ e, 1)%Z else (Zpos m, 2 ^ (- e))%Z
  | _ => (0, 1)%Z
  end.

(** The number value of [s * 10 ^ j], for [0 < s]. *)
Definition number_value (s j : Z) : float :=
  if (0 <=? j)%Z then nearest (s * 10 ^ j) 1
  else nearest s (Z.to_pos (10 ^ (- j))).

(** The integer [n] with [10 ^ (n - 1) <= p / q < 10 ^ n]. *)
Definition decimal_exponent (p q : Z) : Z :=
  let d := (Z.of_nat (String.length (digits p))
            - Z.of_nat (String.length (digits q)))%Z in
  let reaches :=
    if (0 <=? d)%Z then (q * 10 ^ d <=? p)%Z else (q <=? p * 10 ^ (- d))%Z in
  if reaches then (d + 1)%Z else d.

(** The integer part of [(p / q) / 10 ^ j]. *)
Definition scaled_floor (p q j : Z) : Z :=
  if (0 <=? j)%Z then (p / (q * 10 ^ j))%Z else (p * 10 ^ (- j) / q)%Z.

(** The candidates with [k] digits for the shortest decimal that reads
    back as [x]: the two multiples of [10 ^ (n - k)] around [x], the
    nearer first. *)
Definition candidates (x : float) (p q n k : Z) : list (Z * Z) :=
  let j := (n - k)%Z in
  let lo := scaled_floor p q j in
  let hi := (lo + 1)%Z in
  let lo_nearer :=
    if (0 <=? j)%Z then (2 * p <=? (lo + hi) * 10 ^ j * q)%Z
    else (2 * p * 10 ^ (- j) <=? (lo + hi) * q)%Z in
  let ordered := if lo_nearer then [lo; hi] else [hi; lo] in
  let reads_back s := (0 <? s)%Z && Leibniz.eqb (number_value s j) x in
  map (fun s => if (s =? 10 ^ k)%Z then (10 ^ (k - 1), n + 1)%Z else (s, n))
      (filter reads_back ordered).

(** The shortest digits [(s, n, k)] of a finite positive [x]: [s] has
    [k] digits, [s * 10 ^ (n - k)] reads back as [x], and [k] is as
    small as possible. The search starts at [k] and tries [fuel]
    lengths; seventeen digits always suffice. *)
Fixpoint shortest (x : float) (p q n : Z) (k : Z) (fuel : nat) : Z * Z * Z :=
  match fuel with
  | O => (scaled_floor p q (n - k), n, k)
  | S fuel' =>
      match candidates x p q n k with
      | (s, n') :: _ => (s, n', k)
      | [] => shortest x p q n (k + 1) fuel'
      end
  end.

(** [Number::toString (x)] in radix 10. *)
Definition Number_toString (x : float) : string :=
  if is_nan x then "NaN"
  else if is_zero x then "0"
  else
    let sign := if x <? 0 then "-" else EmptyString in
    let x := abs x in
    if x =? infinity then sign ++ "Infinity"
    else
      let '(p, q) := fraction x in
      let '(s, n, k) := shortest x p q (decimal_exponent p q) 1 17 in
      let ds := digits s in
      sign ++
      if ((-5 <=? n) && (n <=? 21))%Z then
        if (k <=? n)%Z then ds ++ zeros (n - k)
        else if (0 <? n)%Z then take n ds ++ "." ++ drop n ds
        else "0." ++ zeros (- n) ++ ds
      else
        let e := (n - 1)%Z in
        let es := (if (e <? 0)%Z then "-" else "+") ++ digits (Z.abs e) in
        if (k =? 1)%Z then ds ++ "e" ++ es
        else take 1 ds ++ "." ++ drop 1 ds ++ "e" ++ es.

(** The integer [n] for which [n / 10 ^ f - x] is as close to zero as
    possible, the larger one if there are two, for a finite [0 <= x]. *)
Definition nearest_integer_scaled (x : float) (f : Z) : Z :=
  match Prim2SF x with
  | S754_finite _ m e =>
      let a := (Zpos m * 10 ^ f)%Z in
      if (0 <=? e)%Z then (a * 2 ^ e)%Z
      else ((2 * a + 2 ^ (- e)) / 2 ^ (1 - e))%Z
  | _ => 0%Z
  end.

(** [Number.prototype.toFixed (fractionDigits)] *)
Definition toFixed (x : float) (fractionDigits : Z) : completion string :=
  let f := fractionDigits in
  if ((f <? 0) || (100 <? f))%Z then Throw RangeError
  else if negb (is_finite x) then Normal (Number_toString x)
  else
    let s := if x <? 0 then "-" else EmptyString in
    let x := abs x in
    if 1e21 <=? x then Normal (s ++ Number_toString x)
    else
      let n := nearest_integer_scaled x f in
      let m := digits n in
      let m :=
        if (f =? 0)%Z then m
        else
          let k := Z.of_nat (String.length m) in
          let m := if (k <=? f)%Z then zeros (f + 1 - k) ++ m else m in
          let k := Z.of_nat (String.length m) in
          take (k - f) m ++ "." ++ drop (k - f) m in
      Normal (s ++ m).

(** *** The sensitivity sweep and the formatter *)

(** The rate grid of the sweep, [drRates]. *)
Definition drRates : list float := [0.2; 0.3; 0.4; 0.5; 0.6; 0.7].

Section Dashboard.
Variable pow_approx : float -> float -> float.

#[local] Instance number : Arith float := JSNumber pow_approx.

(** The body of the [sensitivityData] memo. *)
Definition sensitivityData (state : VCMState float)
  : completion (list (SensitivityData float)) :=
  let ricaviTotal := state.(ricaviY5) * state.(ricaviUnita) in
  let exitValue := ricaviTotal * state.(multiplo) in
  Array_map (fun dr =>
    percent <- toFixed (dr * 100) 0 ;;
    Normal {| dr := percent ++ "%";
              valuation := (exitValue / Math_pow (1 + dr) state.(anni)) / 1000000 |})
    drRates.
End Dashboard.

(** [formatCurrency] *)
Definition formatCurrency (value : float) : completion string :=
  let absValue := abs value in
  if 1000000 <=? absValue then
    millions <- toFixed (value / 1000000) 1 ;;
    Normal ("€" ++ millions ++ "M")
  else if 1000 <=? absValue then
    thousands <- toFixed (value / 1000) 1 ;;
    Normal ("€" ++ thousands ++ "k")
  else
    units <- toFixed value 0 ;;
    Normal ("€" ++ units).

(** "The amount with one decimal place", in the words of the
    specification: the sign, the integer part of the nearest number of
    tenths (the larger when two are as near), the point, and the tenths
    digit. *)
Definition one_decimal (x : float) : string :=
  let n := nearest_integer_scaled (abs x) 1 in
  (if x <? 0 then "-" else EmptyString) ++ digits (n / 10) ++ "." ++ digits (n mod 10).

(** "The amount as an integer with no decimal places": the sign and the
    nearest integer (the larger when two are as near). *)
Definition no_decimals (x : float) : string :=
  (if x <? 0 then "-" else EmptyString) ++ digits (nearest_integer_scaled (abs x) 0).

(** A list of numbers in strictly ascending order. *)
Definition ascending (l : list float) : Prop :=
  StronglySorted (fun a b => (a <? b) = true) l.

(** *** The component around the engine *)

(** The value of a [CurrencyUnit] member as a number. *)
Definition unit_value (u : CurrencyUnit) : float :=
  literal (CurrencyUnit_value u).

(** The initial state given to [useState]. *)
Definition initialState : VCMState float := {|
  ricaviY5 := 50;
  ricaviUnita := unit_value MILLIONS;
  multiplo := 6;
  discountRate := 45;
  anni := 5;
  investimento := 10;
  investUnita := unit_value MILLIONS;
  settore := "SaaS"
|}.

(** A call [handleInputChange (field, value)], by field. *)
Inductive input : Type :=
| set_ricaviY5 (value : float)
| set_ricaviUnita (value : float)
| set_multiplo (value : float)
| set_discountRate (value : float)
| set_anni (value : float)
| set_investimento (value : float)
| set_investUnita (value : float)
| set_settore (value : string).

(** [prev => ({ ...prev, [field]: value })]: a copy of the previous state
    with one field replaced. *)
Definition handleInputChange (i : input) (prev : VCMState float)
  : VCMState float :=
  let '(Build_VCMState _ a b c d e f g h) := prev in
  match i with
  | set_ricaviY5 v => Build_VCMState _ v b c d e f g h
  | set_ricaviUnita v => Build_VCMState _ a v c d e f g h
  | set_multiplo v => Build_VCMState _ a b v d e f g h
  | set_discountRate v => Build_VCMState _ a b c v e f g h
  | set_anni v => Build_VCMState _ a b c d v f g h
  | set_investimento v => Build_VCMState _ a b c d e v g h
  | set_investUnita v => Build_VCMState _ a b c d e f v h
  | set_settore v => Build_VCMState _ a b c d e f g v
  end.

(** What a [useMemo] hook keeps between renders: the dependency it last
    ran with and the value it returned. The dependency is the state
    object, compared by identity ([Object.is]); the model names each
    state object by the number of the update that created it. *)
Record memo (A : Type) : Type := {
  memo_deps : nat;
  memo_value : A
}.
Arguments memo_deps {A} m.
Arguments memo_value {A} m.

(** [useMemo (compute, [state])]: the kept value when the dependency is
    the object of the previous run, and a fresh run otherwise. A run that
    throws keeps nothing. *)
Definition useMemo {A : Type} (cell : option (memo A))
    (compute : unit -> completion A) (dep : nat)
  : completion A * option (memo A) :=
  let run :=
    match compute tt with
    | Normal v => (Normal v, Some {| memo_deps := dep; memo_value := v |})
    | Throw e => (Throw e, cell)
    end in
  match cell with
  | Some m => if Nat.eqb (memo_deps m) dep then (Normal (memo_value m), cell) else run
  | None => run
  end.

(** The component instance: the state object held by [useState], with
    its identity, and the cells of the two memos. *)
Record component : Type := {
  state_id : nat;
  state : VCMState float;
  results_memo : option (memo (VCMResults float));
  sensitivity_memo : option (memo (list (SensitivityData float)))
}.

Section Render.
Variable pow_approx : float -> float -> float.

(** One render: both memos are consulted with the current state. *)
Definition render (c : component)
  : (completion (VCMResults float)
     * completion (list (SensitivityData float))) * component :=
  let '(r, rm) :=
    useMemo c.(results_memo)
      (fun _ => Normal (results (arith := JSNumber pow_approx) c.(state)))
      c.(state_id) in
  let '(sd, sm) :=
    useMemo c.(sensitivity_memo)
      (fun _ => sensitivityData pow_approx c.(state))
      c.(state_id) in
  ((r, sd), {| state_id := c.(state_id); state := c.(state);
               results_memo := rm; sensitivity_memo := sm |}).

(** The first render of a mounted component. *)
Definition mount : component :=
  snd (render {| state_id := 0; state := initialState;
                 results_memo := None; sensitivity_memo := None |}).

(** What happens to a mounted component: an input changes a field,
    which installs a new state object and renders again, or something
    else (the theme) makes it render again with the same state. *)
Inductive event : Type :=
| change (i : input)
| rerender.

Definition step (c : component) (e : event) : component :=
  match e with
  | change i =>
      snd (render {| state_id := S c.(state_id);
                     state := handleInputChange i c.(state);
                     results_memo := c.(results_memo);
                     sensitivity_memo := c.(sensitivity_memo) |})
  | rerender => snd (render c)
  end.

(** The component after a history of events. *)
Definition after (history : list event) : component :=
  fold_left step history mount.

(** The invariant of the memo cells: a kept value is the value of the
    memoised function on the state object it names, which is the
    current one or an older one. *)
Definition cell_ok {A : Type} (f : VCMState float -> completion A)
    (c : component) (cell : option (memo A)) : Prop :=
  match cell with
  | None => True
  | Some m =>
      (memo_deps m <= c.(state_id))%nat /\
      (memo_deps m = c.(state_id) -> f c.(state) = Normal (memo_value m))
  end.

Definition memos_ok (c : component) : Prop :=
  cell_ok (fun s => Normal (results (arith := JSNumber pow_approx) s)) c c.(results_memo) /\
  cell_ok (sensitivityData pow_approx) c c.(sensitivity_memo).
End Render.
(** *** States to evaluate the engine on *)

(** The initial state with the revenue set to zero. *)
Definition no_revenue : VCMState float :=
  handleInputChange (set_ricaviY5 0) initialState.

(** The initial state with neither revenue nor investment. *)
Definition nothing_invested : VCMState float :=
  handleInputChange (set_investimento 0) no_revenue.

(** The initial state with a negative revenue. *)
Definition negative_revenue : VCMState float :=
  handleInputChange (set_ricaviY5 (-50)) initialState.

(** The initial state with a revenue that overflows once scaled to
    millions, and a zero multiple. *)
Definition overflowing : VCMState float :=
  handleInputChange (set_multiplo 0)
    (handleInputChange (set_ricaviY5 1e308) initialState).

(** The initial state with a revenue that overflows once scaled to
    millions and years to exit without end: the exit value and the power
    factor are both infinite. *)
Definition both_infinite : VCMState float :=
  handleInputChange (set_anni infinity)
    (handleInputChange (set_ricaviY5 1e308) initialState).

(** A state whose power factor is a power of two: a rate of 100% over
    three years. *)
Definition doubling : VCMState float := {|
  ricaviY5 := 49;
  ricaviUnita := unit_value ONES;
  multiplo := 1;
  discountRate := 100;
  anni := 3;
  investimento := 1;
  investUnita := unit_value ONES;
  settore := "SaaS"
|}.

(** The initial state with a rate of -100%, whose power factor is zero. *)
Definition total_loss : VCMState float :=
  handleInputChange (set_discountRate (-100)) initialState.

(** The initial state with no investment and no years to exit. *)
Definition immediate_exit : VCMState float :=
  handleInputChange (set_investimento 0)
    (handleInputChange (set_anni 0) initialState).
(** *** Rounding records *)

(** The bits shifted out of a mantissa so far are all zero. *)
Definition is_exact (mrs : shr_record) : bool :=
  negb (shr_r mrs || shr_s mrs).

(** A record as one integer: the mantissa, the round bit and the sticky
    bit, from the most to the least significant. *)
Definition code (mrs : shr_record) : Z :=
  (4 * shr_m mrs + (if shr_r mrs then 2 else 0) + (if shr_s mrs then 1 else 0))%Z.

(** Twice the integer part of [a / b], plus one when [a / b] is not an
    integer: the code of the value [a / (2 * b)], its last bit sticky. *)
Definition sticky_floor (a b : Z) : Z :=
  (2 * (a / b) + (if a mod b =? 0 then 0 else 1))%Z.

(** The integer nearest to [t / 4], the even one when two are as near:
    the mantissa that [round_nearest_even] gives for the code [t]. *)
Definition nearest_even (t : Z) : Z :=
  (let m := t / 4 in
   let k := t mod 4 in
   if k <? 2 then m
   else if k =? 2 then (if Z.even m then m else m + 1)
   else m + 1)%Z.

(** *** The value of a number *)

(** The real number a finite binary64 number stands for: its mantissa
    times two to its exponent, with its sign. The infinities and NaN
    stand for no real number and are given zero. *)
Definition SF2R (x : spec_float) : R :=
  match x with
  | S754_finite s m e => (IZR (if s then Zneg m else Zpos m) * powerRZ 2 e)%R
  | _ => 0%R
  end.

Definition B2R (x : float) : R := SF2R (Prim2SF x).

(** A normal number: finite and of magnitude at least [2 ^ -1022], the
    numbers that carry a mantissa of 53 bits. *)
Definition normal (x : float) : bool :=
  is_finite x && (0x1p-1022 <=? abs x).

(** *** The inputs and their presets *)

(** The key of [VCMState] that a call of [handleInputChange] names. *)
Definition field (i : input) : string :=
  match i with
  | set_ricaviY5 _ => "ricaviY5"
  | set_ricaviUnita _ => "ricaviUnita"
  | set_multiplo _ => "multiplo"
  | set_discountRate _ => "discountRate"
  | set_anni _ => "anni"
  | set_investimento _ => "investimento"
  | set_investUnita _ => "investUnita"
  | set_settore _ => "settore"
  end.

(** An input change, as opposed to a render for another reason. *)
Definition is_change (e : event) : bool :=
  match e with
  | change _ => true
  | rerender => false
  end.

(** A preset button: its name and its value. *)
Record preset : Type := {
  name : string;
  val : float
}.

(** The sector presets; a click makes two updates, the multiple and the
    sector. *)
Definition sectors : list preset :=
  [ {| name := "SaaS"; val := 6 |};
    {| name := "DeepTech"; val := 8 |};
    {| name := "Fintech"; val := 5 |} ].

Definition sector_onClick (s : preset) (prev : VCMState float)
  : VCMState float :=
  handleInputChange (set_settore s.(name))
    (handleInputChange (set_multiplo s.(val)) prev).

(** [state.settore === s.name]: the button is drawn as selected. *)
Definition sector_selected (state : VCMState float) (s : preset) : bool :=
  String.eqb state.(settore) s.(name).

(** The discount rate presets. *)
Definition stages : list preset :=
  [ {| name := "Seed"; val := 55 |};
    {| name := "Series A"; val := 45 |};
    {| name := "Series B"; val := 35 |} ].

Definition stage_onClick (s : preset) (prev : VCMState float)
  : VCMState float :=
  handleInputChange (set_discountRate s.(val)) prev.

(** [state.discountRate === s.val] *)
Definition stage_selected (state : VCMState float) (s : preset) : bool :=
  state.(discountRate) =? s.(val).


(** *** The theme *)

(** [localStorage]: its items in order, each key once. *)
Definition Storage : Type := list (string * string).

Fixpoint getItem (storage : Storage) (key : string) : option string :=
  match storage with
  | [] => None
  | (k, v) :: rest => if String.eqb k key then Some v else getItem rest key
  end.

Fixpoint setItem (storage : Storage) (key value : string) : Storage :=
  match storage with
  | [] => [(key, value)]
  | (k, v) :: rest =>
      if String.eqb k key then (k, value) :: rest
      else (k, v) :: setItem rest key value
  end.

(** The class list of the root element: [contains], [add] and [remove]. *)
Definition classList_contains (tokens : list string) (token : string) : bool :=
  existsb (String.eqb token) tokens.

Definition classList_add (tokens : list string) (token : string)
  : list string :=
  if classList_contains tokens token then tokens else (tokens ++ [token])%list.

Definition classList_remove (tokens : list string) (token : string)
  : list string :=
  filter (fun t => negb (String.eqb t token)) tokens.

(** What the theme code touches of the browser. *)
Record window : Type := {
  localStorage : Storage;
  classList : list string
}.

Definition Boolean_toString (b : bool) : string :=
  if b then "true" else "false".

(** The initialiser of the [darkMode] state; there is no [window] when
    the component is rendered outside a browser. *)
Definition initialDarkMode (w : option window) : bool :=
  match w with
  | Some w =>
      match getItem w.(localStorage) "darkMode" with
      | Some item => String.eqb item "true"
      | None => false
      end
  | None => false
  end.

(** The effect that follows [darkMode]. *)
Definition darkMode_effect (darkMode : bool) (w : window) : window :=
  {| classList := if darkMode then classList_add w.(classList) "dark"
                  else classList_remove w.(classList) "dark";
     localStorage :=
       setItem w.(localStorage) "darkMode" (Boolean_toString darkMode) |}.

(** The theme of a mounted component: the [darkMode] state, and the
    browser once the effect has run. *)
Definition theme_mount (w : window) : bool * window :=
  let darkMode := initialDarkMode (Some w) in
  (darkMode, darkMode_effect darkMode w).

(** A click on the theme button, [setDarkMode (!darkMode)], and the
    effect of the render that follows. *)
Definition theme_onClick (t : bool * window) : bool * window :=
  let darkMode := negb (fst t) in
  (darkMode, darkMode_effect darkMode (snd t)).

(** *** The cards *)

(** [Math.min (...args)] *)
Definition Math_min (args : list float) : float :=
  if existsb is_nan args then nan
  else
    fold_left
      (fun lowest number =>
         if (is_zero number && get_sign number)
            && (is_zero lowest && negb (get_sign lowest))
         then number
         else if number <? lowest then number else lowest)
      args infinity.

(** The number in the width of the ownership bar. *)
Definition ownership_bar (r : VCMResults float) : float :=
  Math_min [100; r.(vcOwnership) * 100].

(** [results.vcOwnership > 0.5]: the dilution warning is shown. *)
Definition dilution_warning (r : VCMResults float) : bool :=
  0.5 <? r.(vcOwnership).

(** [(results.vcOwnership * 100).toFixed (1)] and the percent sign. *)
Definition ownership_percent (r : VCMResults float) : completion string :=
  percent <- toFixed (r.(vcOwnership) * 100) 1 ;;
  Normal (percent ++ "%").

(** The figures of the four cards: exit value, valuation today,
    pre-money valuation, investment, ownership, return multiple and
    profit. *)
Definition figures (state : VCMState float) (r : VCMResults float)
  : completion (list string) :=
  exit <- formatCurrency r.(exitValue) ;;
  valuation <- formatCurrency r.(valuationToday) ;;
  preMoney <- formatCurrency r.(preMoneyVal) ;;
  investment <- formatCurrency (state.(investimento) * state.(investUnita)) ;;
  ownership <- ownership_percent r ;;
  roi <- toFixed r.(roiAtteso) 1 ;;
  profit <- formatCurrency r.(profitto) ;;
  Normal [exit; valuation; preMoney; investment; ownership; roi ++ "x"; profit].

(** The [calculation] and [extraCalculation] lines given to the formula
    blocks: exit, valuation, pre-money, ownership and return. *)
Definition calculations (state : VCMState float) (r : VCMResults float)
  : completion (list string) :=
  revenue <- formatCurrency (state.(ricaviY5) * state.(ricaviUnita)) ;;
  multiple <- toFixed state.(multiplo) 1 ;;
  exit <- formatCurrency r.(exitValue) ;;
  factor <- toFixed r.(powerFactor) 2 ;;
  valuation <- formatCurrency r.(valuationToday) ;;
  investment <- formatCurrency (state.(investimento) * state.(investUnita)) ;;
  preMoney <- formatCurrency r.(preMoneyVal) ;;
  ownership <- ownership_percent r ;;
  proceeds <- formatCurrency (r.(exitValue) * r.(vcOwnership)) ;;
  roi <- toFixed r.(roiAtteso) 1 ;;
  Normal
    [ "= " ++ revenue ++ " × " ++ multiple ++ "x = " ++ exit;
      "= " ++ exit ++ " / (1," ++ Number_toString state.(discountRate) ++ ")^"
        ++ Number_toString state.(anni) ++ " = " ++ exit ++ " / " ++ factor
        ++ " = " ++ valuation;
      "= " ++ valuation ++ " - " ++ investment ++ " = " ++ preMoney;
      "= " ++ investment ++ " / " ++ valuation ++ " = " ++ ownership;
      "= (" ++ exit ++ " × " ++ ownership ++ ") / " ++ investment ++ " = "
        ++ proceeds ++ " / " ++ investment ++ " = " ++ roi ++ "x" ].

(** *** The chart *)

(** The [formatter] of the tooltip: the text and the name of the series. *)
Definition formatter (value : float) : completion (string * string) :=
  text <- toFixed value 1 ;;
  Normal ("€" ++ text ++ "M", "Valuation").

(** The label over the rate slider, [{state.discountRate}%]. *)
Definition discountRate_label (state : VCMState float) : string :=
  Number_toString state.(discountRate) ++ "%".

(** *** More states to evaluate the engine on *)

(** The state after the revenue field has been emptied: [parseFloat]
    gives NaN for the empty string. *)
Definition revenue_cleared : VCMState float :=
  handleInputChange (set_ricaviY5 nan) initialState.

(** The initial state with an investment of 100 millions, more than the
    valuation. *)
Definition overfunded : VCMState float :=
  handleInputChange (set_investimento 100) initialState.

(** The initial state with a rate of -50%, whose power factor is 1/32. *)
Definition negative_rate : VCMState float :=
  handleInputChange (set_discountRate (-50)) initialState.

(** The initial state with a revenue of half a million, at a rate of
    40%. *)
Definition small_exit : VCMState float :=
  handleInputChange (set_discountRate 40)
    (handleInputChange (set_ricaviY5 0.5) initialState).





(** The initial state with the smallest positive investment amount. *)
Definition smallest_investment : VCMState float :=
  handleInputChange (set_investimento 5e-324) initialState.

(** States in which one of the four rounded results behind the return
    multiple is below the normal range: the valuation, the ownership,
    the product of exit value and ownership, and the return multiple
    itself. *)
Definition subnormal_valuation : VCMState float := {|
  ricaviY5 := 5e-324;
  ricaviUnita := unit_value ONES;
  multiplo := 6;
  discountRate := 45;
  anni := 5;
  investimento := 1e-300;
  investUnita := unit_value ONES;
  settore := "SaaS"
|}.

Definition subnormal_ownership : VCMState float :=
  handleInputChange (set_investUnita (unit_value ONES))
    (handleInputChange (set_investimento 4.68e-303) initialState).

Definition subnormal_product : VCMState float := {|
  ricaviY5 := 6.4e-14;
  ricaviUnita := unit_value ONES;
  multiplo := 1;
  discountRate := 45;
  anni := 5;
  investimento := 1e-320;
  investUnita := unit_value ONES;
  settore := "SaaS"
|}.

Definition subnormal_return : VCMState float := {|
  ricaviY5 := 0.391;
  ricaviUnita := unit_value ONES;
  multiplo := 1;
  discountRate := -99.990021;
  anni := 77;
  investimento := 169;
  investUnita := unit_value ONES;
  settore := "SaaS"
|}.

End JS.

(** * Properties *)

Import JS.
Local Open Scope float_scope.

(** ** Binary64 arithmetic

    Facts about the primitive operations, read off their specification
    in [SpecFloat]. *)

Lemma SFcompare_refl (x : spec_float) :
  SFcompare x x = match x with S754_nan => None | _ => Some Eq end.
Proof.
  destruct x as [s|s| |s m e]; try destruct s; simpl; trivial;
    rewrite Z.compare_refl, Pos.compare_cont_refl; reflexivity.
Qed.

(** The classification tests, on the specification. *)
Lemma is_nan_spec (x : float) :
  is_nan x = match Prim2SF x with S754_nan => true | _ => false end.
Proof.
  unfold is_nan. rewrite FloatAxioms.eqb_spec. unfold SFeqb. rewrite SFcompare_refl.
  destruct (Prim2SF x); reflexivity.
Qed.

Lemma is_zero_spec (x : float) :
  is_zero x = match Prim2SF x with S754_zero _ => true | _ => false end.
Proof.
  unfold is_zero. rewrite FloatAxioms.eqb_spec.
  change (Prim2SF PrimFloat.zero) with (S754_zero false).
  destruct (Prim2SF x) as [s|s| |s m e]; try destruct s; reflexivity.
Qed.

Lemma is_infinity_spec (x : float) :
  is_infinity x = match Prim2SF x with S754_infinity _ => true | _ => false end.
Proof.
  unfold is_infinity. rewrite FloatAxioms.eqb_spec, abs_spec.
  change (Prim2SF infinity) with (S754_infinity false).
  destruct (Prim2SF x) as [s|s| |s m e]; try destruct s; reflexivity.
Qed.

Lemma is_finite_spec (x : float) :
  is_finite x = match Prim2SF x with S754_zero _ | S754_finite _ _ _ => true | _ => false end.
Proof.
  unfold is_finite. rewrite is_nan_spec, is_infinity_spec.
  destruct (Prim2SF x); reflexivity.
Qed.

(** A left shift divided by a smaller power of two is exact. *)
Lemma div_eucl_pow2 (m : positive) (k j : Z) :
  (0 <= j <= k)%Z -> Z.div_eucl (Z.shiftl (Zpos m) k) (2 ^ j) = ((Zpos m * 2 ^ (k - j))%Z, 0%Z).
Proof.
  intros Hk.
  assert (E : Z.shiftl (Zpos m) k = (Zpos m * 2 ^ (k - j) * 2 ^ j)%Z).
  { rewrite Z.shiftl_mul_pow2 by lia. rewrite <- Z.mul_assoc, <- Z.pow_add_r by lia.
    do 2 f_equal. lia. }
  rewrite E.
  assert (P : (0 < 2 ^ j)%Z) by (apply Z.pow_pos_nonneg; lia).
  generalize (Z.div_mul (Zpos m * 2 ^ (k - j)) (2 ^ j)) (Z.mod_mul (Zpos m * 2 ^ (k - j)) (2 ^ j)).
  unfold Z.div, Z.modulo.
  destruct (Z.div_eucl _ _) as [q r]. intros -> ->; try lia. reflexivity.
Qed.


(** A canonical mantissa is not shifted. *)
Lemma shr_fexp_canonical (m : positive) (e : Z) :
  canonical_mantissa prec emax m e = true ->
  shr_fexp prec emax (Zpos m) e loc_Exact
  = ({| shr_m := Zpos m; shr_r := false; shr_s := false |}, e).
Proof.
  unfold canonical_mantissa, shr_fexp. intros C. apply Z.eqb_eq in C.
  change (Zdigits2 (Zpos m)) with (Zpos (digits2_pos m)).
  rewrite C, Z.sub_diag. reflexivity.
Qed.

(** Rounding a number of the format gives the number back. *)
Lemma binary_round_aux_canonical (s : bool) (m : positive) (e : Z) :
  bounded prec emax m e = true ->
  binary_round_aux prec emax s (Zpos m) e loc_Exact = S754_finite s m e.
Proof.
  unfold bounded. intros V. apply andb_true_iff in V. destruct V as [C B].
  unfold binary_round_aux. rewrite (shr_fexp_canonical m e C).
  cbv beta iota zeta delta [shr_m loc_of_shr_record round_nearest_even].
  rewrite (shr_fexp_canonical m e C).
  cbv beta iota zeta delta [shr_m]. rewrite B. reflexivity.
Qed.

(** So does rounding it with one more bit, a zero, in its mantissa. *)
Lemma binary_round_aux_double (s : bool) (m : positive) (e : Z) :
  bounded prec emax m e = true -> (-1074 < e)%Z ->
  binary_round_aux prec emax s (Zpos m~0) (e - 1) loc_Exact = S754_finite s m e.
Proof.
  intros V He. generalize V. unfold bounded. intros V'.
  apply andb_true_iff in V'. destruct V' as [C B].
  rewrite <- (binary_round_aux_canonical s m e V).
  unfold binary_round_aux at 1.
  assert (S1 : shr_fexp prec emax (Zpos m~0) (e - 1) loc_Exact
               = ({| shr_m := Zpos m; shr_r := false; shr_s := false |}, e)).
  { unfold shr_fexp.
    change (Zdigits2 (Zpos m~0)) with (Zpos (Pos.succ (digits2_pos m))).
    unfold canonical_mantissa in C. apply Z.eqb_eq in C.
    unfold fexp, SpecFloat.emin, prec, emax in *.
    replace (Z.max (Zpos (Pos.succ (digits2_pos m)) + (e - 1) - 53) (3 - 1024 - 53) - (e - 1))%Z
      with 1%Z by lia.
    unfold shr. cbv beta iota zeta delta [iter_pos shr_1 shr_record_of_loc orb].
    f_equal. lia. }
  rewrite S1.
  cbv beta iota zeta delta [shr_m loc_of_shr_record round_nearest_even].
  unfold binary_round_aux.
  rewrite (shr_fexp_canonical m e C).
  cbv beta iota zeta delta [shr_m loc_of_shr_record round_nearest_even].
  rewrite (shr_fexp_canonical m e C). reflexivity.
Qed.

(** A division by one is exact. *)
Lemma SFdiv_one (x : spec_float) :
  valid_binary x = true -> SF64div x (Prim2SF 1) = x.
Proof.
  change (Prim2SF 1) with (S754_finite false 4503599627370496 (-52)).
  destruct x as [s|s| |s m e]; intros V; try (destruct s; reflexivity); try reflexivity.
  simpl in V. generalize V. unfold bounded, canonical_mantissa. intros V'.
  apply andb_true_iff in V'. destruct V' as [C B].
  apply Z.eqb_eq in C. apply Z.leb_le in B.
  unfold SF64div, SFdiv, SFdiv_core_binary.
  change (Zdigits2 4503599627370496) with 53%Z.
  change (Zdigits2 (Zpos m)) with (Zpos (digits2_pos m)).
  rewrite xorb_false_r.
  change 4503599627370496%Z with (2 ^ 52)%Z.
  unfold fexp, SpecFloat.emin, prec, emax in C, B |- *.
  destruct (Z.eq_dec e (-1074)) as [He|He].
  - (* the subnormal exponent *)
    replace (Z.min _ _) with e by lia.
    replace (e - -52 - e)%Z with 52%Z by lia.
    rewrite div_eucl_pow2 by lia.
    change (2 ^ (52 - 52))%Z with 1%Z. rewrite Z.mul_1_r.
    change (new_location (2 ^ 52) 0) with loc_Exact.
    apply (binary_round_aux_canonical s m e V).
  - replace (Z.min _ _) with (e - 1)%Z by lia.
    replace (e - -52 - (e - 1))%Z with 53%Z by lia.
    rewrite div_eucl_pow2 by lia.
    change (2 ^ (53 - 52))%Z with 2%Z.
    replace (Zpos m * 2)%Z with (Zpos m~0) by lia.
    change (new_location (2 ^ 52) 0) with loc_Exact.
    apply (binary_round_aux_double s m e V). lia.
Qed.

Lemma div_one (x : float) : x / 1 = x.
Proof.
  apply Prim2SF_inj. rewrite div_spec. apply SFdiv_one, Prim2SF_valid.
Qed.

(** ** Rounding

    What [binary_round_aux] does to a mantissa: two right shifts with a
    rounding to nearest in between. *)

Local Open Scope Z_scope.

(** One shift halves the mantissa and records whether a one was lost. *)
Lemma shr_1_spec (mrs : shr_record) :
  0 <= shr_m mrs ->
  shr_m (shr_1 mrs) = shr_m mrs / 2
  /\ is_exact (shr_1 mrs) = is_exact mrs && (shr_m mrs mod 2 =? 0).
Proof.
  destruct mrs as [m r s]. cbn [shr_m]. intros Hm. unfold is_exact.
  destruct m as [|[p|p|]|]; try lia; cbn [shr_1 shr_m shr_r shr_s].
  - split; [reflexivity|]. cbn. destruct (r || s); reflexivity.
  - split.
    + rewrite Pos2Z.inj_xI. apply Z.div_unique with 1; lia.
    + replace (Zpos p~1 mod 2) with 1.
      * cbn. rewrite andb_false_r. reflexivity.
      * rewrite Pos2Z.inj_xI. apply Z.mod_unique with (Zpos p); lia.
  - split.
    + rewrite Pos2Z.inj_xO. apply Z.div_unique with 0; lia.
    + replace (Zpos p~0 mod 2) with 0.
      * cbn. rewrite andb_true_r. reflexivity.
      * rewrite Pos2Z.inj_xO. apply Z.mod_unique with (Zpos p); lia.
  - split; [reflexivity|]. cbn. rewrite andb_false_r. reflexivity.
Qed.

(** Divisibility by a product, factor by factor. *)
Lemma mod_mul_eqb (m a b : Z) :
  0 <= m -> 0 < a -> 0 < b ->
  (m mod (a * b) =? 0) = (m mod a =? 0) && ((m / a) mod b =? 0).
Proof.
  intros Hm Ha Hb. rewrite Z.rem_mul_r by lia.
  pose proof (Z.mod_pos_bound m a Ha).
  pose proof (Z.mod_pos_bound (m / a) b Hb).
  destruct (Z.eqb_spec (m mod a) 0) as [E|E];
    destruct (Z.eqb_spec ((m / a) mod b) 0) as [F|F]; cbn;
    apply Z.eqb_eq || apply Z.eqb_neq; nia.
Qed.

(** [p] shifts divide the mantissa by [2 ^ p]; nothing is lost exactly
    when nothing had been lost and the mantissa is a multiple of [2 ^ p]. *)
Lemma iter_shr_1 (p : positive) (mrs : shr_record) :
  0 <= shr_m mrs ->
  shr_m (iter_pos shr_1 p mrs) = shr_m mrs / 2 ^ Zpos p
  /\ is_exact (iter_pos shr_1 p mrs)
     = is_exact mrs && (shr_m mrs mod 2 ^ Zpos p =? 0).
Proof.
  revert mrs. induction p as [p IH|p IH|]; intros mrs Hm; cbn [iter_pos].
  - destruct (shr_1_spec mrs Hm) as [M1 E1].
    assert (H1 : 0 <= shr_m (shr_1 mrs)) by (rewrite M1; apply Z.div_pos; lia).
    destruct (IH _ H1) as [M2 E2].
    assert (H2 : 0 <= shr_m (iter_pos shr_1 p (shr_1 mrs)))
      by (rewrite M2; apply Z.div_pos; [|apply Z.pow_pos_nonneg]; lia).
    destruct (IH _ H2) as [M3 E3].
    assert (P : 0 < 2 ^ Zpos p) by (apply Z.pow_pos_nonneg; lia).
    replace (2 ^ Zpos p~1) with (2 * 2 ^ Zpos p * 2 ^ Zpos p)
      by (replace (Zpos p~1) with (1 + Zpos p + Zpos p) by lia;
          rewrite !Z.pow_add_r, Z.pow_1_r by lia; reflexivity).
    split.
    + rewrite M3, M2, M1, !Z.div_div by lia. f_equal. ring.
    + rewrite E3, E2, E1, M2, M1.
      rewrite (mod_mul_eqb _ (2 * 2 ^ Zpos p)), (mod_mul_eqb _ 2) by lia.
      rewrite Z.div_div by lia. rewrite !andb_assoc. reflexivity.
  - destruct (IH _ Hm) as [M2 E2].
    assert (H2 : 0 <= shr_m (iter_pos shr_1 p mrs))
      by (rewrite M2; apply Z.div_pos; [|apply Z.pow_pos_nonneg]; lia).
    destruct (IH _ H2) as [M3 E3].
    assert (P : 0 < 2 ^ Zpos p) by (apply Z.pow_pos_nonneg; lia).
    replace (2 ^ Zpos p~0) with (2 ^ Zpos p * 2 ^ Zpos p)
      by (rewrite <- Z.pow_add_r by lia; f_equal; lia).
    split.
    + rewrite M3, M2, Z.div_div by lia. reflexivity.
    + rewrite E3, E2, M2, (mod_mul_eqb _ (2 ^ Zpos p)) by lia.
      rewrite !andb_assoc. reflexivity.
  - exact (shr_1_spec mrs Hm).
Qed.

(** The same for [shr], which shifts [n] times when [n] is positive. *)
Lemma shr_spec (mrs : shr_record) (e n : Z) :
  0 <= shr_m mrs ->
  let '(mrs', e') := shr mrs e n in
  shr_m mrs' = shr_m mrs / 2 ^ Z.max n 0
  /\ is_exact mrs' = is_exact mrs && (shr_m mrs mod 2 ^ Z.max n 0 =? 0)
  /\ e' = e + Z.max n 0.
Proof.
  intros Hm. unfold shr. destruct n as [|p|p].
  - cbn [Z.max Z.compare Z.pow]. rewrite Z.div_1_r, Z.mod_1_r, andb_true_r, Z.add_0_r.
    repeat split.
  - replace (Z.max (Zpos p) 0) with (Zpos p) by lia.
    destruct (iter_shr_1 p mrs Hm) as [M E]. repeat split; assumption.
  - replace (Z.max (Zneg p) 0) with 0 by lia.
    cbn [Z.pow]. rewrite Z.div_1_r, Z.mod_1_r, andb_true_r, Z.add_0_r.
    repeat split.
Qed.

(** The record a rounding starts from. *)
Lemma exact_of_loc (m : Z) (l : location) :
  shr_m (shr_record_of_loc m l) = m
  /\ is_exact (shr_record_of_loc m l)
     = match l with loc_Exact => true | _ => false end.
Proof. destruct l as [|[| |]]; split; reflexivity. Qed.

(** Rounding to nearest keeps the mantissa or adds one to it, and keeps
    it when nothing was lost. *)
Lemma round_nearest_even_spec (mrs : shr_record) :
  let m := round_nearest_even (shr_m mrs) (loc_of_shr_record mrs) in
  shr_m mrs <= m <= shr_m mrs + 1
  /\ (is_exact mrs = true -> m = shr_m mrs).
Proof.
  destruct mrs as [m [|] [|]]; cbn; try destruct (Z.even m); split;
    try lia; try discriminate; reflexivity.
Qed.

(** The number of binary digits of a mantissa. *)
Lemma digits2_pos_size (p : positive) : digits2_pos p = Pos.size p.
Proof. induction p; cbn; rewrite ?IHp; reflexivity. Qed.

Lemma Zdigits2_bounds (p : positive) :
  2 ^ (Zdigits2 (Zpos p) - 1) <= Zpos p < 2 ^ Zdigits2 (Zpos p).
Proof.
  cbn [Zdigits2]. rewrite digits2_pos_size.
  pose proof (Pos.size_gt p) as G. pose proof (Pos.size_le p) as L.
  assert (Q : forall q, Zpos (2 ^ q) = 2 ^ Zpos q) by (intros; apply Pos2Z.inj_pow).
  split.
  - apply Pos2Z.pos_le_pos in L. rewrite Q, (Pos2Z.inj_xO p) in L.
    replace (2 ^ Zpos (Pos.size p)) with (2 * 2 ^ (Zpos (Pos.size p) - 1)) in L.
    + lia.
    + rewrite <- Z.pow_succ_r by lia. f_equal. lia.
  - apply Pos2Z.pos_lt_pos in G. rewrite Q in G. exact G.
Qed.

(** A number below [2 ^ k] has at most [k] binary digits. *)
Lemma Zdigits2_le (m k : Z) :
  0 <= m -> 0 <= k -> m < 2 ^ k -> Zdigits2 m <= k.
Proof.
  intros Hm Hk Hlt. destruct m as [|p|p]; try lia; [cbn; lia|].
  pose proof (Zdigits2_bounds p) as [L _].
  destruct (Z_le_gt_dec (Zdigits2 (Zpos p)) k) as [|G]; [assumption|].
  assert (2 ^ k <= 2 ^ (Zdigits2 (Zpos p) - 1)) by (apply Z.pow_le_mono_r; lia).
  lia.
Qed.

(** A number of the format: its exponent is the canonical one and is at
    most the largest. *)
Lemma bounded_spec (m : positive) (e : Z) :
  bounded prec emax m e = true ->
  Z.max (Zdigits2 (Zpos m) + e - 53) (-1074) = e /\ e <= 971.
Proof.
  unfold bounded, canonical_mantissa, fexp, SpecFloat.emin, prec, emax.
  intros B. apply andb_true_iff in B. destruct B as [C B].
  apply Z.eqb_eq in C. apply Z.leb_le in B. cbn [Zdigits2]. lia.
Qed.

(** The shift that brings a mantissa to its canonical exponent. *)
Lemma shr_fexp_spec (m e : Z) (l : location) :
  0 <= m ->
  let n := Z.max (Z.max (Zdigits2 m + e - 53) (-1074) - e) 0 in
  let '(mrs, e') := shr_fexp prec emax m e l in
  shr_m mrs = m / 2 ^ n
  /\ is_exact mrs = match l with loc_Exact => true | _ => false end
                 && (m mod 2 ^ n =? 0)
  /\ e' = e + n.
Proof.
  intros Hm n. unfold shr_fexp.
  destruct (exact_of_loc m l) as [M E].
  pose proof (shr_spec (shr_record_of_loc m l) e
                (fexp prec emax (Zdigits2 m + e) - e)) as S.
  rewrite M in S. specialize (S Hm).
  destruct (shr _ _ _) as [mrs e']. rewrite E in S.
  unfold fexp, SpecFloat.emin, prec, emax in S.
  replace (3 - 1024 - 53) with (-1074) in S by reflexivity. exact S.
Qed.

(** Rounding is monotone below a number of the format: a value
    [q * 2 ^ e'] (plus a remainder when [l] is inexact) that is at most
    the number [m1 * 2 ^ e1] rounds to at most that number. *)
Lemma binary_round_aux_le (q e' : Z) (l : location) (m1 : positive) (e1 : Z) :
  bounded prec emax m1 e1 = true ->
  0 <= q -> e' <= e1 ->
  q < Zpos m1 * 2 ^ (e1 - e')
  \/ (q = Zpos m1 * 2 ^ (e1 - e') /\ l = loc_Exact) ->
  SFleb (binary_round_aux prec emax false q e' l) (S754_finite false m1 e1)
  = true.
Proof.
  intros B Hq He Hle. destruct (bounded_spec m1 e1 B) as [C E1].
  pose proof (Zdigits2_bounds m1) as [_ D1].
  set (d1 := Zdigits2 (Zpos m1)) in *.
  assert (Hd1 : 0 < d1) by (unfold d1; cbn; lia).
  unfold binary_round_aux.
  (* the first shift *)
  pose proof (shr_fexp_spec q e' l Hq) as S1. cbv zeta in S1.
  set (N1 := Z.max (Z.max (Zdigits2 q + e' - 53) (-1074) - e') 0) in *.
  destruct (shr_fexp prec emax q e' l) as [mrs1 ea].
  destruct S1 as (M1 & X1 & ->).
  assert (P1 : forall k, 0 <= k -> 0 < 2 ^ k) by (intros; apply Z.pow_pos_nonneg; lia).
  assert (Hq' : q <= Zpos m1 * 2 ^ (e1 - e')) by lia.
  assert (HN1 : 0 <= N1 <= e1 - e').
  { split; [unfold N1; lia|].
    assert (Zdigits2 q <= d1 + (e1 - e')).
    { apply Zdigits2_le; try lia. rewrite Z.pow_add_r by lia.
      pose proof (P1 (e1 - e')). nia. }
    unfold N1. lia. }
  set (Xs := Zpos m1 * 2 ^ (e1 - (e' + N1))).
  assert (HX : Zpos m1 * 2 ^ (e1 - e') = Xs * 2 ^ N1).
  { unfold Xs. rewrite <- Z.mul_assoc, <- Z.pow_add_r by lia. do 2 f_equal. lia. }
  pose proof (round_nearest_even_spec mrs1) as R. cbv zeta in R.
  set (m3 := round_nearest_even (shr_m mrs1) (loc_of_shr_record mrs1)) in *.
  destruct R as [R1 R2].
  assert (Hqs : 0 <= shr_m mrs1) by (rewrite M1; apply Z.div_pos; [lia|apply P1; lia]).
  assert (H3 : 0 <= m3 <= Xs).
  { split; [lia|]. destruct Hle as [HL|[HE ->]].
    - assert (shr_m mrs1 < Xs).
      { rewrite M1. apply Z.div_lt_upper_bound; [apply P1; lia|]. lia. }
      lia.
    - rewrite R2; [rewrite M1, HE, HX, Z.div_mul; [lia|]|].
      + pose proof (P1 N1). lia.
      + rewrite X1, HE, HX, Z.mod_mul; [reflexivity|]. pose proof (P1 N1). lia. }
  (* the second shift *)
  pose proof (shr_fexp_spec m3 (e' + N1) loc_Exact (proj1 H3)) as S2. cbv zeta in S2.
  set (N2 := Z.max (Z.max (Zdigits2 m3 + (e' + N1) - 53) (-1074) - (e' + N1)) 0) in *.
  destruct (shr_fexp prec emax m3 (e' + N1) loc_Exact) as [mrs2 eb].
  destruct S2 as (M2 & _ & ->).
  assert (HN2 : 0 <= N2 <= e1 - (e' + N1)).
  { split; [unfold N2; lia|].
    assert (Zdigits2 m3 <= d1 + (e1 - (e' + N1))).
    { apply Zdigits2_le; try lia. rewrite Z.pow_add_r by lia.
      pose proof (P1 (e1 - (e' + N1))). unfold Xs in H3. nia. }
    unfold N2. lia. }
  set (X4 := Zpos m1 * 2 ^ (e1 - (e' + N1 + N2))).
  assert (HX4 : Xs = X4 * 2 ^ N2).
  { unfold Xs, X4. rewrite <- Z.mul_assoc, <- Z.pow_add_r by lia. do 2 f_equal. lia. }
  assert (H4 : 0 <= shr_m mrs2 <= X4).
  { rewrite M2. split; [apply Z.div_pos; [lia|apply P1; lia]|].
    rewrite <- (Z.div_mul X4 (2 ^ N2)) by (pose proof (P1 N2); lia).
    apply Z.div_le_mono; [apply P1; lia|]. lia. }
  destruct (shr_m mrs2) as [|m4|m4]; [reflexivity| |lia].
  unfold prec, emax.
  replace (e' + N1 + N2 <=? 1024 - 53) with true by (symmetry; apply Z.leb_le; lia).
  unfold SFleb, SFcompare.
  destruct (Z.compare_spec (e' + N1 + N2) e1) as [HE|HL|HG]; [|reflexivity|lia].
  assert (Zpos m4 <= Zpos m1).
  { unfold X4 in H4. rewrite HE, Z.sub_diag in H4. cbn in H4. lia. }
  change (Pos.compare_cont Eq m4 m1) with (Pos.compare m4 m1).
  destruct (Pos.compare_spec m4 m1); try reflexivity. lia.
Qed.

(** Euclidean division. *)
Lemma div_eucl_spec (a b : Z) :
  0 < b -> let '(q, r) := Z.div_eucl a b in a = b * q + r /\ 0 <= r < b.
Proof.
  intros Hb. generalize (Z_div_mod a b (Z.lt_gt _ _ Hb)).
  destruct (Z.div_eucl a b) as [q r]. tauto.
Qed.

Lemma new_location_zero (n : Z) : new_location n 0 = loc_Exact.
Proof. unfold new_location. destruct (Z.even n); reflexivity. Qed.

(** A number of the format that is at least one has a non-negative
    value exponent and a full mantissa. *)
Lemma at_least_one (m : positive) (e : Z) :
  bounded prec emax m e = true ->
  SFleb (Prim2SF 1) (S754_finite false m e) = true ->
  -52 <= e /\ Zdigits2 (Zpos m) = 53 /\ 2 ^ 52 <= Zpos m.
Proof.
  intros B L. destruct (bounded_spec m e B) as [C _].
  change (Prim2SF 1) with (S754_finite false 4503599627370496 (-52)) in L.
  unfold SFleb, SFcompare in L.
  assert (He : -52 <= e)
    by (destruct (Z.compare_spec (-52) e); try discriminate; lia).
  assert (D : Zdigits2 (Zpos m) = 53) by lia.
  pose proof (Zdigits2_bounds m) as [Lo _]. rewrite D in Lo.
  repeat split; try assumption.
Qed.

(** Dividing a positive number of the format by one that is at least
    one gives at most the number. *)
Lemma SFdiv_le (m1 m2 : positive) (e1 e2 : Z) :
  bounded prec emax m1 e1 = true ->
  bounded prec emax m2 e2 = true ->
  SFleb (Prim2SF 1) (S754_finite false m2 e2) = true ->
  SFleb (SF64div (S754_finite false m1 e1) (S754_finite false m2 e2))
        (S754_finite false m1 e1) = true.
Proof.
  intros B1 B2 L.
  destruct (at_least_one m2 e2 B2 L) as (He2 & D2 & Hm2).
  destruct (bounded_spec m1 e1 B1) as [C1 E1].
  pose proof (Zdigits2_bounds m1) as [_ Hd1].
  unfold SF64div, SFdiv, SFdiv_core_binary. rewrite D2.
  set (d1 := Zdigits2 (Zpos m1)) in *.
  assert (Hd : 0 < d1) by (unfold d1; cbn; lia).
  unfold fexp, SpecFloat.emin, prec, emax.
  set (e' := Z.min (Z.max (d1 + e1 - (53 + e2) - 53) (3 - 1024 - 53)) (e1 - e2)).
  assert (He' : e' <= e1 /\ e' <= e1 - e2) by (unfold e'; lia).
  set (s := e1 - e2 - e').
  assert (Hs : 0 <= s) by (unfold s; lia).
  assert (P : forall k, 0 <= k -> 0 < 2 ^ k) by (intros; apply Z.pow_pos_nonneg; lia).
  assert (Hm' : match s with
                | 0 => Zpos m1
                | Zpos _ => Z.shiftl (Zpos m1) s
                | Zneg _ => 0
                end = Zpos m1 * 2 ^ s).
  { destruct s as [|p|p] eqn:S; [cbn; lia| |lia].
    apply Z.shiftl_mul_pow2. lia. }
  rewrite Hm'.
  pose proof (div_eucl_spec (Zpos m1 * 2 ^ s) (Zpos m2) eq_refl) as Q.
  destruct (Z.div_eucl _ _) as [q r]. destruct Q as [Q R].
  cbn [xorb].
  assert (Hq : 0 <= q) by (pose proof (P s Hs); nia).
  assert (K : Zpos m1 * 2 ^ s <= Zpos m1 * 2 ^ (e1 - e') * Zpos m2).
  { replace (e1 - e') with (s + e2) by (unfold s; lia).
    destruct (Z_le_gt_dec 0 e2) as [Pos|Neg].
    - rewrite Z.pow_add_r by lia. pose proof (P s Hs). pose proof (P e2 Pos).
      assert (1 <= 2 ^ e2 * Zpos m2) by nia.
      rewrite <- !Z.mul_assoc. apply Z.mul_le_mono_nonneg_l; [lia|].
      rewrite <- (Z.mul_1_r (2 ^ s)) at 1. apply Z.mul_le_mono_nonneg_l; lia.
    - replace s with (s + e2 + - e2) at 1 by lia.
      rewrite (Z.pow_add_r 2 (s + e2)) by lia.
      assert (2 ^ (- e2) <= 2 ^ 52) by (apply Z.pow_le_mono_r; lia).
      assert (0 < 2 ^ (s + e2)) by (apply P; unfold s; lia).
      pose proof (P (- e2)).
      rewrite <- !Z.mul_assoc. apply Z.mul_le_mono_nonneg_l; [lia|].
      apply Z.mul_le_mono_nonneg_l; lia. }
  apply (binary_round_aux_le q e' (new_location (Zpos m2) r) m1 e1 B1 Hq (proj1 He')).
  destruct (Z_lt_le_dec q (Zpos m1 * 2 ^ (e1 - e'))) as [Lt|Ge]; [left; exact Lt|].
  right.
  assert (r = 0) by nia. subst r.
  split; [nia|apply new_location_zero].
Qed.

Local Close Scope Z_scope.

(** The magnitude of a rounding does not depend on the sign. *)
Lemma SFabs_binary_round_aux (s : bool) (m e : Z) (l : location) :
  SFabs (binary_round_aux prec emax s m e l)
  = binary_round_aux prec emax false m e l.
Proof.
  unfold binary_round_aux.
  destruct (shr_fexp prec emax m e l) as [mrs' e'].
  destruct (shr_fexp prec emax _ e' loc_Exact) as [mrs'' e''].
  destruct (shr_m mrs''); [reflexivity| |reflexivity].
  destruct (e'' <=? emax - prec)%Z; reflexivity.
Qed.

(** Dividing a number that is not negative by a number that is at least
    one does not make it larger. *)
Lemma div_le_self (x y : float) :
  (0 <=? x) = true -> (1 <=? y) = true ->
  is_infinity x && is_infinity y = false ->
  (x / y <=? x) = true.
Proof.
  rewrite !is_infinity_spec, !leb_spec, div_spec.
  pose proof (Prim2SF_valid x) as Vx. pose proof (Prim2SF_valid y) as Vy.
  change (Prim2SF 0) with (S754_zero false).
  intros Hx Hy Hi. revert Hx Hi Vx.
  destruct (Prim2SF y) as [sy|sy| |sy my ey]; try discriminate Hy;
    destruct sy; try discriminate Hy;
    destruct (Prim2SF x) as [sx|sx| |sx mx ex];
    try discriminate; try (destruct sx; discriminate || reflexivity).
  destruct sx; [discriminate|]. intros _ _ Vx.
  apply SFdiv_le; assumption.
Qed.

(** Dividing a finite number by a number that is at least one does not
    make its magnitude larger. *)
Lemma abs_div_le (x y : float) :
  is_finite x = true -> (1 <=? y) = true ->
  (abs (x / y) <=? abs x) = true.
Proof.
  rewrite is_finite_spec, !leb_spec, !abs_spec, div_spec.
  pose proof (Prim2SF_valid x) as Vx. pose proof (Prim2SF_valid y) as Vy.
  intros Hx Hy. revert Hx Vx.
  destruct (Prim2SF y) as [sy|sy| |sy my ey]; try discriminate Hy;
    destruct sy; try discriminate Hy;
    destruct (Prim2SF x) as [sx|sx| |sx mx ex];
    try discriminate; try (destruct sx; discriminate || reflexivity).
  intros _ Vx. cbn [SFabs]. unfold SF64div, SFdiv.
  destruct (SFdiv_core_binary _ _ _ _ _ _) as [[q e'] l] eqn:D.
  rewrite SFabs_binary_round_aux.
  generalize (SFdiv_le mx my ex ey Vx Vy Hy).
  unfold SF64div, SFdiv. rewrite D. cbn [xorb]. trivial.
Qed.

(** The order of the numbers is transitive. *)
Lemma SFleb_trans (a b c : spec_float) :
  SFleb a b = true -> SFleb b c = true -> SFleb a c = true.
Proof.
  unfold SFleb, SFcompare.
  destruct a as [[|]|[|]| |[|] ma ea]; destruct b as [[|]|[|]| |[|] mb eb];
    destruct c as [[|]|[|]| |[|] mc ec]; try discriminate; try reflexivity;
    change (Pos.compare_cont Eq) with Pos.compare;
    destruct (Z.compare_spec ea eb); destruct (Z.compare_spec eb ec);
    destruct (Z.compare_spec ea ec); try discriminate; try reflexivity; try lia;
    subst;
    destruct (Pos.compare_spec ma mb); destruct (Pos.compare_spec mb mc);
    destruct (Pos.compare_spec ma mc); cbn; try discriminate; try reflexivity;
    lia.
Qed.

Lemma leb_trans (a b c : float) :
  (a <=? b) = true -> (b <=? c) = true -> (a <=? c) = true.
Proof. rewrite !leb_spec. apply SFleb_trans. Qed.

(** Goals about special values are settled on the specification: the
    operations are rewritten to their [SpecFloat] counterparts and the
    operands split into zero, infinity, NaN and finite. *)
Ltac to_spec :=
  rewrite ?is_nan_spec, ?is_zero_spec, ?is_finite_spec, ?is_infinity_spec in *;
  repeat (rewrite div_spec in * || rewrite mul_spec in * || rewrite sub_spec in *
          || rewrite add_spec in * || rewrite abs_spec in *).

Ltac by_cases :=
  repeat match goal with
         | |- context [Prim2SF ?x] => is_var x; generalize (Prim2SF x); clear x; intro x
         end;
  repeat match goal with
         | x : spec_float |- _ => destruct x as [[|]|[|]| |[|] ? ?]
         end;
  cbn; intros; try discriminate; try reflexivity.

(** With nothing invested the return multiple is [0 / 0], whatever the
    unit, the exit value and the valuation are. *)
Lemma roi_of_no_investment (i u e v : float) :
  is_zero i = true -> is_nan ((e * ((i * u) / v)) / (i * u)) = true.
Proof. to_spec. by_cases. Qed.

(** With nothing invested the share is a zero, unless the valuation it is
    divided by is itself zero or NaN. *)
Lemma ownership_of_no_investment (i u v : float) :
  is_zero i = true -> is_finite u = true ->
  if is_nan v || is_zero v then is_nan ((i * u) / v) = true
  else is_zero ((i * u) / v) = true.
Proof. to_spec. by_cases. Qed.

(** A division by zero gives an infinity or NaN. *)
Lemma div_by_zero (x y : float) :
  is_zero y = true -> is_finite (x / y) = false.
Proof. to_spec. by_cases. Qed.

(** [Math.pow (b, 0)] is [1] for every base. *)
Lemma pow_zero_exponent (approx : float -> float -> float) (b e : float) :
  is_zero e = true -> pow approx b e = 1.
Proof.
  intros Z. unfold pow. rewrite Z.
  replace (is_nan e) with false; [reflexivity|].
  revert Z. to_spec. by_cases.
Qed.

(** The result of a rounding carries the sign it was given. *)
Lemma binary_round_aux_sign (s : bool) (m e : Z) (l : location) :
  match binary_round_aux prec emax s m e l with
  | S754_zero s' | S754_infinity s' | S754_finite s' _ _ => s' = s
  | S754_nan => True
  end.
Proof.
  unfold binary_round_aux.
  destruct (shr_fexp prec emax m e l) as [mrs' e'].
  destruct (shr_fexp prec emax _ e' loc_Exact) as [mrs'' e''].
  destruct (shr_m mrs''); [reflexivity| |exact I].
  destruct (e'' <=? emax - prec)%Z; reflexivity.
Qed.

(** A product of two numbers that are not negative is not negative,
    unless it is NaN (an infinity times zero). *)
Lemma mul_nonneg (a b : float) :
  (0 <=? a) || is_nan a = true -> (0 <=? b) = true ->
  (0 <=? a * b) || is_nan (a * b) = true.
Proof.
  rewrite !is_nan_spec, !leb_spec, mul_spec.
  change (Prim2SF 0) with (S754_zero false).
  destruct (Prim2SF a) as [[|]|[|]| |[|] ma ea];
    destruct (Prim2SF b) as [[|]|[|]| |[|] mb eb];
    try discriminate; try reflexivity.
  intros _ _. unfold SF64mul, SFmul. cbn [xorb].
  generalize (binary_round_aux_sign false (Zpos (ma * mb)) (ea + eb) loc_Exact).
  destruct (binary_round_aux _ _ _ _ _ _) as [s|s| |s m e]; intros; subst;
    reflexivity.
Qed.

(** ** Literals *)

(** The literals of the engine denote the expected numbers. *)
Lemma literal_1 : literal 1 = 1.
Proof. reflexivity. Qed.

Lemma literal_100 : literal 100 = 100.
Proof. reflexivity. Qed.

Example literal_rates :
  map literal [0.2%Q; 0.3%Q; 0.4%Q; 0.5%Q; 0.6%Q; 0.7%Q] = drRates.
Proof. reflexivity. Qed.

Example unit_values :
  map unit_value [MILLIONS; THOUSANDS; ONES] = [1000000; 1000; 1].
Proof. reflexivity. Qed.

(** ** The formulas of [results] *)

(** C1. For every input state, in every arithmetic, [results] returns the
    seven derived fields given by the formulas of the data model, each
    from the fields before it: the exit value is revenue times its unit
    times the multiple; the power factor is [(1 + rate / 100)] to the
    power of the years; the valuation today is the exit value over the
    power factor; the pre-money valuation is the valuation minus the
    investment times its unit; the ownership is that investment over the
    valuation; the return multiple is exit value times ownership over the
    investment; the profit is exit value times ownership minus the
    investment. Each unit scale occurs once, on its own amount. *)
Theorem results_formulas {num : Type} {arith : Arith num} (s : VCMState num) :
  let r := results s in
  (exitValue r = (ricaviY5 s * ricaviUnita s) * multiplo s
   /\ powerFactor r = Math_pow (lit 1 + discountRate s / lit 100) (anni s)
   /\ valuationToday r = exitValue r / powerFactor r
   /\ preMoneyVal r = valuationToday r - investimento s * investUnita s
   /\ vcOwnership r = (investimento s * investUnita s) / valuationToday r
   /\ roiAtteso r = (exitValue r * vcOwnership r) / (investimento s * investUnita s)
   /\ profitto r = (exitValue r * vcOwnership r) - investimento s * investUnita s)%num.
Proof. repeat split. Qed.

(** ** The sensitivity sweep *)

Lemma drRates_ascending : ascending drRates.
Proof. unfold ascending, drRates. repeat constructor. Qed.

(** The labels of the six rates. *)
Lemma percent_labels :
  map (fun dr => toFixed (dr * 100) 0) drRates
  = map Normal ["20"; "30"; "40"; "50"; "60"; "70"]%string.
Proof. vm_compute. reflexivity. Qed.

(** The sweep, written out. *)
Lemma sensitivityData_eq (pow_approx : float -> float -> float)
    (s : VCMState float) :
  let exitValue := (ricaviY5 s * ricaviUnita s) * multiplo s in
  let point label r :=
    {| dr := label;
       valuation := (exitValue / pow pow_approx (1 + r) (anni s)) / 1000000 |} in
  sensitivityData pow_approx s
  = Normal [point "20%"%string 0.2; point "30%"%string 0.3;
            point "40%"%string 0.4; point "50%"%string 0.5;
            point "60%"%string 0.6; point "70%"%string 0.7].
Proof.
  pose proof percent_labels as L. unfold drRates in L. cbn [map] in L.
  unfold sensitivityData, drRates. cbn [Array_map].
  repeat match type of L with
         | ?a :: _ = ?b :: _ =>
             let E := fresh in let L' := fresh in
             assert (E : a = b) by (injection L; auto);
             assert (L' := f_equal (@tl _) L); cbn [tl] in L';
             rewrite E; clear E L; rename L' into L
         end.
  reflexivity.
Qed.

(** C2. For every input state, [sensitivityData] returns six points, one
    per rate of the grid 0.2, ..., 0.7 in that (ascending) order; the
    valuation of the point for rate [r] is the exit value (revenue times
    unit times multiple) over [(1 + r)] to the power of the years, over
    1,000,000, with no rounding step of its own; its label is the rate as
    a whole-number percentage, "20%" to "70%". *)
Theorem sensitivityData_points (pow_approx : float -> float -> float)
    (s : VCMState float) :
  let exitValue := (ricaviY5 s * ricaviUnita s) * multiplo s in
  let point label r :=
    {| dr := label;
       valuation := (exitValue / pow pow_approx (1 + r) (anni s)) / 1000000 |} in
  sensitivityData pow_approx s
  = Normal [point "20%"%string 0.2; point "30%"%string 0.3;
            point "40%"%string 0.4; point "50%"%string 0.5;
            point "60%"%string 0.6; point "70%"%string 0.7]
  /\ map (fun r => toFixed (r * 100) 0) drRates
     = map Normal ["20"; "30"; "40"; "50"; "60"; "70"]%string
  /\ ascending drRates.
Proof.
  split; [apply sensitivityData_eq|].
  split; [exact percent_labels|exact drRates_ascending].
Qed.

(** A rate of the grid is recovered from its percentage. *)
Lemma rate_of_percent (r : float) :
  In r drRates -> (100 * r) / 100 = r.
Proof.
  unfold drRates. cbn [In].
  intros [<-|[<-|[<-|[<-|[<-|[<-|[]]]]]]]; reflexivity.
Qed.

Example percents_of_rates :
  map (fun r => 100 * r) drRates = [20; 30; 40; 50; 60; 70].
Proof. reflexivity. Qed.

(** C3. For every input state whose discount rate is 100 times a rate [r]
    of the grid, the point of the sweep at the position of [r] has for
    valuation the [valuationToday] of [results] over 1,000,000 (the two
    agree exactly, hence within any tolerance). The sweep has as many
    points as the grid and is in the order of the grid, which is
    ascending: the point at each position is the one of the rate at
    that position, labelled with that rate as a percentage, so that the
    labels read "20%" to "70%". *)
Theorem sensitivity_agrees_with_results (pow_approx : float -> float -> float)
    (s : VCMState float) (i : nat) (r : float) :
  nth_error drRates i = Some r ->
  discountRate s = 100 * r ->
  exists points p,
    sensitivityData pow_approx s = Normal points
    /\ length points = length drRates
    /\ nth_error points i = Some p
    /\ valuation p
       = valuationToday (results (arith := JSNumber pow_approx) s) / 1000000
    /\ (forall j rj, nth_error drRates j = Some rj ->
        exists pj,
          nth_error points j = Some pj
          /\ Normal (dr pj) = (label <- toFixed (rj * 100) 0 ;; Normal (label ++ "%")%string)
          /\ valuation pj
             = (exitValue (results (arith := JSNumber pow_approx) s)
                / pow pow_approx (1 + rj) (anni s)) / 1000000)
    /\ map (@dr float) points = ["20%"; "30%"; "40%"; "50%"; "60%"; "70%"]%string
    /\ ascending drRates.
Proof.
  intros Hi Hd.
  pose proof (sensitivityData_eq pow_approx s) as E.
  pose proof drRates_ascending as A.
  cbv zeta in E. eexists.
  assert (Hr : discountRate s / 100 = r).
  { rewrite Hd. apply rate_of_percent. eapply nth_error_In, Hi. }
  assert (G : forall j rj, nth_error drRates j = Some rj ->
          exists pj,
            nth_error
              [ {| dr := "20%"%string; valuation := ricaviY5 s * ricaviUnita s * multiplo s
                     / pow pow_approx (1 + 0.2) (anni s) / 1000000 |};
                {| dr := "30%"%string; valuation := ricaviY5 s * ricaviUnita s * multiplo s
                     / pow pow_approx (1 + 0.3) (anni s) / 1000000 |};
                {| dr := "40%"%string; valuation := ricaviY5 s * ricaviUnita s * multiplo s
                     / pow pow_approx (1 + 0.4) (anni s) / 1000000 |};
                {| dr := "50%"%string; valuation := ricaviY5 s * ricaviUnita s * multiplo s
                     / pow pow_approx (1 + 0.5) (anni s) / 1000000 |};
                {| dr := "60%"%string; valuation := ricaviY5 s * ricaviUnita s * multiplo s
                     / pow pow_approx (1 + 0.6) (anni s) / 1000000 |};
                {| dr := "70%"%string; valuation := ricaviY5 s * ricaviUnita s * multiplo s
                     / pow pow_approx (1 + 0.7) (anni s) / 1000000 |} ] j = Some pj
            /\ Normal (dr pj) = (label <- toFixed (rj * 100) 0 ;; Normal (label ++ "%")%string)
            /\ valuation pj
               = (exitValue (results (arith := JSNumber pow_approx) s)
                  / pow pow_approx (1 + rj) (anni s)) / 1000000).
  { intros j rj Hj. unfold drRates in Hj.
    do 6 (destruct j as [|j];
          [injection Hj as <-; eexists; split; [reflexivity|];
           split; [vm_compute; reflexivity|reflexivity]|]).
    destruct j; discriminate. }
  unfold drRates in Hi.
  do 6 (destruct i as [|i]; [injection Hi as <-; eexists; split; [exact E|];
        repeat split; try exact A; try exact G;
        cbn [valuation results valuationToday Math_pow JSNumber mul div add lit];
        rewrite literal_100, literal_1, Hr; reflexivity|]); cbn [nth_error] in Hi.
  destruct i; discriminate.
Qed.

(** ** Totality and boundary inputs *)

Lemma useMemo_returns {A : Type} (cell : option (memo A))
    (compute : unit -> completion A) (dep : nat) :
  (exists v, compute tt = Normal v) ->
  exists v, fst (useMemo cell compute dep) = Normal v.
Proof.
  intros [v Hv]. unfold useMemo. rewrite Hv.
  destruct cell as [m|]; [destruct (Nat.eqb _ _)|]; cbn; eauto.
Qed.

(** C7. [results] and [sensitivityData] are total: for every input state
    the sweep returns normally (its only operation that can throw,
    [toFixed], is called within its range), and so does a render of the
    component in any condition; a division by zero in [results] shows as
    an infinity or NaN in the field it computes: [valuationToday] when
    the power factor is zero, [vcOwnership] when the valuation is zero,
    [roiAtteso] when the investment is zero. *)
Theorem engine_total (pow_approx : float -> float -> float)
    (s : VCMState float) (c : component) :
  let r := results (arith := JSNumber pow_approx) s in
  (exists points, sensitivityData pow_approx s = Normal points)
  /\ (exists r' points', fst (render pow_approx c) = (Normal r', Normal points'))
  /\ (is_zero (powerFactor r) = true -> is_finite (valuationToday r) = false)
  /\ (is_zero (valuationToday r) = true -> is_finite (vcOwnership r) = false)
  /\ (is_zero (investimento s * investUnita s) = true ->
      is_finite (roiAtteso r) = false).
Proof.
  assert (T : forall s', exists points, sensitivityData pow_approx s' = Normal points).
  { intros s'. eexists. apply sensitivityData_eq. }
  cbv zeta. split; [apply T|]. split.
  - unfold render.
    destruct (useMemo_returns (results_memo c)
                (fun _ => Normal (results (arith := JSNumber pow_approx) (state c)))
                (state_id c)) as [r' Hr]; [eauto|].
    destruct (useMemo_returns (sensitivity_memo c)
                (fun _ => sensitivityData pow_approx (state c))
                (state_id c) (T _)) as [p' Hp].
    destruct (useMemo (results_memo c) _ _) as [x rm].
    destruct (useMemo (sensitivity_memo c) _ _) as [y sm].
    cbn [fst] in *. subst. eauto.
  - repeat split; intros Z; apply div_by_zero; exact Z.
Qed.

(** C8, as amended. For every input state with a zero investment amount,
    the return multiple is NaN and, when the investment unit is finite,
    the ownership is a zero unless the valuation today is zero or NaN, in
    which case it is NaN. For every input state with zero years to exit,
    the power factor is 1 and the valuation today is the exit value. *)
Theorem boundary_inputs (pow_approx : float -> float -> float)
    (s : VCMState float) :
  let r := results (arith := JSNumber pow_approx) s in
  (is_zero (investimento s) = true ->
     is_nan (roiAtteso r) = true
     /\ (is_finite (investUnita s) = true ->
         if is_nan (valuationToday r) || is_zero (valuationToday r)
         then is_nan (vcOwnership r) = true
         else is_zero (vcOwnership r) = true))
  /\ (is_zero (anni s) = true ->
      powerFactor r = 1 /\ valuationToday r = exitValue r).
Proof.
  cbv zeta. split.
  - intros Z. split.
    + apply roi_of_no_investment, Z.
    + intros F. apply ownership_of_no_investment; assumption.
  - intros Z.
    assert (P : powerFactor (results (arith := JSNumber pow_approx) s) = 1)
      by (apply pow_zero_exponent, Z).
    split; [exact P|].
    change (valuationToday (results (arith := JSNumber pow_approx) s))
      with (exitValue (results (arith := JSNumber pow_approx) s)
            / powerFactor (results (arith := JSNumber pow_approx) s)).
    rewrite P. apply div_one.
Qed.

(** ** The valuation against the exit value *)

(** C5, as amended. For every input state whose exit value is not
    negative and whose power factor is at least one, the two not both
    infinite, the valuation today is at most the exit value. For every
    input state whose revenue, revenue unit and multiple are not
    negative, the exit value is not negative or is NaN. *)
Theorem valuation_bounded (pow_approx : float -> float -> float)
    (s : VCMState float) :
  let r := results (arith := JSNumber pow_approx) s in
  ((0 <=? exitValue r) = true -> (1 <=? powerFactor r) = true ->
   is_infinity (exitValue r) && is_infinity (powerFactor r) = false ->
   (valuationToday r <=? exitValue r) = true)
  /\ ((0 <=? ricaviY5 s) = true -> (0 <=? ricaviUnita s) = true ->
      (0 <=? multiplo s) = true ->
      (0 <=? exitValue r) || is_nan (exitValue r) = true).
Proof.
  cbv zeta. split.
  - intros HE HP HI. apply div_le_self; assumption.
  - intros H1 H2 H3. cbn [results exitValue JSNumber mul].
    apply mul_nonneg; [|exact H3].
    apply mul_nonneg; [|exact H2]. rewrite H1. reflexivity.
Qed.

(** ** The memos *)

Section Memo.
Variable pow_approx : float -> float -> float.

(** A memo whose cell satisfies the invariant returns the value of the
    function on the current state, and keeps the invariant. *)
Lemma useMemo_spec {A : Type} (f : VCMState float -> completion A)
    (c : component) (cell : option (memo A)) :
  cell_ok f c cell ->
  fst (useMemo cell (fun _ => f (state c)) (state_id c)) = f (state c)
  /\ cell_ok f c (snd (useMemo cell (fun _ => f (state c)) (state_id c))).
Proof.
  intros OK. unfold useMemo.
  assert (Run : forall cell', cell_ok f c cell' ->
            fst (match f (state c) with
                 | Normal v => (Normal v, Some {| memo_deps := state_id c; memo_value := v |})
                 | Throw e => (Throw e, cell')
                 end) = f (state c)
            /\ cell_ok f c (snd (match f (state c) with
                 | Normal v => (Normal v, Some {| memo_deps := state_id c; memo_value := v |})
                 | Throw e => (Throw e, cell')
                 end))).
  { intros cell' OK'. destruct (f (state c)) as [v|e] eqn:E; cbn [fst snd].
    - split; [reflexivity|]. unfold cell_ok. cbn [memo_deps memo_value].
      rewrite E. split; [lia|reflexivity].
    - split; [reflexivity|exact OK']. }
  destruct cell as [m|]; [|apply Run; exact OK].
  destruct (Nat.eqb (memo_deps m) (state_id c)) eqn:D; [|apply Run; exact OK].
  apply Nat.eqb_eq in D. cbn [fst snd]. split; [|exact OK].
  destruct OK as [_ OK]. symmetry. apply OK, D.
Qed.

(** Under the invariant, a render returns the values of the two
    functions on the current state and keeps state and invariant. *)
Lemma render_spec (c : component) :
  memos_ok pow_approx c ->
  fst (render pow_approx c)
  = (Normal (results (arith := JSNumber pow_approx) (state c)),
     sensitivityData pow_approx (state c))
  /\ state (snd (render pow_approx c)) = state c
  /\ state_id (snd (render pow_approx c)) = state_id c
  /\ memos_ok pow_approx (snd (render pow_approx c)).
Proof.
  intros [R S]. unfold render.
  destruct (useMemo_spec _ c _ R) as [R1 R2].
  destruct (useMemo_spec _ c _ S) as [S1 S2].
  destruct (useMemo (results_memo c) _ _) as [r rm].
  destruct (useMemo (sensitivity_memo c) _ _) as [sd sm].
  cbn [fst snd] in *. subst r sd. repeat split; assumption.
Qed.

(** The invariant holds after the first render and after every event. *)
Lemma mount_ok : memos_ok pow_approx (mount pow_approx).
Proof. unfold mount. apply render_spec. split; exact I. Qed.

Lemma step_ok (c : component) (e : event) :
  memos_ok pow_approx c -> memos_ok pow_approx (step pow_approx c e).
Proof.
  intros OK. destruct e as [i|]; cbn [step]; apply render_spec; [|exact OK].
  unfold memos_ok, cell_ok in *.
  cbn [results_memo sensitivity_memo state_id state].
  destruct (results_memo c), (sensitivity_memo c);
    repeat split; try tauto; try lia; intros; lia.
Qed.

Lemma after_ok (history : list event) :
  memos_ok pow_approx (after pow_approx history).
Proof.
  unfold after. generalize mount_ok. generalize (mount pow_approx).
  induction history as [|e h IH]; intros c OK; cbn [fold_left].
  - exact OK.
  - apply IH, step_ok, OK.
Qed.

(** C6. [results] and [sensitivityData] are deterministic and keep no
    state of their own: after any two histories of input changes and
    renders that leave the same input state, a render returns the same
    results and the same sweep, namely the values of the two functions
    on that state, whatever the memo cells hold; and the render leaves
    the input state as it was. *)
Theorem outputs_depend_on_input_only (h1 h2 : list event) :
  state (after pow_approx h1) = state (after pow_approx h2) ->
  fst (render pow_approx (after pow_approx h1))
  = fst (render pow_approx (after pow_approx h2))
  /\ fst (render pow_approx (after pow_approx h1))
     = (Normal (results (arith := JSNumber pow_approx) (state (after pow_approx h1))),
        sensitivityData pow_approx (state (after pow_approx h1)))
  /\ state (snd (render pow_approx (after pow_approx h1)))
     = state (after pow_approx h1).
Proof.
  intros E.
  destruct (render_spec _ (after_ok h1)) as (O1 & S1 & _).
  destruct (render_spec _ (after_ok h2)) as (O2 & _).
  rewrite O1, O2, E. repeat split. rewrite S1, E. reflexivity.
Qed.
End Memo.

(** ** Decimal digits *)

Local Open Scope string_scope.
Local Open Scope float_scope.

(** The string of a concatenation of digits. *)
Lemma string_of_uint_app (d d' : Decimal.uint) :
  NilEmpty.string_of_uint (Decimal.app d d')
  = NilEmpty.string_of_uint d ++ NilEmpty.string_of_uint d'.
Proof.
  rewrite <- (of_list_to_list d). generalize (to_list d). clear d.
  intros l. induction l as [|x l IH].
  - cbn [of_list]. rewrite DecimalFacts.app_nil_l. reflexivity.
  - assert (E : Decimal.app (of_list (x :: l)) d'
                = of_list (x :: to_list (Decimal.app (of_list l) d'))).
    { apply to_list_inj. rewrite app_spec, !to_list_of_list, app_spec,
        to_list_of_list. reflexivity. }
    rewrite E. destruct x; cbn [of_list NilEmpty.string_of_uint];
      rewrite of_list_to_list, IH; reflexivity.
Qed.

(** Adding [n] to a number is [n] successors on its digits. *)
Lemma to_lu_add (x : N) (n : nat) :
  Unsigned.to_lu (x + N.of_nat n)
  = Nat.iter n Decimal.Little.succ (Unsigned.to_lu x).
Proof.
  induction n as [|n IH].
  - rewrite N.add_0_r. reflexivity.
  - rewrite Nat2N.inj_succ, N.add_succ_r, Unsigned.to_lu_succ, IH. reflexivity.
Qed.

(** A property of the ten digits holds of every number below ten. *)
Lemma digit_ind (P : Z -> Prop) :
  Forall P (map Z.of_nat (seq 0 10)) ->
  forall n : Z, (0 <= n < 10)%Z -> P n.
Proof.
  intros F n Hn. rewrite Forall_forall in F. apply F.
  replace n with (Z.of_nat (Z.to_nat n)) by lia.
  apply in_map, in_seq. lia.
Qed.

(** The digits of [10 * p + b] are the digits of [p] followed by [b]. *)
Lemma to_uint_tenfold_plus (p : positive) (b : N) :
  (b < 10)%N ->
  N.to_uint (10 * Npos p + b)
  = Decimal.app (Pos.to_uint p) (N.to_uint b).
Proof.
  intros Hb.
  assert (L : Unsigned.to_lu (10 * Npos p + b)
              = Decimal.revapp (N.to_uint b) (Unsigned.to_lu (Npos p))).
  { rewrite <- (N2Nat.id b) at 1.
    rewrite to_lu_add, Unsigned.to_ldec_tenfold.
    replace b with (Z.to_N (Z.of_N b)) by apply N2Z.id.
    apply (digit_ind (fun z =>
             Nat.iter (N.to_nat (Z.to_N z)) Decimal.Little.succ
               (Decimal.D0 (Unsigned.to_lu (N.pos p)))
             = Decimal.revapp (N.to_uint (Z.to_N z)) (Unsigned.to_lu (N.pos p))));
      [repeat constructor|lia]. }
  destruct (10 * Npos p + b)%N as [|q] eqn:Q; [lia|].
  cbn [N.to_uint Unsigned.to_lu] in *. unfold Pos.to_uint. rewrite L.
  unfold Decimal.app, Decimal.rev at 1.
  rewrite rev_rev.
  replace b with (Z.to_N (Z.of_N b)) by apply N2Z.id.
  apply (digit_ind (fun z =>
           Decimal.revapp
             (Decimal.revapp (N.to_uint (Z.to_N z)) (Pos.to_little_uint p))
             Decimal.Nil
           = Decimal.revapp (Pos.to_little_uint p) (N.to_uint (Z.to_N z))));
    [repeat constructor|lia].
Qed.

Lemma digits_tenfold_plus (a b : Z) :
  (0 < a)%Z -> (0 <= b < 10)%Z ->
  digits (10 * a + b) = digits a ++ digits b.
Proof.
  intros Ha Hb. unfold digits.
  destruct a as [|p|p]; try lia.
  replace (Z.to_N (10 * Zpos p + b)) with (10 * Npos p + Z.to_N b)%N by lia.
  rewrite to_uint_tenfold_plus by lia.
  cbn [Z.to_N N.to_uint].
  assert (N1 : forall d, d <> Decimal.Nil ->
                 NilZero.string_of_uint d = NilEmpty.string_of_uint d)
    by (intros [] ?; reflexivity || congruence).
  assert (N2 : forall n, N.to_uint n <> Decimal.Nil).
  { intros [|q]; [discriminate|apply Unsigned.to_uint_nonnil]. }
  rewrite (N1 (Pos.to_uint p)) by apply Unsigned.to_uint_nonnil.
  rewrite (N1 (N.to_uint (Z.to_N b))) by apply N2.
  rewrite <- string_of_uint_app. apply N1.
  intros E. apply (f_equal to_list) in E. rewrite app_spec in E.
  apply (f_equal (@List.length _)) in E. rewrite List.length_app in E.
  cbn [to_list List.length] in E.
  assert (N3 : to_list (N.to_uint (Z.to_N b)) <> nil).
  { intros E'. apply (N2 (Z.to_N b)), to_list_inj. exact E'. }
  destruct (to_list (N.to_uint (Z.to_N b))); [congruence|].
  cbn [List.length] in E. lia.
Qed.

(** ** Strings *)

Lemma length_append (a b : string) :
  String.length (a ++ b) = (String.length a + String.length b)%nat.
Proof. induction a as [|c a IH]; cbn; [reflexivity|rewrite IH; reflexivity]. Qed.

Lemma substring_all (b : string) : substring 0 (String.length b) b = b.
Proof. induction b as [|c b IH]; cbn; [reflexivity|rewrite IH; reflexivity]. Qed.

Lemma substring_app_l (a b : string) :
  substring 0 (String.length a) (a ++ b) = a.
Proof.
  induction a as [|c a IH]; cbn.
  - destruct b; reflexivity.
  - rewrite IH. reflexivity.
Qed.

Lemma substring_app_r (a b : string) :
  substring (String.length a) (String.length b) (a ++ b) = b.
Proof. induction a as [|c a IH]; cbn; [apply substring_all|exact IH]. Qed.

(** A number below ten has one digit; every number has at least one. *)
Lemma digits_single (b : Z) :
  (0 <= b < 10)%Z -> String.length (digits b) = 1%nat.
Proof.
  apply (digit_ind (fun b => String.length (digits b) = 1%nat)).
  repeat constructor.
Qed.

Lemma digits_nonempty (a : Z) : (1 <= String.length (digits a))%nat.
Proof.
  unfold digits. destruct (Z.to_N a) as [|p]; [cbn; lia|].
  cbn [N.to_uint]. generalize (Unsigned.to_uint_nonnil p).
  destruct (Pos.to_uint p); intros N; try congruence; cbn; lia.
Qed.

(** The scaled integer of [toFixed] is not negative. *)
Lemma nearest_integer_scaled_nonneg (x : float) (f : Z) :
  (0 <= f)%Z -> (0 <= nearest_integer_scaled x f)%Z.
Proof.
  intros Hf. unfold nearest_integer_scaled.
  destruct (Prim2SF x) as [| | |s m e]; try lia.
  assert (A : (0 <= Zpos m * 10 ^ f)%Z) by (apply Z.mul_nonneg_nonneg; lia).
  destruct (0 <=? e)%Z eqn:E.
  - apply Z.mul_nonneg_nonneg; [exact A|]. apply Z.pow_nonneg. lia.
  - apply Z.leb_gt in E. apply Z.div_pos.
    + assert (0 < 2 ^ (- e))%Z by (apply Z.pow_pos_nonneg; lia). lia.
    + apply Z.pow_pos_nonneg; lia.
Qed.

(** The string that [toFixed] builds from the digits of [n] for one
    fractional digit. *)
Lemma one_fraction_digit (n : Z) :
  (0 <= n)%Z ->
  (let m := digits n in
   let k := Z.of_nat (String.length m) in
   let m := if (k <=? 1)%Z then zeros (1 + 1 - k) ++ m else m in
   let k := Z.of_nat (String.length m) in
   take (k - 1) m ++ "." ++ drop (k - 1) m)
  = digits (n / 10) ++ "." ++ digits (n mod 10).
Proof.
  intros Hn. cbv zeta.
  destruct (Z_lt_le_dec n 10) as [Small|Large].
  - revert n Hn Small.
    assert (D : forall n, (0 <= n < 10)%Z ->
              (let m := digits n in
               let k := Z.of_nat (String.length m) in
               let m := if (k <=? 1)%Z then zeros (1 + 1 - k) ++ m else m in
               let k := Z.of_nat (String.length m) in
               take (k - 1) m ++ "." ++ drop (k - 1) m)
              = "0" ++ "." ++ digits n)
      by (apply digit_ind; repeat constructor).
    intros n Hn Small. 
    rewrite (Z.div_small n 10), (Z.mod_small n 10) by lia.
    apply D. lia.
  - assert (D : digits n = digits (n / 10) ++ digits (n mod 10)).
    { rewrite <- digits_tenfold_plus.
      - f_equal. rewrite <- Z.div_mod; lia.
      - apply Z.div_str_pos. lia.
      - apply Z.mod_pos_bound. lia. }
    pose proof (digits_nonempty (n / 10)) as A.
    pose proof (digits_single (n mod 10) (Z.mod_pos_bound n 10 eq_refl)) as B.
    rewrite D. set (a := digits (n / 10)) in *. set (b := digits (n mod 10)) in *.
    rewrite length_append, B.
    replace (Z.of_nat (String.length a + 1) <=? 1)%Z with false
      by (symmetry; apply Z.leb_gt; lia).
    rewrite length_append, B. unfold take, drop.
    replace (Z.to_nat (Z.of_nat (String.length a + 1) - 1)) with (String.length a) by lia.
    rewrite length_append, B.
    replace (String.length a + 1 - String.length a)%nat with (String.length b) by lia.
    rewrite substring_app_l, substring_app_r. reflexivity.
Qed.

(** [toFixed] with one and with no fractional digit, on a finite number
    below 10^21 in magnitude, against the two notations of the
    specification. *)
Lemma toFixed_one_decimal (x : float) :
  is_finite x = true -> (1e21 <=? abs x) = false ->
  toFixed x 1 = Normal (one_decimal x).
Proof.
  intros F B. unfold toFixed, one_decimal.
  cbn [Z.ltb Z.compare orb Z.eqb]. rewrite F, B. cbn [negb].
  rewrite one_fraction_digit by (apply nearest_integer_scaled_nonneg; lia).
  reflexivity.
Qed.

Lemma toFixed_no_decimals (x : float) :
  is_finite x = true -> (1e21 <=? abs x) = false ->
  toFixed x 0 = Normal (no_decimals x).
Proof.
  intros F B. unfold toFixed, no_decimals.
  cbn [Z.ltb Z.compare orb Z.eqb]. rewrite F, B. reflexivity.
Qed.

(** A magnitude below a number is finite, unless it is NaN. *)
Lemma below_is_finite (c v : float) :
  is_nan c = false -> (c <=? abs v) = false -> is_nan v = false ->
  is_finite v = true.
Proof.
  rewrite !is_nan_spec, is_finite_spec, leb_spec, abs_spec.
  destruct (Prim2SF c) as [[|]|[|]| |[|] ? ?];
    destruct (Prim2SF v) as [[|]|[|]| |[|] ? ?]; cbn; intros;
    try discriminate; reflexivity.
Qed.

(** A number whose magnitude is at most a finite magnitude is finite. *)
Lemma finite_of_le (a b : float) :
  (abs a <=? abs b) = true -> is_finite b = true -> is_finite a = true.
Proof.
  rewrite !is_finite_spec, leb_spec, !abs_spec.
  destruct (Prim2SF a) as [[|]|[|]| |[|] ? ?];
    destruct (Prim2SF b) as [[|]|[|]| |[|] ? ?]; cbn; intros;
    try discriminate; reflexivity.
Qed.

(** A magnitude that a smaller threshold does not reach is not reached by
    a larger one either. *)
Lemma below_threshold (c c' a b : float) :
  (c <=? c') = true -> (a <=? b) = true ->
  (c <=? b) = false -> (c' <=? a) = false.
Proof.
  intros C A B. destruct (c' <=? a) eqn:H; [|reflexivity].
  rewrite <- B. symmetry.
  apply leb_trans with c'; [exact C|]. apply leb_trans with a; assumption.
Qed.

(** A magnitude is at most itself. *)
Lemma leb_refl_abs (v : float) :
  is_nan v = false -> (abs v <=? abs v) = true.
Proof.
  rewrite is_nan_spec, leb_spec, abs_spec. unfold SFleb.
  rewrite SFcompare_refl.
  destruct (Prim2SF v); cbn; intros; try discriminate; reflexivity.
Qed.

(** The formatter on the amounts of the specification and around the two
    thresholds. *)
Lemma formatCurrency_examples :
  formatCurrency 1500000 = Normal "€1.5M"
  /\ formatCurrency 2500 = Normal "€2.5k"
  /\ formatCurrency 42 = Normal "€42"
  /\ formatCurrency 1000000 = Normal "€1.0M"
  /\ formatCurrency 999999 = Normal "€1000.0k"
  /\ formatCurrency 1000 = Normal "€1.0k"
  /\ formatCurrency 999 = Normal "€999".
Proof. vm_compute. repeat split. Qed.

(** C9, as amended. For every amount [v]: when [|v| >= 1,000,000] and
    [v / 1,000,000] is below 10^21 in magnitude, the formatter renders
    [v / 1,000,000] with one decimal place and the suffix "M";
    when [1,000 <= |v| < 1,000,000], it renders [v / 1,000] with one
    decimal place and the suffix "k"; when [|v| < 1,000], it renders [v]
    as an integer with no decimal place. So 1,500,000 gives "1.5M", 2,500
    gives "2.5k" and 42 gives "42"; the comparisons are at exactly 1,000
    and 1,000,000 (1,000,000 gives "1.0M" and 999,999 "1000.0k"; 1,000
    gives "1.0k" and 999 "999"). *)
Theorem formatCurrency_rendering (v : float) :
  ((1000000 <=? abs v) = true -> (1e21 <=? abs (v / 1000000)) = false ->
   formatCurrency v = Normal ("€" ++ one_decimal (v / 1000000) ++ "M"))
  /\ ((1000000 <=? abs v) = false -> (1000 <=? abs v) = true ->
      formatCurrency v = Normal ("€" ++ one_decimal (v / 1000) ++ "k"))
  /\ ((1000 <=? abs v) = false -> is_nan v = false ->
      formatCurrency v = Normal ("€" ++ no_decimals v))
  /\ formatCurrency 1500000 = Normal "€1.5M"
  /\ formatCurrency 2500 = Normal "€2.5k"
  /\ formatCurrency 42 = Normal "€42"
  /\ formatCurrency 1000000 = Normal "€1.0M"
  /\ formatCurrency 999999 = Normal "€1000.0k"
  /\ formatCurrency 1000 = Normal "€1.0k"
  /\ formatCurrency 999 = Normal "€999".
Proof.
  split; [|split; [|split; [|exact formatCurrency_examples]]];
    unfold formatCurrency; cbv zeta.
  - intros M B.
    assert (F : is_finite v = true).
    { revert M B. rewrite is_finite_spec, !leb_spec, !abs_spec, div_spec.
      change (Prim2SF 1000000) with (S754_finite false 8589934592000000 (-33)).
      change (Prim2SF 1e21) with (S754_finite false 7629394531250000 17).
      destruct (Prim2SF v) as [[|]|[|]| |[|] ? ?]; try reflexivity;
        cbn; intros; discriminate. }
    rewrite M, toFixed_one_decimal; [reflexivity| |exact B].
    apply finite_of_le with v; [|exact F]. apply abs_div_le; [exact F|reflexivity].
  - intros M K.
    assert (N : is_nan v = false).
    { revert K. rewrite is_nan_spec, leb_spec, abs_spec.
      destruct (Prim2SF v); cbn; intros; try discriminate; reflexivity. }
    assert (F : is_finite v = true) by (apply (below_is_finite 1000000); auto).
    assert (D : (abs (v / 1000) <=? abs v) = true)
      by (apply abs_div_le; [exact F|reflexivity]).
    rewrite M, K, toFixed_one_decimal; [reflexivity| |].
    + apply finite_of_le with v; assumption.
    + apply (below_threshold 1000000 1e21 _ (abs v)); [reflexivity|exact D|exact M].
  - intros K N.
    assert (F : is_finite v = true) by (apply (below_is_finite 1000); auto).
    assert (M : (1000000 <=? abs v) = false).
    { apply (below_threshold 1000 1000000 _ (abs v));
        [reflexivity|apply leb_refl_abs, N|exact K]. }
    assert (B : (1e21 <=? abs v) = false).
    { apply (below_threshold 1000 1e21 _ (abs v));
        [reflexivity|apply leb_refl_abs, N|exact K]. }
    rewrite M, K, toFixed_no_decimals by assumption. reflexivity.
Qed.

(** ** The claims on concrete inputs *)

(** Two adjacent rates give the same sum [1 + rate / 100], hence the
    same results, whatever [Math.pow] computes. *)
Lemma adjacent_rates_same_results (pow_approx : float -> float -> float) :
  results (arith := JSNumber pow_approx)
    (handleInputChange (set_discountRate (next_up 20)) initialState)
  = results (arith := JSNumber pow_approx)
      (handleInputChange (set_discountRate 20) initialState).
Proof. vm_compute. reflexivity. Qed.

(** C5 fails as stated: with a negative revenue the power factor is at
    least one and the valuation today is above the exit value; with an
    exit value and a power factor that both overflow to infinity the
    valuation today is NaN; and a revenue that overflows in its unit, with
    a zero multiple, gives an exit value that is NaN, while revenue, unit
    and multiple are not negative. *)
Lemma valuation_above_exit_value :
  let r := results (arith := JSNumber pow_integral) negative_revenue in
  let r' := results (arith := JSNumber pow_integral) both_infinite in
  let r'' := results (arith := JSNumber pow_integral) overflowing in
  (1 <=? powerFactor r) = true
  /\ (valuationToday r <=? exitValue r) = false
  /\ (1 <=? powerFactor r') = true
  /\ (valuationToday r' <=? exitValue r') = false
  /\ (0 <=? ricaviY5 overflowing) = true
  /\ (0 <=? ricaviUnita overflowing) = true
  /\ (0 <=? multiplo overflowing) = true
  /\ (0 <=? exitValue r'') = false.
Proof. vm_compute. repeat split. Qed.

(** C5, as amended, on the initial state. *)
Lemma valuation_bounded_witness :
  let r := results (arith := JSNumber pow_integral) initialState in
  (valuationToday r <=? exitValue r) = true
  /\ (0 <=? exitValue r) || is_nan (exitValue r) = true.
Proof.
  destruct (valuation_bounded pow_integral initialState) as [V E].
  exact (conj (V eq_refl eq_refl eq_refl) (E eq_refl eq_refl eq_refl)).
Defined.

(** C3 on the initial state at a rate of 40%, the third of the grid. *)
Lemma sensitivity_agrees_with_results_witness :
  let s := handleInputChange (set_discountRate 40) initialState in
  exists points p,
    sensitivityData pow_integral s = Normal points
    /\ length points = length drRates
    /\ nth_error points 2 = Some p
    /\ valuation p
       = valuationToday (results (arith := JSNumber pow_integral) s) / 1000000
    /\ (forall j rj, nth_error drRates j = Some rj ->
        exists pj,
          nth_error points j = Some pj
          /\ Normal (dr pj) = (label <- toFixed (rj * 100) 0 ;; Normal (label ++ "%")%string)
          /\ valuation pj
             = (exitValue (results (arith := JSNumber pow_integral) s)
                / pow pow_integral (1 + rj) (anni s)) / 1000000)
    /\ map (@dr float) points = ["20%"; "30%"; "40%"; "50%"; "60%"; "70%"]%string
    /\ ascending drRates.
Proof.
  exact (sensitivity_agrees_with_results pow_integral
           (handleInputChange (set_discountRate 40) initialState) 2 0.4
           eq_refl eq_refl).
Defined.

(** C6 on two histories that end with seven years to exit. *)
Lemma outputs_depend_on_input_only_witness :
  let h1 := [change (set_anni 7)] in
  let h2 := [rerender; change (set_anni 3); change (set_anni 7)] in
  fst (render pow_integral (after pow_integral h1))
  = fst (render pow_integral (after pow_integral h2))
  /\ fst (render pow_integral (after pow_integral h1))
     = (Normal (results (arith := JSNumber pow_integral)
                  (state (after pow_integral h1))),
        sensitivityData pow_integral (state (after pow_integral h1)))
  /\ state (snd (render pow_integral (after pow_integral h1)))
     = state (after pow_integral h1).
Proof.
  apply (outputs_depend_on_input_only pow_integral
           [change (set_anni 7)]
           [rerender; change (set_anni 3); change (set_anni 7)]).
  vm_compute. reflexivity.
Defined.

(** C7 on three degenerate states: a zero power factor, a zero valuation
    and a zero investment. *)
Lemma engine_total_witness :
  (exists points, sensitivityData pow_integral total_loss = Normal points)
  /\ is_finite (valuationToday (results (arith := JSNumber pow_integral) total_loss))
     = false
  /\ is_finite (vcOwnership (results (arith := JSNumber pow_integral) no_revenue))
     = false
  /\ is_finite (roiAtteso (results (arith := JSNumber pow_integral) nothing_invested))
     = false.
Proof.
  destruct (engine_total pow_integral total_loss (mount pow_integral))
    as (T & _ & P & _).
  destruct (engine_total pow_integral no_revenue (mount pow_integral))
    as (_ & _ & _ & V & _).
  destruct (engine_total pow_integral nothing_invested (mount pow_integral))
    as (_ & _ & _ & _ & I).
  split; [exact T|].
  split; [apply P; reflexivity|].
  split; [apply V; reflexivity|apply I; reflexivity].
Defined.

(** C8 fails as stated: with nothing invested and no revenue, the
    ownership is [0 / 0], which is NaN and not zero. *)
Lemma ownership_not_zero :
  let r := results (arith := JSNumber pow_integral) nothing_invested in
  is_zero (investimento nothing_invested) = true
  /\ is_zero (vcOwnership r) = false
  /\ is_nan (vcOwnership r) = true.
Proof. vm_compute. repeat split. Qed.

(** C8, as amended, on a state with no investment and no years to
    exit. *)
Lemma boundary_inputs_witness :
  let r := results (arith := JSNumber pow_integral) immediate_exit in
  is_nan (roiAtteso r) = true
  /\ is_zero (vcOwnership r) = true
  /\ powerFactor r = 1
  /\ valuationToday r = exitValue r.
Proof.
  destruct (boundary_inputs pow_integral immediate_exit) as [I Y].
  destruct (I eq_refl) as [R O]. destruct (Y eq_refl) as [P V].
  exact (conj R (conj (O eq_refl) (conj P V))).
Defined.

(** C9 fails as stated: NaN and infinity are rendered by name, and an
    amount of 10^27 in exponent notation, none with one decimal place. *)
Lemma formatCurrency_special_values :
  formatCurrency nan = Normal "€NaN"
  /\ formatCurrency infinity = Normal "€InfinityM"
  /\ formatCurrency 1e27 = Normal "€1e+21M".
Proof. vm_compute. repeat split. Qed.

(** C9, as amended, on an amount of each range. *)
Lemma formatCurrency_rendering_witness :
  formatCurrency 1234567 = Normal ("€" ++ one_decimal (1234567 / 1000000) ++ "M")
  /\ formatCurrency 12345 = Normal ("€" ++ one_decimal (12345 / 1000) ++ "k")
  /\ formatCurrency 123 = Normal ("€" ++ no_decimals 123).
Proof.
  destruct (formatCurrency_rendering 1234567) as (M & _).
  destruct (formatCurrency_rendering 12345) as (_ & K & _).
  destruct (formatCurrency_rendering 123) as (_ & _ & U & _).
  exact (conj (M eq_refl eq_refl)
           (conj (K eq_refl eq_refl) (U eq_refl eq_refl))).
Defined.

(** * Around the engine: inputs, theme, memos and cards *)

(** ** Input changes *)

(** X1. Two calls of [handleInputChange] compose as assignments do: when
    they name the same field the later one wins, and when they name
    different fields their order does not matter. *)
Theorem handleInputChange_compose (i j : input) (s : VCMState float) :
  (field i = field j ->
   handleInputChange j (handleInputChange i s) = handleInputChange j s)
  /\ (field i <> field j ->
      handleInputChange j (handleInputChange i s)
      = handleInputChange i (handleInputChange j s)).
Proof.
  destruct s; split; intros H; destruct i, j; cbn in *;
    try reflexivity; try discriminate H; try (exfalso; apply H; reflexivity).
Qed.

(** X1 on the initial state: the years set twice, and the years and the
    multiple set in either order. *)
Lemma handleInputChange_compose_witness :
  handleInputChange (set_anni 7) (handleInputChange (set_anni 3) initialState)
  = handleInputChange (set_anni 7) initialState
  /\ handleInputChange (set_multiplo 8) (handleInputChange (set_anni 3) initialState)
     = handleInputChange (set_anni 3) (handleInputChange (set_multiplo 8) initialState).
Proof.
  exact (conj
           (proj1 (handleInputChange_compose (set_anni 3) (set_anni 7) initialState)
              eq_refl)
           (proj2 (handleInputChange_compose (set_anni 3) (set_multiplo 8) initialState)
              ltac:(cbn; discriminate))).
Defined.

(** X2. After a click on a sector preset, that preset and no other is
    drawn as selected and the multiple is the preset's; the selection
    follows the sector name alone, so it stays when the multiple is then
    edited by hand; and the two updates of the click can be made in
    either order. After a click on a discount rate preset, that preset
    and no other is drawn as selected and the rate is the preset's; this
    selection follows the rate, so no preset is selected once the rate
    is moved to a value that no preset has. *)
Theorem preset_selection (s : VCMState float) (p : preset) :
  (In p sectors ->
   let s' := sector_onClick p s in
   filter (sector_selected s') sectors = [p]
   /\ multiplo s' = val p
   /\ (forall v,
         filter (sector_selected (handleInputChange (set_multiplo v) s')) sectors
         = [p])
   /\ s' = handleInputChange (set_multiplo (val p))
             (handleInputChange (set_settore (name p)) s))
  /\ (In p stages ->
      let s' := stage_onClick p s in
      filter (stage_selected s') stages = [p]
      /\ discountRate s' = val p
      /\ (forall v,
            forallb (fun q => negb (v =? val q)) stages = true ->
            filter (stage_selected (handleInputChange (set_discountRate v) s'))
                   stages
            = [])).
Proof.
  destruct s. split; intros H; cbn in H;
    repeat (destruct H as [H|H];
            [subst p; cbv zeta; repeat split;
             try (intros v Hv; cbn in Hv |- *;
                  destruct (v =? 55), (v =? 45), (v =? 35);
                  try discriminate Hv; reflexivity)|]);
    contradiction.
Qed.

(** X2 on the initial state, for the DeepTech and the Seed presets. *)
Lemma preset_selection_witness :
  filter (sector_selected
            (sector_onClick {| name := "DeepTech"; val := 8 |} initialState))
         sectors
  = [ {| name := "DeepTech"; val := 8 |} ]
  /\ filter (stage_selected
               (stage_onClick {| name := "Seed"; val := 55 |} initialState))
            stages
     = [ {| name := "Seed"; val := 55 |} ].
Proof.
  exact (conj
           (proj1 (proj1 (preset_selection initialState
                            {| name := "DeepTech"; val := 8 |})
                     (or_intror (or_introl eq_refl))))
           (proj1 (proj2 (preset_selection initialState
                            {| name := "Seed"; val := 55 |})
                     (or_introl eq_refl)))).
Defined.

(** X3. What the two memoised blocks do not read: a change of the sector
    label leaves [results] as it was, and a change of the discount rate,
    of the investment, of its unit or of the sector label leaves the
    sensitivity sweep as it was. *)
Theorem engine_reads (pow_approx : float -> float -> float)
    (s : VCMState float) (i : input) :
  (field i = "settore" ->
   results (arith := JSNumber pow_approx) (handleInputChange i s)
   = results (arith := JSNumber pow_approx) s)
  /\ (In (field i) ["discountRate"; "investimento"; "investUnita"; "settore"] ->
      sensitivityData pow_approx (handleInputChange i s)
      = sensitivityData pow_approx s).
Proof.
  destruct s. split; intros H.
  - destruct i; try discriminate H; reflexivity.
  - destruct i; cbn in H; try reflexivity;
      repeat (destruct H as [H|H]; [discriminate H|]); contradiction.
Qed.

(** X3 on the initial state: the sector set to Fintech, and the rate set
    to 60. *)
Lemma engine_reads_witness :
  results (arith := JSNumber pow_integral)
    (handleInputChange (set_settore "Fintech") initialState)
  = results (arith := JSNumber pow_integral) initialState
  /\ sensitivityData pow_integral
       (handleInputChange (set_discountRate 60) initialState)
     = sensitivityData pow_integral initialState.
Proof.
  exact (conj
           (proj1 (engine_reads pow_integral initialState (set_settore "Fintech"))
              eq_refl)
           (proj2 (engine_reads pow_integral initialState (set_discountRate 60))
              (or_introl eq_refl))).
Defined.

(** ** The theme *)

(** Reading an item of the storage after writing one. *)
Lemma getItem_setItem (st : Storage) (k v k' : string) :
  getItem (setItem st k v) k' = if String.eqb k k' then Some v else getItem st k'.
Proof.
  induction st as [|[a b] st IH]; cbn.
  - destruct (String.eqb k k'); reflexivity.
  - destruct (String.eqb a k) eqn:E; cbn.
    + apply String.eqb_eq in E. subst a. destruct (String.eqb k k'); reflexivity.
    + rewrite IH. destruct (String.eqb a k') eqn:E'; [|reflexivity].
      apply String.eqb_eq in E'. subst a. rewrite String.eqb_sym, E. reflexivity.
Qed.

(** The classes of the list after adding and after removing one. *)
Lemma classList_contains_add (l : list string) (t c : string) :
  classList_contains (classList_add l t) c
  = String.eqb c t || classList_contains l c.
Proof.
  unfold classList_add. destruct (classList_contains l t) eqn:E.
  - destruct (String.eqb c t) eqn:F; [|reflexivity].
    apply String.eqb_eq in F. subst. rewrite E. reflexivity.
  - unfold classList_contains. rewrite existsb_app. cbn.
    rewrite orb_false_r, orb_comm. reflexivity.
Qed.

Lemma classList_contains_remove (l : list string) (t c : string) :
  classList_contains (classList_remove l t) c
  = negb (String.eqb c t) && classList_contains l c.
Proof.
  unfold classList_contains, classList_remove. induction l as [|a l IH]; cbn.
  - rewrite andb_false_r. reflexivity.
  - destruct (String.eqb a t) eqn:E; cbn; rewrite IH.
    + apply String.eqb_eq in E. subst a.
      destruct (String.eqb c t); reflexivity.
    + destruct (String.eqb c a) eqn:F; cbn.
      * apply String.eqb_eq in F. subst a. rewrite E. reflexivity.
      * reflexivity.
Qed.

(** What the effect leaves in the browser. *)
Lemma darkMode_effect_spec (d : bool) (w : window) :
  initialDarkMode (Some (darkMode_effect d w)) = d
  /\ (forall c, classList_contains (classList (darkMode_effect d w)) c
                = if String.eqb c "dark" then d
                  else classList_contains (classList w) c)
  /\ (forall k, getItem (localStorage (darkMode_effect d w)) k
                = if String.eqb "darkMode" k then Some (Boolean_toString d)
                  else getItem (localStorage w) k).
Proof.
  split; [|split].
  - unfold initialDarkMode, darkMode_effect. cbn [localStorage].
    rewrite getItem_setItem. destruct d; reflexivity.
  - intros c. unfold darkMode_effect. cbn [classList]. destruct d.
    + rewrite classList_contains_add. destruct (String.eqb c "dark"); reflexivity.
    + rewrite classList_contains_remove.
      destruct (String.eqb c "dark"); reflexivity.
  - intros k. unfold darkMode_effect. cbn [localStorage]. apply getItem_setItem.
Qed.

(** X4. The theme survives a reload. Mount the component in any browser
    and click the theme button any number of times: the theme is the
    stored one (light when nothing or anything but "true" is stored)
    flipped once per click; a component mounted afresh in the browser as
    it is left starts with that theme; the root element has the class
    "dark" exactly in the dark theme and its other classes are
    untouched; the item "darkMode" holds the theme and the other items
    are untouched. *)
Theorem theme_persists (w : window) (clicks : nat) :
  let '(darkMode, w') := Nat.iter clicks theme_onClick (theme_mount w) in
  darkMode = xorb (initialDarkMode (Some w)) (Nat.odd clicks)
  /\ initialDarkMode (Some w') = darkMode
  /\ (forall token,
        classList_contains (classList w') token
        = if String.eqb token "dark" then darkMode
          else classList_contains (classList w) token)
  /\ (forall key,
        getItem (localStorage w') key
        = if String.eqb "darkMode" key then Some (Boolean_toString darkMode)
          else getItem (localStorage w) key).
Proof.
  induction clicks as [|n IH].
  - cbn [Nat.iter nat_rect]. unfold theme_mount. cbv zeta.
    destruct (darkMode_effect_spec (initialDarkMode (Some w)) w) as (A & B & C).
    cbn [Nat.odd Nat.even]. rewrite xorb_false_r. repeat split; assumption.
  - rewrite Nat.odd_succ, <- Nat.negb_odd. cbn [Nat.iter nat_rect].
    change (nat_rect _ _ _ n) with (Nat.iter n theme_onClick (theme_mount w)).
    destruct (Nat.iter n theme_onClick (theme_mount w)) as [d w'].
    destruct IH as (P & _ & B0 & C0). unfold theme_onClick. cbn [fst snd]. cbv zeta.
    destruct (darkMode_effect_spec (negb d) w') as (A & B & C).
    split; [subst d; apply negb_xorb_r|]. split; [exact A|]. split.
    + intros token. rewrite B, B0. destruct (String.eqb token "dark"); reflexivity.
    + intros key. rewrite C, C0. destruct (String.eqb "darkMode" key); reflexivity.
Qed.

(** ** The memo cells *)

Section Cells.
Variable pow_approx : float -> float -> float.

(** A memo whose function returns leaves the value for the current state
    object in its cell. *)
Lemma useMemo_current {A : Type} (f : VCMState float -> completion A)
    (c : component) (cell : option (memo A)) (v : A) :
  cell_ok f c cell -> f (state c) = Normal v ->
  snd (useMemo cell (fun _ => f (state c)) (state_id c))
  = Some {| memo_deps := state_id c; memo_value := v |}.
Proof.
  intros OK E. unfold useMemo. rewrite E.
  destruct cell as [[d w]|]; [|reflexivity].
  cbn [memo_deps memo_value]. destruct (Nat.eqb d (state_id c)) eqn:D; [|reflexivity].
  apply Nat.eqb_eq in D. subst d. destruct OK as [_ OK].
  cbn [memo_deps memo_value] in OK. specialize (OK eq_refl).
  rewrite E in OK. injection OK as ->. reflexivity.
Qed.

(** The component that a render leaves. *)
Lemma render_current (c : component) :
  memos_ok pow_approx c ->
  exists points,
    sensitivityData pow_approx (state c) = Normal points
    /\ snd (render pow_approx c)
       = {| state_id := state_id c; state := state c;
            results_memo :=
              Some {| memo_deps := state_id c;
                      memo_value := results (arith := JSNumber pow_approx) (state c) |};
            sensitivity_memo :=
              Some {| memo_deps := state_id c; memo_value := points |} |}.
Proof.
  intros [R S].
  pose proof (sensitivityData_eq pow_approx (state c)) as E.
  eexists. split; [exact E|].
  unfold render.
  pose proof (useMemo_current _ c _ _ R eq_refl) as R1.
  pose proof (useMemo_current _ c _ _ S E) as S1.
  destruct (useMemo (results_memo c) _ _) as [r rm].
  destruct (useMemo (sensitivity_memo c) _ _) as [sd sm].
  cbn [fst snd] in *. subst rm sm. reflexivity.
Qed.

Lemma after_snoc (h : list event) (e : event) :
  after pow_approx (h ++ [e]) = step pow_approx (after pow_approx h) e.
Proof. unfold after. rewrite fold_left_app. reflexivity. Qed.

(** What a step renders: the component with the new state object after
    a change, the component itself otherwise. *)
Lemma step_renders (c : component) (e : event) :
  memos_ok pow_approx c ->
  exists c', memos_ok pow_approx c'
    /\ step pow_approx c e = snd (render pow_approx c')
    /\ state_id c' = ((if is_change e then 1 else 0) + state_id c)%nat.
Proof.
  intros OK. destruct e as [i|]; cbn [step is_change].
  - eexists. split; [|split; reflexivity].
    unfold memos_ok, cell_ok in *. destruct OK as [R S].
    cbn [results_memo sensitivity_memo state_id state].
    destruct (results_memo c), (sensitivity_memo c);
      repeat split; try tauto; try lia; intros; lia.
  - exists c. auto.
Qed.

(** X5. The memos follow the state object. After any history of input
    changes and other renders, the state object is the one made by the
    last change (every change makes a new one, whether or not it changes
    a value), both memo cells hold the values of their functions for
    that object, and a render for another reason, such as a theme
    change, leaves the component as it is: nothing is computed again. *)
Theorem memos_follow_state (history : list event) :
  let c := after pow_approx history in
  state_id c = length (filter is_change history)
  /\ results_memo c
     = Some {| memo_deps := state_id c;
               memo_value := results (arith := JSNumber pow_approx) (state c) |}
  /\ (exists points,
        sensitivityData pow_approx (state c) = Normal points
        /\ sensitivity_memo c
           = Some {| memo_deps := state_id c; memo_value := points |})
  /\ step pow_approx c rerender = c.
Proof.
  cbv zeta.
  assert (G : exists c', memos_ok pow_approx c'
                /\ after pow_approx history = snd (render pow_approx c')
                /\ state_id c' = length (filter is_change history)).
  { induction history as [|e h IH] using rev_ind.
    - eexists. split; [|split; reflexivity]. split; exact I.
    - rewrite after_snoc.
      destruct (step_renders (after pow_approx h) e (after_ok _ h))
        as (c' & OK & E & Id).
      exists c'. split; [exact OK|]. split; [exact E|].
      rewrite Id, filter_app, length_app. destruct IH as (c0 & OK0 & E0 & Id0).
      rewrite <- Id0, E0.
      destruct (render_spec _ c0 OK0) as (_ & _ & -> & _).
      cbn [filter]. destruct (is_change e); cbn [length]; lia. }
  destruct G as (c' & OK & E & Id).
  destruct (render_current c' OK) as (points & P & C).
  assert (A : after pow_approx history
              = {| state_id := state_id c'; state := state c';
                   results_memo :=
                     Some {| memo_deps := state_id c';
                             memo_value :=
                               results (arith := JSNumber pow_approx) (state c') |};
                   sensitivity_memo :=
                     Some {| memo_deps := state_id c'; memo_value := points |} |})
    by (rewrite E; exact C).
  rewrite A. cbn [state_id state results_memo sensitivity_memo].
  split; [exact Id|]. split; [reflexivity|]. split; [eauto|].
  cbn [step]. rewrite <- A.
  destruct (render_current _ (after_ok pow_approx history)) as (points' & P' & C').
  rewrite C'. rewrite A. cbn [state_id state]. rewrite A in P'.
  cbn [state] in P'. rewrite P in P'. injection P' as <-. reflexivity.
Qed.
End Cells.

(** ** The order of the numbers and rounding from below

    The bounds of the claims compare a quotient with its dividend. The
    lemmas here compare a quotient with any number of the format, from
    above and from below, through the values of the numbers as scaled
    integers. *)

Local Open Scope Z_scope.

(** Powers of two. *)
Lemma pow2_pos (k : Z) : 0 <= k -> 0 < 2 ^ k.
Proof. intros. apply Z.pow_pos_nonneg; lia. Qed.

Lemma pow2_split (a b : Z) : 0 <= a -> 0 <= b -> 2 ^ (a + b) = 2 ^ a * 2 ^ b.
Proof. intros. apply Z.pow_add_r; assumption. Qed.

(** The mantissa of a number of the format has at most 53 digits, and
    exactly 53 above the smallest exponent. *)
Lemma bounded_digits (m : positive) (e : Z) :
  bounded prec emax m e = true ->
  Zpos m < 2 ^ 53 /\ -1074 <= e /\ (-1074 < e -> 2 ^ 52 <= Zpos m).
Proof.
  intros B. destruct (bounded_spec m e B) as [C _].
  pose proof (Zdigits2_bounds m) as [Lo Hi].
  set (d := Zdigits2 (Zpos m)) in *.
  assert (Hd : 0 < d) by (unfold d; cbn; lia).
  repeat split.
  - assert (2 ^ d <= 2 ^ 53) by (apply Z.pow_le_mono_r; lia). lia.
  - lia.
  - intros He. assert (d = 53) by lia. replace (d - 1) with 52 in Lo by lia. exact Lo.
Qed.

(** The order of two positive numbers of the format is the order of
    their values, brought to a common exponent [c]. *)
Lemma SFcompare_value (m1 m2 : positive) (e1 e2 c : Z) :
  bounded prec emax m1 e1 = true -> bounded prec emax m2 e2 = true ->
  c <= e1 -> c <= e2 ->
  SFcompare (S754_finite false m1 e1) (S754_finite false m2 e2)
  = Some (Zpos m1 * 2 ^ (e1 - c) ?= Zpos m2 * 2 ^ (e2 - c)).
Proof.
  intros B1 B2 H1 H2.
  destruct (bounded_digits m1 e1 B1) as (U1 & L1 & N1).
  destruct (bounded_digits m2 e2 B2) as (U2 & L2 & N2).
  unfold SFcompare.
  destruct (Z.compare_spec e1 e2) as [E|L|G].
  - subst e2. change (Pos.compare_cont Eq m1 m2) with (Zpos m1 ?= Zpos m2).
    f_equal. pose proof (pow2_pos (e1 - c) ltac:(lia)) as P.
    destruct (Z.compare_spec (Zpos m1) (Zpos m2));
      symmetry; [apply Z.compare_eq_iff|apply Z.compare_lt_iff|apply Z.compare_gt_iff]; nia.
  - f_equal. symmetry. apply Z.compare_lt_iff.
    specialize (N2 ltac:(lia)).
    replace (e2 - c) with ((e2 - e1 - 1) + 1 + (e1 - c)) by lia.
    rewrite !pow2_split by lia.
    pose proof (pow2_pos (e1 - c) ltac:(lia)) as P.
    pose proof (pow2_pos (e2 - e1 - 1) ltac:(lia)) as Q.
    change (2 ^ 1) with 2. change (2 ^ 53) with (2 * 2 ^ 52) in U1.
    revert U1 N2 P Q. generalize (2 ^ 52) (2 ^ (e1 - c)) (2 ^ (e2 - e1 - 1)).
    intros t p q U1 N2 P Q.
    assert (A : t * p <= Zpos m2 * p) by (apply Z.mul_le_mono_nonneg_r; lia).
    assert (B : Zpos m2 * p <= Zpos m2 * p * q).
    { rewrite <- (Z.mul_1_r (Zpos m2 * p)) at 1. apply Z.mul_le_mono_nonneg_l; nia. }
    replace (Zpos m2 * (q * 2 * p)) with (2 * (Zpos m2 * p * q)) by ring. nia.
  - f_equal. symmetry. apply Z.compare_gt_iff.
    specialize (N1 ltac:(lia)).
    replace (e1 - c) with ((e1 - e2 - 1) + 1 + (e2 - c)) by lia.
    rewrite !pow2_split by lia.
    pose proof (pow2_pos (e2 - c) ltac:(lia)) as P.
    pose proof (pow2_pos (e1 - e2 - 1) ltac:(lia)) as Q.
    change (2 ^ 1) with 2. change (2 ^ 53) with (2 * 2 ^ 52) in U2.
    revert U2 N1 P Q. generalize (2 ^ 52) (2 ^ (e2 - c)) (2 ^ (e1 - e2 - 1)).
    intros t p q U2 N1 P Q.
    assert (A : t * p <= Zpos m1 * p) by (apply Z.mul_le_mono_nonneg_r; lia).
    assert (B : Zpos m1 * p <= Zpos m1 * p * q).
    { rewrite <- (Z.mul_1_r (Zpos m1 * p)) at 1. apply Z.mul_le_mono_nonneg_l; nia. }
    replace (Zpos m1 * (q * 2 * p)) with (2 * (Zpos m1 * p * q)) by ring. nia.
Qed.

(** An inequality between scaled integers at one exponent holds at every
    smaller or larger common exponent. *)
Lemma scaled_le (a b ea eb c c' : Z) :
  c <= ea -> c <= eb -> c' <= ea -> c' <= eb ->
  a * 2 ^ (ea - c) <= b * 2 ^ (eb - c) ->
  a * 2 ^ (ea - c') <= b * 2 ^ (eb - c').
Proof.
  intros H1 H2 H3 H4 H.
  set (d := Z.min c c').
  assert (D : a * 2 ^ (ea - d) <= b * 2 ^ (eb - d)).
  { replace (ea - d) with ((ea - c) + (c - d)) by lia.
    replace (eb - d) with ((eb - c) + (c - d)) by lia.
    rewrite !pow2_split by lia.
    pose proof (pow2_pos (c - d) ltac:(lia)). nia. }
  replace (ea - d) with ((ea - c') + (c' - d)) in D by lia.
  replace (eb - d) with ((eb - c') + (c' - d)) in D by lia.
  rewrite !pow2_split in D by lia.
  pose proof (pow2_pos (c' - d) ltac:(lia)). nia.
Qed.

(** The digits of a scaled inequality: a value that is at most another
    has at most its magnitude. *)
Lemma digits_of_le (a b ea eb c : Z) :
  0 < a -> 0 < b -> c <= ea -> c <= eb ->
  a * 2 ^ (ea - c) <= b * 2 ^ (eb - c) ->
  Zdigits2 a + ea <= Zdigits2 b + eb.
Proof.
  intros Ha Hb H1 H2 H.
  destruct a as [|pa|pa]; try lia. destruct b as [|pb|pb]; try lia.
  pose proof (Zdigits2_bounds pa) as [La _].
  pose proof (Zdigits2_bounds pb) as [_ Ub].
  set (da := Zdigits2 (Zpos pa)) in *. set (db := Zdigits2 (Zpos pb)) in *.
  assert (0 < da) by (unfold da; cbn; lia).
  assert (0 < db) by (unfold db; cbn; lia).
  destruct (Z_le_gt_dec (da + ea) (db + eb)) as [|G]; [assumption|exfalso].
  assert (2 ^ (db + (eb - c)) <= 2 ^ (da - 1 + (ea - c)))
    by (apply Z.pow_le_mono_r; lia).
  rewrite !pow2_split in * by lia.
  pose proof (pow2_pos (ea - c) ltac:(lia)).
  pose proof (pow2_pos (eb - c) ltac:(lia)).
  nia.
Qed.

(** Rounding is monotone above a number of the format: a value of at
    least [m1 * 2 ^ e1] rounds to at least that number. *)
Lemma binary_round_aux_ge (q e' : Z) (l : location) (m1 : positive) (e1 c : Z) :
  bounded prec emax m1 e1 = true ->
  c <= e1 -> c <= e' ->
  Zpos m1 * 2 ^ (e1 - c) <= q * 2 ^ (e' - c) ->
  SFleb (S754_finite false m1 e1) (binary_round_aux prec emax false q e' l)
  = true.
Proof.
  intros B H1 H2 H. destruct (bounded_spec m1 e1 B) as [C E1].
  pose proof (pow2_pos (e1 - c) ltac:(lia)) as P1.
  pose proof (pow2_pos (e' - c) ltac:(lia)) as P2.
  assert (Hq : 0 < q) by nia.
  pose proof (digits_of_le (Zpos m1) q e1 e' c eq_refl Hq H1 H2 H) as D.
  set (d1 := Zdigits2 (Zpos m1)) in *.
  assert (Hd1 : 0 < d1) by (unfold d1; cbn; lia).
  unfold binary_round_aux.
  (* the first shift *)
  pose proof (shr_fexp_spec q e' l (Z.lt_le_incl _ _ Hq)) as S1. cbv zeta in S1.
  set (N1 := Z.max (Z.max (Zdigits2 q + e' - 53) (-1074) - e') 0) in *.
  destruct (shr_fexp prec emax q e' l) as [mrs1 ea].
  destruct S1 as (M1 & _ & ->).
  assert (Dq : 2 ^ (Zdigits2 q - 1) <= q)
    by (destruct q as [|pq|pq]; try lia; apply Zdigits2_bounds).
  assert (Hdq : 0 < Zdigits2 q) by (destruct q; cbn; lia).
  assert (HN1 : 0 <= N1 <= Zdigits2 q - 1) by (unfold N1; lia).
  assert (Hea : e1 <= e' + N1) by (unfold N1; lia).
  assert (Hqs : 1 <= shr_m mrs1).
  { rewrite M1. apply Z.div_le_lower_bound; [apply pow2_pos; lia|].
    assert (2 ^ N1 <= 2 ^ (Zdigits2 q - 1)) by (apply Z.pow_le_mono_r; lia). lia. }
  pose proof (round_nearest_even_spec mrs1) as R. cbv zeta in R.
  set (m3 := round_nearest_even (shr_m mrs1) (loc_of_shr_record mrs1)) in *.
  destruct R as [R1 _].
  assert (H3 : 1 <= m3) by lia.
  (* the second shift *)
  pose proof (shr_fexp_spec m3 (e' + N1) loc_Exact ltac:(lia)) as S2. cbv zeta in S2.
  set (N2 := Z.max (Z.max (Zdigits2 m3 + (e' + N1) - 53) (-1074) - (e' + N1)) 0) in *.
  destruct (shr_fexp prec emax m3 (e' + N1) loc_Exact) as [mrs2 eb].
  destruct S2 as (M2 & _ & ->).
  assert (D3 : 2 ^ (Zdigits2 m3 - 1) <= m3)
    by (destruct m3 as [|p3|p3]; try lia; apply Zdigits2_bounds).
  assert (Hd3 : 0 < Zdigits2 m3) by (destruct m3; cbn; lia).
  assert (HN2 : 0 <= N2 <= Zdigits2 m3 - 1) by (unfold N2; lia).
  assert (H4 : 1 <= shr_m mrs2).
  { rewrite M2. apply Z.div_le_lower_bound; [apply pow2_pos; lia|].
    assert (2 ^ N2 <= 2 ^ (Zdigits2 m3 - 1)) by (apply Z.pow_le_mono_r; lia). lia. }
  destruct (shr_m mrs2) as [|m4|m4] eqn:E4; [lia| |lia].
  destruct (e' + N1 + N2 <=? emax - prec); [|reflexivity].
  unfold SFleb, SFcompare.
  destruct (Z.compare_spec e1 (e' + N1 + N2)) as [HE|HL|HG]; [|reflexivity|lia].
  assert (HN : N2 = 0 /\ N1 = e1 - e') by lia. destruct HN as [Z2 Z1].
  assert (Zpos m1 <= Zpos m4).
  { rewrite M2, Z2, Z.pow_0_r, Z.div_1_r.
    apply Z.le_trans with (shr_m mrs1); [|lia].
    rewrite M1, Z1. apply Z.div_le_lower_bound; [apply pow2_pos; lia|].
    pose proof (scaled_le (Zpos m1) q e1 e' c e' H1 H2 ltac:(lia) ltac:(lia) H) as K.
    rewrite Z.sub_diag, Z.mul_1_r in K. lia. }
  change (Pos.compare_cont Eq m1 m4) with (Pos.compare m1 m4).
  destruct (Pos.compare_spec m1 m4); try reflexivity. lia.
Qed.

(** The mantissa that the division divides. *)
Lemma shifted_mantissa (m : positive) (s : Z) :
  0 <= s ->
  match s with
  | 0 => Zpos m
  | Zpos _ => Z.shiftl (Zpos m) s
  | Zneg _ => 0
  end = Zpos m * 2 ^ s.
Proof.
  intros Hs. destruct s as [|p|p]; [cbn; lia| |lia].
  apply Z.shiftl_mul_pow2. lia.
Qed.

(** The digits of a product. *)
Lemma Zdigits2_mul (a b : positive) :
  Zdigits2 (Zpos a * Zpos b) <= Zdigits2 (Zpos a) + Zdigits2 (Zpos b).
Proof.
  pose proof (Zdigits2_bounds a) as [_ Ua]. pose proof (Zdigits2_bounds b) as [_ Ub].
  assert (0 < Zdigits2 (Zpos a)) by (cbn; lia).
  assert (0 < Zdigits2 (Zpos b)) by (cbn; lia).
  apply Zdigits2_le; try lia. rewrite pow2_split by lia. nia.
Qed.

(** A quotient [x / y] of positive numbers of the format is at most a
    number [z] of the format when [x <= z * y]. *)
Lemma SFdiv_le_bound (m1 m2 mz : positive) (e1 e2 ez c : Z) :
  bounded prec emax m1 e1 = true ->
  bounded prec emax m2 e2 = true ->
  bounded prec emax mz ez = true ->
  c <= e1 -> c <= ez + e2 ->
  Zpos m1 * 2 ^ (e1 - c) <= Zpos mz * Zpos m2 * 2 ^ (ez + e2 - c) ->
  SFleb (SF64div (S754_finite false m1 e1) (S754_finite false m2 e2))
        (S754_finite false mz ez) = true.
Proof.
  intros B1 B2 Bz H1 H2 H.
  destruct (bounded_spec mz ez Bz) as [Cz _].
  pose proof (digits_of_le (Zpos m1) (Zpos mz * Zpos m2) e1 (ez + e2) c
                eq_refl eq_refl H1 H2 H) as D.
  pose proof (Zdigits2_mul mz m2) as DM.
  unfold SF64div, SFdiv, SFdiv_core_binary.
  set (d1 := Zdigits2 (Zpos m1)) in *. set (d2 := Zdigits2 (Zpos m2)) in *.
  set (dz := Zdigits2 (Zpos mz)) in *.
  unfold fexp, SpecFloat.emin, prec, emax.
  set (e' := Z.min (Z.max (d1 + e1 - (d2 + e2) - 53) (3 - 1024 - 53)) (e1 - e2)).
  assert (He' : e' <= ez /\ e' <= e1 - e2) by (unfold e'; lia).
  set (s := e1 - e2 - e').
  assert (Hs : 0 <= s) by (unfold s; lia).
  rewrite (shifted_mantissa m1 s Hs).
  pose proof (div_eucl_spec (Zpos m1 * 2 ^ s) (Zpos m2) eq_refl) as Q.
  destruct (Z.div_eucl _ _) as [q r]. destruct Q as [Q R].
  cbn [xorb].
  pose proof (pow2_pos s Hs) as Ps.
  assert (Hq : 0 <= q) by nia.
  pose proof (scaled_le (Zpos m1) (Zpos mz * Zpos m2) e1 (ez + e2) c (e2 + e')
                H1 H2 ltac:(lia) ltac:(lia) H) as K.
  replace (e1 - (e2 + e')) with s in K by (unfold s; lia).
  replace (ez + e2 - (e2 + e')) with (ez - e') in K by lia.
  pose proof (pow2_pos (ez - e') ltac:(lia)) as Pz.
  apply (binary_round_aux_le q e' (new_location (Zpos m2) r) mz ez Bz Hq (proj1 He')).
  destruct (Z_lt_le_dec q (Zpos mz * 2 ^ (ez - e'))) as [Lt|Ge]; [left; exact Lt|].
  right.
  assert (r = 0) by nia. subst r.
  split; [nia|apply new_location_zero].
Qed.

(** A quotient [x / y] of positive numbers of the format is at least a
    number [z] of the format when [z * y <= x]. *)
Lemma SFdiv_ge_bound (m1 m2 mz : positive) (e1 e2 ez c : Z) :
  bounded prec emax m1 e1 = true ->
  bounded prec emax m2 e2 = true ->
  bounded prec emax mz ez = true ->
  c <= e1 -> c <= ez + e2 ->
  Zpos mz * Zpos m2 * 2 ^ (ez + e2 - c) <= Zpos m1 * 2 ^ (e1 - c) ->
  SFleb (S754_finite false mz ez)
        (SF64div (S754_finite false m1 e1) (S754_finite false m2 e2)) = true.
Proof.
  intros B1 B2 Bz H1 H2 H.
  destruct (bounded_spec m1 e1 B1) as [C1 _].
  destruct (bounded_digits mz ez Bz) as (Uz & Lz & _).
  pose proof (Zdigits2_bounds m1) as [Lo1 _].
  pose proof (Zdigits2_bounds m2) as [_ Up2].
  unfold SF64div, SFdiv, SFdiv_core_binary.
  set (d1 := Zdigits2 (Zpos m1)) in *. set (d2 := Zdigits2 (Zpos m2)) in *.
  assert (Hd1 : 0 < d1) by (unfold d1; cbn; lia).
  assert (Hd2 : 0 < d2) by (unfold d2; cbn; lia).
  unfold fexp, SpecFloat.emin, prec, emax.
  set (e' := Z.min (Z.max (d1 + e1 - (d2 + e2) - 53) (3 - 1024 - 53)) (e1 - e2)).
  set (s := e1 - e2 - e').
  assert (Hs : 0 <= s) by (unfold s, e'; lia).
  rewrite (shifted_mantissa m1 s Hs).
  pose proof (div_eucl_spec (Zpos m1 * 2 ^ s) (Zpos m2) eq_refl) as Q.
  destruct (Z.div_eucl _ _) as [q r]. destruct Q as [Q R].
  cbn [xorb].
  pose proof (pow2_pos s Hs) as Ps.
  destruct (Z_le_gt_dec e' ez) as [Le|Gt].
  - apply (binary_round_aux_ge q e' _ mz ez e' Bz Le (Z.le_refl _)).
    rewrite Z.sub_diag, Z.mul_1_r.
    pose proof (scaled_le (Zpos mz * Zpos m2) (Zpos m1) (ez + e2) e1 c (e2 + e')
                  H2 H1 ltac:(lia) ltac:(unfold s in Hs; lia) H) as K.
    replace (e1 - (e2 + e')) with s in K by (unfold s; lia).
    replace (ez + e2 - (e2 + e')) with (ez - e') in K by lia.
    pose proof (pow2_pos (ez - e') ltac:(lia)) as Pz.
    nia.
  - apply (binary_round_aux_ge q e' _ mz ez ez Bz (Z.le_refl _) ltac:(lia)).
    rewrite Z.sub_diag, Z.mul_1_r.
    assert (S : s = 53 + d2 - d1) by (unfold s, e' in *; lia).
    assert (M : 2 ^ 52 * 2 ^ d2 <= Zpos m1 * 2 ^ s).
    { rewrite S. replace (53 + d2 - d1) with ((53 - d1) + d2) by lia.
      assert (d1 <= 53) by lia.
      rewrite pow2_split by lia.
      replace (2 ^ 52) with (2 ^ ((d1 - 1) + (53 - d1))) by (f_equal; lia).
      rewrite pow2_split by lia.
      pose proof (pow2_pos (53 - d1) ltac:(lia)). pose proof (pow2_pos d2 ltac:(lia)).
      nia. }
    assert (Hq : 2 ^ 52 <= q).
    { assert (T : 0 < 2 ^ 52) by reflexivity.
      revert M T. generalize (2 ^ 52). intros t M T.
      destruct (Z_le_gt_dec t q) as [|G]; [assumption|exfalso].
      assert (Zpos m2 * (q + 1) <= Zpos m2 * t)
        by (apply Z.mul_le_mono_nonneg_l; lia).
      assert (Zpos m2 * t < 2 ^ d2 * t) by (apply Z.mul_lt_mono_pos_r; lia).
      lia. }
    assert (2 <= 2 ^ (e' - ez)).
    { change 2 with (2 ^ 1) at 1. apply Z.pow_le_mono_r; lia. }
    change (2 ^ 53) with (2 * 2 ^ 52) in Uz.
    revert Hq Uz. generalize (2 ^ 52). intros t Hq Uz. nia.
Qed.

Local Close Scope Z_scope.

(** The magnitude of a quotient is the quotient of the magnitudes. *)
Lemma abs_div (x y : float) : abs (x / y) = abs x / abs y.
Proof.
  apply Prim2SF_inj. rewrite abs_spec, !div_spec, !abs_spec.
  destruct (Prim2SF x) as [sx|sx| |sx mx ex];
    destruct (Prim2SF y) as [sy|sy| |sy my ey]; try reflexivity.
  cbn [SFabs]. unfold SF64div, SFdiv.
  destruct (SFdiv_core_binary _ _ _ _ _ _) as [[q e'] l].
  apply SFabs_binary_round_aux.
Qed.

(** A quotient is at most one when the dividend is at most the divisor. *)
Lemma div_le_one (x y : float) :
  (0 <=? x) = true -> (x <=? y) = true -> (0 <? y) = true ->
  is_finite x = true ->
  (x / y <=? 1) = true.
Proof.
  rewrite is_finite_spec, !leb_spec, ltb_spec, div_spec.
  pose proof (Prim2SF_valid x) as Vx. pose proof (Prim2SF_valid y) as Vy.
  change (Prim2SF 0) with (S754_zero false).
  change (Prim2SF 1) with (S754_finite false 4503599627370496 (-52)).
  destruct (Prim2SF x) as [sx|sx| |sx mx ex];
    destruct (Prim2SF y) as [sy|sy| |sy my ey];
    try discriminate; try (destruct sx, sy; discriminate || reflexivity).
  destruct sx; [discriminate|]. destruct sy; [discriminate|].
  intros _ L _ _.
  pose proof (SFcompare_value mx my ex ey (Z.min ex (ey - 52)) Vx Vy
                ltac:(lia) ltac:(lia)) as C.
  apply (SFdiv_le_bound mx my 4503599627370496 ex ey (-52) (Z.min ex (ey - 52)) Vx Vy eq_refl);
    try lia.
  unfold SFleb in L. rewrite C in L.
  set (c := Z.min ex (ey - 52)) in *.
  replace (ey - c)%Z with (52 + (-52 + ey - c))%Z in L by lia.
  rewrite Z.pow_add_r in L by lia. change (2 ^ 52)%Z with 4503599627370496%Z in L.
  destruct (Z.compare_spec (Zpos mx * 2 ^ (ex - c))
              (Zpos my * (4503599627370496 * 2 ^ (-52 + ey - c))));
    try discriminate; lia.
Qed.

(** A quotient is at least one when the dividend is at least the
    divisor. *)
Lemma div_ge_one (x y : float) :
  (0 <? y) = true -> (y <=? x) = true -> is_finite y = true ->
  (1 <=? x / y) = true.
Proof.
  rewrite is_finite_spec, !leb_spec, ltb_spec, div_spec.
  pose proof (Prim2SF_valid x) as Vx. pose proof (Prim2SF_valid y) as Vy.
  change (Prim2SF 0) with (S754_zero false).
  change (Prim2SF 1) with (S754_finite false 4503599627370496 (-52)).
  destruct (Prim2SF x) as [sx|sx| |sx mx ex];
    destruct (Prim2SF y) as [sy|sy| |sy my ey];
    try discriminate; try (destruct sx, sy; discriminate || reflexivity).
  destruct sx; [destruct sy; discriminate|]. destruct sy; [discriminate|].
  intros _ L _.
  pose proof (SFcompare_value my mx ey ex (Z.min ex (ey - 52)) Vy Vx
                ltac:(lia) ltac:(lia)) as C.
  apply (SFdiv_ge_bound mx my 4503599627370496 ex ey (-52) (Z.min ex (ey - 52)) Vx Vy eq_refl);
    try lia.
  unfold SFleb in L. rewrite C in L.
  set (c := Z.min ex (ey - 52)) in *.
  replace (ey - c)%Z with (52 + (-52 + ey - c))%Z in L by lia.
  rewrite Z.pow_add_r in L by lia. change (2 ^ 52)%Z with 4503599627370496%Z in L.
  destruct (Z.compare_spec (Zpos my * (4503599627370496 * 2 ^ (-52 + ey - c)))
              (Zpos mx * 2 ^ (ex - c))); try discriminate; lia.
Qed.

(** An amount below a million is at most a thousand thousands. *)
Lemma div_thousand_le (a : float) :
  (0 <=? a) = true -> (1000000 <=? a) = false -> (a / 1000 <=? 1000) = true.
Proof.
  rewrite !leb_spec, div_spec.
  pose proof (Prim2SF_valid a) as Va.
  change (Prim2SF 0) with (S754_zero false).
  change (Prim2SF 1000000) with (S754_finite false 8589934592000000 (-33)).
  change (Prim2SF 1000) with (S754_finite false 8796093022208000 (-43)).
  destruct (Prim2SF a) as [sa|sa| |sa ma ea];
    try discriminate; try (destruct sa; discriminate || reflexivity).
  destruct sa; [discriminate|]. intros _ L.
  set (c := Z.min ea (-86)).
  pose proof (SFcompare_value 8589934592000000 ma (-33) ea c eq_refl Va
                ltac:(lia) ltac:(lia)) as C.
  apply (SFdiv_le_bound ma 8796093022208000 8796093022208000 ea (-43) (-43) c
           Va eq_refl eq_refl); try lia.
  unfold SFleb in L. rewrite C in L.
  replace (-33 - c)%Z with (53 + (-43 + -43 - c))%Z in L by lia.
  rewrite Z.pow_add_r in L by lia. change (2 ^ 53)%Z with 9007199254740992%Z in L.
  destruct (Z.compare_spec
              (8589934592000000 * (9007199254740992 * 2 ^ (-43 + -43 - c)))
              (Zpos ma * 2 ^ (ea - c))); try discriminate; lia.
Qed.

Local Open Scope Z_scope.

(** The scaled integer of [toFixed] for a number of at least one and for
    a number of at most a thousand. *)
Lemma nearest_integer_scaled_lower (b : float) (f : Z) :
  0 <= f -> is_finite b = true -> (1 <=? b)%float = true ->
  10 ^ f <= nearest_integer_scaled b f.
Proof.
  rewrite is_finite_spec, leb_spec. unfold nearest_integer_scaled.
  pose proof (Prim2SF_valid b) as Vb.
  intros Hf F L.
  destruct (Prim2SF b) as [sb|sb| |sb m e]; try discriminate;
    try (destruct sb; discriminate).
  destruct sb; [discriminate|].
  destruct (at_least_one m e Vb L) as (He & _ & Hm).
  assert (T : 0 < 10 ^ f) by (apply Z.pow_pos_nonneg; lia).
  destruct (0 <=? e) eqn:E.
  - apply Z.leb_le in E. pose proof (pow2_pos e E).
    assert (A : 10 ^ f <= Zpos m * 10 ^ f)
      by (rewrite <- (Z.mul_1_l (10 ^ f)) at 1; apply Z.mul_le_mono_nonneg_r; lia).
    apply Z.le_trans with (Zpos m * 10 ^ f * 1); [lia|].
    apply Z.mul_le_mono_nonneg_l; lia.
  - apply Z.leb_gt in E.
    apply Z.div_le_lower_bound; [apply pow2_pos; lia|].
    replace (1 - e) with (1 + - e) by lia. rewrite pow2_split by lia.
    assert (2 ^ (- e) <= 2 ^ 52) by (apply Z.pow_le_mono_r; lia).
    pose proof (pow2_pos (- e) ltac:(lia)).
    change (2 ^ 1) with 2.
    assert (2 ^ (- e) * 10 ^ f <= Zpos m * 10 ^ f)
      by (apply Z.mul_le_mono_nonneg_r; lia).
    lia.
Qed.

Lemma nearest_integer_scaled_upper (b : float) (f : Z) :
  0 <= f -> (0 <=? b)%float = true -> (b <=? 1000)%float = true ->
  nearest_integer_scaled b f <= 1000 * 10 ^ f.
Proof.
  rewrite !leb_spec. unfold nearest_integer_scaled.
  pose proof (Prim2SF_valid b) as Vb.
  change (Prim2SF 0) with (S754_zero false).
  change (Prim2SF 1000) with (S754_finite false 8796093022208000 (-43)).
  intros Hf P L.
  assert (T : 0 < 10 ^ f) by (apply Z.pow_pos_nonneg; lia).
  destruct (Prim2SF b) as [sb|sb| |sb m e]; try lia.
  destruct sb; [discriminate|].
  set (c := Z.min e (-43)).
  pose proof (SFcompare_value m 8796093022208000 e (-43) c Vb eq_refl
                ltac:(lia) ltac:(lia)) as C.
  unfold SFleb in L. rewrite C in L.
  assert (K : Zpos m * 2 ^ (e - c) <= 8796093022208000 * 2 ^ (-43 - c))
    by (destruct (Z.compare_spec (Zpos m * 2 ^ (e - c))
                    (8796093022208000 * 2 ^ (-43 - c))); try discriminate; lia).
  clear L C.
  destruct (0 <=? e) eqn:E.
  - apply Z.leb_le in E. replace c with (-43) in K by lia.
    replace (e - -43) with (e + 43) in K by lia.
    rewrite pow2_split in K by lia.
    change (-43 - -43) with 0 in K. rewrite Z.pow_0_r in K.
    change (2 ^ 43) with 8796093022208 in K.
    pose proof (pow2_pos e E).
    assert (Zpos m * 2 ^ e <= 1000) by lia.
    replace (Zpos m * 10 ^ f * 2 ^ e) with (Zpos m * 2 ^ e * 10 ^ f) by ring.
    apply Z.mul_le_mono_nonneg_r; lia.
  - apply Z.leb_gt in E.
    assert (M : Zpos m <= 1000 * 2 ^ (- e)).
    { pose proof (pow2_pos (e - c) ltac:(lia)) as Pc.
      replace (-43 - c) with ((- e - 43) + (e - c)) in K by lia.
      destruct (Z_le_gt_dec 43 (- e)) as [Big|Small].
      - rewrite pow2_split in K by lia.
        replace (- e) with (43 + (- e - 43)) by lia. rewrite pow2_split by lia.
        change (2 ^ 43) with 8796093022208.
        apply (Z.mul_le_mono_pos_r _ _ (2 ^ (e - c)) Pc). lia.
      - replace c with (-43) in * by lia.
        replace (- e - 43 + (e - -43)) with 0 in K by lia.
        replace (e - -43) with (43 + e) in K by lia.
        assert (2 ^ 43 = 2 ^ (43 + e) * 2 ^ (- e))
          by (rewrite <- pow2_split by lia; f_equal; lia).
        rewrite Z.pow_0_r, Z.mul_1_r in K.
        change 8796093022208000 with (1000 * 2 ^ 43) in K. rewrite H in K.
        apply (Z.mul_le_mono_pos_r _ _ (2 ^ (43 + e))); [apply pow2_pos; lia|]. lia. }
    apply Z.lt_succ_r. apply Z.div_lt_upper_bound; [apply pow2_pos; lia|].
    replace (1 - e) with (1 + - e) by lia. rewrite pow2_split by lia.
    change (2 ^ 1) with 2.
    pose proof (pow2_pos (- e) ltac:(lia)).
    assert (Zpos m * 10 ^ f <= 1000 * 2 ^ (- e) * 10 ^ f)
      by (apply Z.mul_le_mono_nonneg_r; lia).
    lia.
Qed.

Local Close Scope Z_scope.

(** ** The formatter on every amount *)

(** The sign of a quotient by a positive number, when the quotient is
    not below one in magnitude. *)
Lemma div_sign (v c : float) :
  (0 <? c) = true -> is_finite c = true -> (1 <=? abs (v / c)) = true ->
  (v / c <? 0) = (v <? 0).
Proof.
  rewrite is_finite_spec, !ltb_spec, leb_spec, abs_spec, div_spec.
  change (Prim2SF 0) with (S754_zero false).
  change (Prim2SF 1) with (S754_finite false 4503599627370496 (-52)).
  destruct (Prim2SF v) as [sv|sv| |sv mv ev];
    destruct (Prim2SF c) as [sc|sc| |sc mc ec];
    try discriminate; try (destruct sv, sc; discriminate || reflexivity).
  destruct sc; [discriminate|]. intros _ _.
  unfold SF64div, SFdiv.
  destruct (SFdiv_core_binary _ _ _ _ _ _) as [[q e'] l].
  generalize (binary_round_aux_sign (xorb sv false) q e' l).
  destruct (binary_round_aux _ _ _ _ _ _) as [s|s| |s m e]; intros; subst;
    try discriminate; destruct sv; reflexivity.
Qed.

(** The magnitude of an amount that reaches a threshold, divided by the
    threshold, is at least one. *)
Lemma abs_div_ge_one (v c : float) :
  (0 <? c) = true -> is_finite c = true -> (c <=? abs v) = true ->
  (1 <=? abs (v / c)) = true.
Proof.
  intros P F L. rewrite abs_div.
  replace (abs c) with c.
  - apply div_ge_one; assumption.
  - apply Prim2SF_inj. rewrite abs_spec. revert P.
    rewrite ltb_spec. change (Prim2SF 0) with (S754_zero false).
    destruct (Prim2SF c) as [[|]|[|]| |[|] ? ?]; try discriminate; reflexivity.
Qed.

(** Magnitudes and thresholds. *)
Lemma abs_nonneg (v : float) : is_nan v = false -> (0 <=? abs v) = true.
Proof.
  rewrite is_nan_spec, leb_spec, abs_spec.
  change (Prim2SF 0) with (S754_zero false).
  destruct (Prim2SF v) as [[|]|[|]| |[|] ? ?]; try discriminate; reflexivity.
Qed.

Lemma not_nan_of_leb (c v : float) : (c <=? abs v) = true -> is_nan v = false.
Proof.
  rewrite is_nan_spec, leb_spec, abs_spec.
  destruct (Prim2SF c) as [[|]|[|]| |[|] ? ?]; destruct (Prim2SF v);
    cbn; intros; try discriminate; reflexivity.
Qed.

Lemma not_below_is_below (c v : float) :
  is_nan c = false -> is_nan v = false ->
  (c <=? abs v) = false -> (abs v <=? c) = true.
Proof.
  rewrite !is_nan_spec, !leb_spec, abs_spec. unfold SFleb, SFcompare.
  destruct (Prim2SF c) as [[|]|[|]| |[|] mc ec];
    destruct (Prim2SF v) as [[|]|[|]| |[|] mv ev]; cbn [SFabs];
    try discriminate; try reflexivity; intros _ _;
    change (Pos.compare_cont Eq) with Pos.compare;
    destruct (Z.compare_spec ec ev); destruct (Z.compare_spec ev ec);
    try discriminate; try reflexivity; try lia; subst;
    destruct (Pos.compare_spec mc mv); destruct (Pos.compare_spec mv mc);
    cbn; try discriminate; try reflexivity; lia.
Qed.

(** Finite numbers. *)
Lemma is_finite_abs (x : float) : is_finite (abs x) = is_finite x.
Proof.
  rewrite !is_finite_spec, abs_spec. destruct (Prim2SF x); reflexivity.
Qed.

Lemma is_nan_of_finite (x : float) : is_finite x = true -> is_nan x = false.
Proof.
  rewrite is_finite_spec, is_nan_spec. destruct (Prim2SF x); intros; try discriminate; reflexivity.
Qed.

(** An amount that reaches a threshold of the formatter, and whose
    quotient by the threshold is below 10^21, is finite. *)
Lemma finite_amount (c v : float) :
  (1 <=? c) = true -> is_finite c = true ->
  (1e21 <=? abs (v / c)) = false -> (c <=? abs v) = true ->
  is_finite v = true.
Proof.
  rewrite !is_finite_spec, !leb_spec, !abs_spec, div_spec.
  change (Prim2SF 1) with (S754_finite false 4503599627370496 (-52)).
  change (Prim2SF 1e21) with (S754_finite false 7629394531250000 17).
  destruct (Prim2SF c) as [[|]|[|]| |[|] ? ?]; try discriminate;
    destruct (Prim2SF v) as [[|]|[|]| |[|] ? ?]; try reflexivity;
    cbn; intros; discriminate.
Qed.

(** Appending strings is associative. *)
Lemma append_assoc (a b c : string) : (a ++ b) ++ c = a ++ (b ++ c).
Proof. induction a as [|x a IH]; cbn; [reflexivity|rewrite IH; reflexivity]. Qed.

(** Negation commutes with rounding, with division and with the
    magnitude. *)
Lemma SFopp_binary_round_aux (s : bool) (m e : Z) (l : location) :
  SFopp (binary_round_aux prec emax s m e l)
  = binary_round_aux prec emax (negb s) m e l.
Proof.
  unfold binary_round_aux.
  destruct (shr_fexp prec emax m e l) as [mrs' e'].
  destruct (shr_fexp prec emax _ e' loc_Exact) as [mrs'' e''].
  destruct (shr_m mrs''); [reflexivity| |reflexivity].
  destruct (e'' <=? emax - prec)%Z; reflexivity.
Qed.

Lemma div_opp (x y : float) : (- x) / y = - (x / y).
Proof.
  apply Prim2SF_inj. rewrite opp_spec, !div_spec, opp_spec.
  destruct (Prim2SF x) as [sx|sx| |sx mx ex];
    destruct (Prim2SF y) as [sy|sy| |sy my ey]; try reflexivity;
    try (destruct sx, sy; reflexivity).
  cbn [SFopp]. unfold SF64div, SFdiv.
  destruct (SFdiv_core_binary _ _ _ _ _ _) as [[q e'] l].
  rewrite SFopp_binary_round_aux. destruct sx, sy; reflexivity.
Qed.

Lemma abs_opp (x : float) : abs (- x) = abs x.
Proof.
  apply Prim2SF_inj. rewrite !abs_spec, opp_spec.
  destruct (Prim2SF x); reflexivity.
Qed.

(** [toFixed] never throws when the number of digits is in its range. *)
Lemma toFixed_returns (x : float) (f : Z) :
  (0 <= f <= 100)%Z -> exists s, toFixed x f = Normal s.
Proof.
  intros Hf. unfold toFixed.
  replace ((f <? 0)%Z || (100 <? f)%Z) with false
    by (symmetry; apply orb_false_iff; split; apply Z.ltb_ge; lia).
  destruct (negb (is_finite x)); [eauto|].
  destruct (1e21 <=? abs x); eauto.
Qed.

(** The digits of a negative number are those of its magnitude after a
    minus sign. *)
Lemma toFixed_opp (x : float) (f : Z) :
  (0 <? x) = true ->
  toFixed (- x) f = (s <- toFixed x f ;; Normal ("-" ++ s)).
Proof.
  intros P. unfold toFixed.
  destruct ((f <? 0)%Z || (100 <? f)%Z); [reflexivity|].
  assert (F : is_finite (- x) = is_finite x).
  { rewrite !is_finite_spec, opp_spec. destruct (Prim2SF x); reflexivity. }
  rewrite F, abs_opp.
  destruct (is_finite x) eqn:Fx; cbn [negb].
  - assert (S : (- x <? 0) = true /\ (x <? 0) = false).
    { revert P. rewrite !ltb_spec, opp_spec.
      change (Prim2SF 0) with (S754_zero false).
      destruct (Prim2SF x) as [[|]|[|]| |[|] ? ?]; try discriminate; split; reflexivity. }
    destruct S as [-> ->].
    destruct (1e21 <=? abs x); reflexivity.
  - assert (I : x = infinity).
    { apply Prim2SF_inj. revert P Fx. rewrite is_finite_spec, ltb_spec.
      change (Prim2SF 0) with (S754_zero false).
      change (Prim2SF infinity) with (S754_infinity false).
      destruct (Prim2SF x) as [[|]|[|]| |[|] ? ?]; try discriminate; reflexivity. }
    subst x. reflexivity.
Qed.

(** Positive numbers. *)
Lemma positive_of_ge_one (x : float) : (1 <=? x) = true -> (0 <? x) = true.
Proof.
  rewrite leb_spec, ltb_spec.
  change (Prim2SF 0) with (S754_zero false).
  change (Prim2SF 1) with (S754_finite false 4503599627370496 (-52)).
  destruct (Prim2SF x) as [[|]|[|]| |[|] ? ?]; try discriminate; reflexivity.
Qed.

Lemma abs_positive (x : float) : (0 <? x) = true -> abs x = x.
Proof.
  intros P. apply Prim2SF_inj. rewrite abs_spec. revert P.
  rewrite ltb_spec. change (Prim2SF 0) with (S754_zero false).
  destruct (Prim2SF x) as [[|]|[|]| |[|] ? ?]; try discriminate; reflexivity.
Qed.

(** What the formatter returns starts with the euro sign. *)
Lemma formatCurrency_euro (v : float) :
  exists t, formatCurrency v = Normal ("€" ++ t).
Proof.
  unfold formatCurrency. cbv zeta.
  destruct (1000000 <=? abs v); [|destruct (1000 <=? abs v)].
  - destruct (toFixed_returns (v / 1000000) 1 ltac:(lia)) as [s ->]. cbn. eauto.
  - destruct (toFixed_returns (v / 1000) 1 ltac:(lia)) as [s ->]. cbn. eauto.
  - destruct (toFixed_returns v 0 ltac:(lia)) as [s ->]. cbn. eauto.
Qed.

Lemma append_empty (a : string) : a ++ EmptyString = a.
Proof. induction a as [|x a IH]; cbn; [reflexivity|rewrite IH; reflexivity]. Qed.

(** A number that is not negative is written with a last digit. *)
Lemma digits_last (n : Z) :
  (0 <= n)%Z -> exists t d, (0 <= d < 10)%Z /\ digits n = t ++ digits d.
Proof.
  intros Hn. destruct (Z_lt_le_dec n 10) as [S|L].
  - exists EmptyString, n. split; [lia|reflexivity].
  - exists (digits (n / 10)), (n mod 10)%Z.
    pose proof (Z.mod_pos_bound n 10 ltac:(lia)) as B. split; [lia|].
    rewrite <- digits_tenfold_plus; [|Z.to_euclidean_division_equations; lia|lia].
    f_equal. Z.to_euclidean_division_equations; lia.
Qed.

(** X6. [formatCurrency] returns for every number, NaN and the
    infinities included: it never throws the [RangeError] of [toFixed],
    which it calls with no or one fractional digit only. What it returns
    is the euro sign, the text [toFixed] gives for the amount in the
    unit of its range, and "M" when the magnitude reaches a million, "k"
    when it reaches a thousand and not a million, and nothing otherwise:
    below a thousand the text ends with the last digit of a whole
    number, or is "NaN". *)
Theorem formatCurrency_returns (v : float) :
  exists t,
    (if 1000000 <=? abs v then toFixed (v / 1000000) 1
     else if 1000 <=? abs v then toFixed (v / 1000) 1
     else toFixed v 0) = Normal t
    /\ formatCurrency v
       = Normal ("€" ++ t ++ (if 1000000 <=? abs v then "M"
                              else if 1000 <=? abs v then "k" else EmptyString))
    /\ ((1000 <=? abs v) = false ->
        if is_nan v then t = "NaN"
        else exists t' d, (0 <= d < 10)%Z /\ t = t' ++ digits d).
Proof.
  unfold formatCurrency. cbv zeta.
  destruct (1000000 <=? abs v) eqn:M; [|destruct (1000 <=? abs v) eqn:K].
  - destruct (toFixed_returns (v / 1000000) 1 ltac:(lia)) as [s E].
    exists s. rewrite E. repeat split.
    intros K. rewrite (leb_trans 1000 1000000 (abs v) eq_refl M) in K. discriminate K.
  - destruct (toFixed_returns (v / 1000) 1 ltac:(lia)) as [s E].
    exists s. rewrite E. repeat split. discriminate.
  - destruct (is_nan v) eqn:N.
    + exists "NaN". 
      assert (F : is_finite v = false).
      { revert N. rewrite is_nan_spec, is_finite_spec. destruct (Prim2SF v); trivial; discriminate. }
      unfold toFixed. cbn [Z.ltb Z.compare orb]. rewrite F. cbn [negb].
      unfold Number_toString. rewrite N. repeat split.
    + assert (F : is_finite v = true) by (apply (below_is_finite 1000); auto).
      assert (B : (1e21 <=? abs v) = false).
      { apply (below_threshold 1000 1e21 _ (abs v));
          [reflexivity|apply leb_refl_abs, N|exact K]. }
      rewrite toFixed_no_decimals by assumption.
      exists (no_decimals v). rewrite append_empty. repeat split.
      unfold no_decimals.
      destruct (digits_last (nearest_integer_scaled (abs v) 0)) as (t & d & Hd & ->).
      * apply nearest_integer_scaled_nonneg. lia.
      * exists ((if v <? 0 then "-" else EmptyString) ++ t), d.
        split; [exact Hd|]. rewrite append_assoc. reflexivity.
Qed.

(** X6 on an amount of 42. *)
Lemma formatCurrency_returns_witness :
  exists t t' d,
    toFixed 42 0 = Normal t
    /\ formatCurrency 42 = Normal ("€" ++ t ++ EmptyString)
    /\ (0 <= d < 10)%Z /\ t = t' ++ digits d.
Proof.
  destruct (formatCurrency_returns 42) as (t & T & F & D).
  destruct (D eq_refl) as (t' & d & Hd & E).
  exists t, t', d. exact (conj T (conj F (conj Hd E))).
Defined.

(** X7. A negative amount is formatted as its magnitude is, with a minus
    sign between the euro sign and the digits: for every amount above
    zero, positive infinity included, the text for its negation is the
    text for the amount with "-" after "€". *)
Theorem formatCurrency_negative (v : float) :
  (0 <? v) = true ->
  exists t, formatCurrency v = Normal ("€" ++ t)
         /\ formatCurrency (- v) = Normal ("€-" ++ t).
Proof.
  intros P. unfold formatCurrency. cbv zeta. rewrite abs_opp.
  pose proof (abs_positive v P) as A.
  destruct (1000000 <=? abs v) eqn:M; [|destruct (1000 <=? abs v) eqn:K].
  - rewrite div_opp, toFixed_opp.
    + destruct (toFixed_returns (v / 1000000) 1 ltac:(lia)) as [s ->].
      exists (s ++ "M"). split; reflexivity.
    + apply positive_of_ge_one. rewrite A in M. apply div_ge_one; auto.
  - rewrite div_opp, toFixed_opp.
    + destruct (toFixed_returns (v / 1000) 1 ltac:(lia)) as [s ->].
      exists (s ++ "k"). split; reflexivity.
    + apply positive_of_ge_one. rewrite A in K. apply div_ge_one; auto.
  - rewrite toFixed_opp by exact P.
    destruct (toFixed_returns v 0 ltac:(lia)) as [s ->].
    exists s. split; reflexivity.
Qed.

(** X7 on an amount of one and a half million. *)
Lemma formatCurrency_negative_witness :
  exists t, formatCurrency 1500000 = Normal ("€" ++ t)
         /\ formatCurrency (- 1500000) = Normal ("€-" ++ t).
Proof. exact (formatCurrency_negative 1500000 eq_refl). Defined.

(** X8. The number that [formatCurrency] shows in each of its three
    ranges, as the sign of the amount and a count [n] of tenths or of
    units. With the suffix "M" the number shown is at least 1.0; with
    the suffix "k" it is between 1.0 and 1000.0; without a suffix it is
    between 0 and 1000. The upper ends are reached, because the range is
    chosen before the number is rounded: 999,950 is shown as "€1000.0k"
    (and 999,949.99 as "€999.9k"), 999.5 as "€1000"; and -0.4 is shown
    as "€-0". *)
Theorem formatCurrency_range (v : float) :
  ((1000000 <=? abs v) = true -> (1e21 <=? abs (v / 1000000)) = false ->
   exists n, (10 <= n)%Z
     /\ formatCurrency v
        = Normal ("€" ++ (if v <? 0 then "-" else EmptyString)
                  ++ digits (n / 10) ++ "." ++ digits (n mod 10) ++ "M"))
  /\ ((1000000 <=? abs v) = false -> (1000 <=? abs v) = true ->
      exists n, (10 <= n <= 10000)%Z
        /\ formatCurrency v
           = Normal ("€" ++ (if v <? 0 then "-" else EmptyString)
                     ++ digits (n / 10) ++ "." ++ digits (n mod 10) ++ "k"))
  /\ ((1000 <=? abs v) = false -> is_nan v = false ->
      exists n, (0 <= n <= 1000)%Z
        /\ formatCurrency v
           = Normal ("€" ++ (if v <? 0 then "-" else EmptyString) ++ digits n))
  /\ formatCurrency 999949.99 = Normal "€999.9k"
  /\ formatCurrency 999950 = Normal "€1000.0k"
  /\ formatCurrency 999.5 = Normal "€1000"
  /\ formatCurrency (-0.4) = Normal "€-0".
Proof.
  split; [|split; [|split; [|vm_compute; repeat split]]];
    unfold formatCurrency; cbv zeta.
  - intros M B.
    assert (F : is_finite v = true)
      by (apply (finite_amount 1000000); auto).
    assert (G : (1 <=? abs (v / 1000000)) = true)
      by (apply abs_div_ge_one; auto).
    assert (Fq : is_finite (v / 1000000) = true).
    { apply finite_of_le with v; [|exact F]. apply abs_div_le; [exact F|reflexivity]. }
    rewrite M, toFixed_one_decimal by assumption.
    unfold one_decimal. rewrite div_sign by auto.
    exists (nearest_integer_scaled (abs (v / 1000000)) 1). split.
    + apply (nearest_integer_scaled_lower _ 1); [lia| |exact G].
      rewrite is_finite_abs. exact Fq.
    + cbn [bind]. rewrite !append_assoc. reflexivity.
  - intros M K.
    pose proof (not_nan_of_leb _ _ K) as N.
    assert (F : is_finite v = true) by (apply (below_is_finite 1000000); auto).
    assert (D : (abs (v / 1000) <=? abs v) = true)
      by (apply abs_div_le; [exact F|reflexivity]).
    assert (G : (1 <=? abs (v / 1000)) = true)
      by (apply abs_div_ge_one; auto).
    assert (Fq : is_finite (v / 1000) = true) by (apply finite_of_le with v; assumption).
    rewrite M, K, toFixed_one_decimal; [| exact Fq |].
    2:{ apply (below_threshold 1000000 1e21 _ (abs v)); [reflexivity|exact D|exact M]. }
    unfold one_decimal. rewrite div_sign by auto.
    exists (nearest_integer_scaled (abs (v / 1000)) 1). split.
    + split.
      * apply (nearest_integer_scaled_lower _ 1); [lia| |exact G].
        rewrite is_finite_abs. exact Fq.
      * apply (nearest_integer_scaled_upper _ 1); [lia| |].
        -- apply abs_nonneg, is_nan_of_finite, Fq.
        -- rewrite abs_div. apply div_thousand_le; [apply abs_nonneg, N|exact M].
    + cbn [bind]. rewrite !append_assoc. reflexivity.
  - intros K N.
    assert (F : is_finite v = true) by (apply (below_is_finite 1000); auto).
    assert (M : (1000000 <=? abs v) = false).
    { apply (below_threshold 1000 1000000 _ (abs v));
        [reflexivity|apply leb_refl_abs, N|exact K]. }
    assert (B : (1e21 <=? abs v) = false).
    { apply (below_threshold 1000 1e21 _ (abs v));
        [reflexivity|apply leb_refl_abs, N|exact K]. }
    rewrite M, K, toFixed_no_decimals by assumption.
    unfold no_decimals.
    exists (nearest_integer_scaled (abs v) 0). split; [split|].
    + apply nearest_integer_scaled_nonneg. lia.
    + apply (nearest_integer_scaled_upper _ 0); [lia|apply abs_nonneg, N|].
      apply not_below_is_below; auto.
    + reflexivity.
Qed.

(** X8 in the three ranges: 1,500,000, 999,999 and 999.5. *)
Lemma formatCurrency_range_witness :
  (exists n, (10 <= n)%Z
     /\ formatCurrency 1500000
        = Normal ("€" ++ digits (n / 10) ++ "." ++ digits (n mod 10) ++ "M"))
  /\ (exists n, (10 <= n <= 10000)%Z
        /\ formatCurrency 999999
           = Normal ("€" ++ digits (n / 10) ++ "." ++ digits (n mod 10) ++ "k"))
  /\ (exists n, (0 <= n <= 1000)%Z
        /\ formatCurrency 999.5 = Normal ("€" ++ digits n)).
Proof.
  exact (conj
           (proj1 (formatCurrency_range 1500000) eq_refl eq_refl)
           (conj
              (proj1 (proj2 (formatCurrency_range 999999)) eq_refl eq_refl)
              (proj1 (proj2 (proj2 (formatCurrency_range 999.5))) eq_refl eq_refl))).
Defined.

(** ** The engine in binary64, from below *)

(** A quotient by a positive number of at most one is at least the
    dividend. *)
Lemma div_ge_self (x y : float) :
  (0 <=? x) = true -> (0 <? y) = true -> (y <=? 1) = true ->
  (x <=? x / y) = true.
Proof.
  rewrite !leb_spec, ltb_spec, div_spec.
  pose proof (Prim2SF_valid x) as Vx. pose proof (Prim2SF_valid y) as Vy.
  change (Prim2SF 0) with (S754_zero false).
  change (Prim2SF 1) with (S754_finite false 4503599627370496 (-52)).
  destruct (Prim2SF x) as [sx|sx| |sx mx ex];
    destruct (Prim2SF y) as [sy|sy| |sy my ey];
    try discriminate; try (destruct sx, sy; discriminate || reflexivity).
  destruct sx; [discriminate|]. destruct sy; [discriminate|].
  intros _ _ L.
  set (c := Z.min ey (-52)).
  pose proof (SFcompare_value my 4503599627370496 ey (-52) c Vy eq_refl
                ltac:(lia) ltac:(lia)) as C.
  apply (SFdiv_ge_bound mx my mx ex ey ex (ex + c) Vx Vy Vx); try lia.
  unfold SFleb in L. rewrite C in L.
  assert (K : (Zpos my * 2 ^ (ey - c) <= 4503599627370496 * 2 ^ (-52 - c))%Z)
    by (destruct (Z.compare_spec (Zpos my * 2 ^ (ey - c))
                    (4503599627370496 * 2 ^ (-52 - c))); try discriminate; lia).
  replace (ex + ey - (ex + c))%Z with (ey - c)%Z by lia.
  replace (ex - (ex + c))%Z with (52 + (-52 - c))%Z by lia.
  rewrite Z.pow_add_r by lia. change (2 ^ 52)%Z with 4503599627370496%Z.
  rewrite <- Z.mul_assoc. apply Z.mul_le_mono_nonneg_l; lia.
Qed.

(** X9. The counterpart of the bound of C5 for rates that are not
    positive: for every input state whose exit value is not negative and
    whose power factor is above zero and at most one, the valuation
    today is at least the exit value. *)
Theorem valuation_at_least_exit (pow_approx : float -> float -> float)
    (s : VCMState float) :
  let r := results (arith := JSNumber pow_approx) s in
  (0 <=? exitValue r) = true ->
  (0 <? powerFactor r) = true -> (powerFactor r <=? 1) = true ->
  (exitValue r <=? valuationToday r) = true.
Proof. cbv zeta. intros HE HP HL. apply div_ge_self; assumption. Qed.

(** X9 on the initial state at a rate of -50%, where the valuation is 32
    times the exit value. *)
Lemma valuation_at_least_exit_witness :
  let r := results (arith := JSNumber pow_integral) negative_rate in
  (exitValue r <=? valuationToday r) = true.
Proof.
  exact (valuation_at_least_exit pow_integral negative_rate
           eq_refl eq_refl eq_refl).
Defined.

(** X10. The share of the investor against 100%, for every input state
    whose valuation today is above zero: when the investment (amount
    times unit) is finite, not negative and at most the valuation, the
    ownership is at most 1; when the valuation is finite and at most the
    investment, the ownership is at least 1. Rounding does not carry the
    quotient across 1. *)
Theorem ownership_against_one (pow_approx : float -> float -> float)
    (s : VCMState float) :
  let r := results (arith := JSNumber pow_approx) s in
  let investTotal := investimento s * investUnita s in
  (0 <? valuationToday r) = true ->
  ((0 <=? investTotal) = true -> is_finite investTotal = true ->
   (investTotal <=? valuationToday r) = true ->
   (vcOwnership r <=? 1) = true)
  /\ (is_finite (valuationToday r) = true ->
      (valuationToday r <=? investTotal) = true ->
      (1 <=? vcOwnership r) = true).
Proof.
  cbv zeta. intros HV. split.
  - intros H0 HF HL. apply div_le_one; assumption.
  - intros HF HL. apply div_ge_one; assumption.
Qed.

(** X10 on the initial state, where 10 millions are invested at a
    valuation of 46.8, and with 100 millions invested. *)
Lemma ownership_against_one_witness :
  (vcOwnership (results (arith := JSNumber pow_integral) initialState) <=? 1) = true
  /\ (1 <=? vcOwnership (results (arith := JSNumber pow_integral) overfunded)) = true.
Proof.
  exact (conj
           (proj1 (ownership_against_one pow_integral initialState eq_refl)
              eq_refl eq_refl eq_refl)
           (proj2 (ownership_against_one pow_integral overfunded eq_refl)
              eq_refl eq_refl)).
Defined.

(** ** The signs of the differences *)

(** The rounding of a value that is not negative is a number. *)
Lemma binary_round_aux_number (s : bool) (m e : Z) (l : location) :
  (0 <= m)%Z ->
  match binary_round_aux prec emax s m e l with
  | S754_nan => False
  | S754_zero s' | S754_infinity s' | S754_finite s' _ _ => s' = s
  end.
Proof.
  intros Hm. unfold binary_round_aux.
  pose proof (shr_fexp_spec m e l Hm) as S1. cbv zeta in S1.
  destruct (shr_fexp prec emax m e l) as [mrs1 ea]. destruct S1 as (M1 & _ & _).
  pose proof (round_nearest_even_spec mrs1) as [R _].
  assert (H1 : (0 <= shr_m mrs1)%Z)
    by (rewrite M1; apply Z.div_pos; [lia|apply pow2_pos; lia]).
  pose proof (shr_fexp_spec _ ea loc_Exact (Z.le_trans _ _ _ H1 (proj1 R))) as S2.
  cbv zeta in S2.
  destruct (shr_fexp prec emax _ ea loc_Exact) as [mrs2 eb]. destruct S2 as (M2 & _ & _).
  assert (H2 : (0 <= shr_m mrs2)%Z)
    by (rewrite M2; apply Z.div_pos; [lia|apply pow2_pos; lia]).
  destruct (shr_m mrs2); [reflexivity| |lia].
  destruct (eb <=? emax - prec)%Z; reflexivity.
Qed.

Local Open Scope Z_scope.

(** Two mantissas brought to one exponent. *)
Lemma shl_align_spec (mx : positive) (ex ex' : Z) :
  let '(m, e) := shl_align mx ex ex' in
  e = Z.min ex ex' /\ Zpos m = Zpos mx * 2 ^ (ex - e).
Proof.
  unfold shl_align. destruct (ex' - ex) as [|d|d] eqn:D.
  - split; [lia|]. rewrite Z.sub_diag. lia.
  - split; [lia|]. rewrite Z.sub_diag. lia.
  - split; [lia|].
    change (PosDef.Pos.iter xO mx d) with (shift_pos d mx).
    rewrite shift_pos_correct, Z.pow_pos_fold.
    replace (ex - ex') with (Zpos d) by lia. lia.
Qed.

(** The rounding of a positive integer multiple of a power of two that
    the format has is not zero. *)
Lemma binary_round_nonzero (s : bool) (p : positive) (e : Z) :
  -1074 <= e ->
  match binary_round prec emax s p e with
  | S754_zero _ | S754_nan => False
  | S754_infinity s' | S754_finite s' _ _ => s' = s
  end.
Proof.
  intros He. unfold binary_round.
  pose proof (shl_align_spec p e (fexp prec emax (Zpos (digits2_pos p) + e))) as A.
  destruct (shl_align p e _) as [mz ez]. destruct A as [Ez Mz].
  assert (Lz : -1074 <= ez)
    by (rewrite Ez; unfold fexp, SpecFloat.emin, prec, emax; lia).
  assert (G : SFleb (S754_finite false 1 (-1074))
                (binary_round_aux prec emax false (Zpos mz) ez loc_Exact) = true).
  { apply (binary_round_aux_ge _ _ _ 1 (-1074) (-1074)); [reflexivity|lia|lia|].
    rewrite Z.sub_diag. pose proof (pow2_pos (ez - -1074) ltac:(lia)). nia. }
  pose proof (binary_round_aux_number false (Zpos mz) ez loc_Exact ltac:(lia)) as N.
  destruct s.
  - rewrite <- (SFopp_binary_round_aux false).
    destruct (binary_round_aux prec emax false _ _ _) as [z|i| |f m e'];
      cbn [SFopp negb]; try discriminate G; try contradiction; subst; reflexivity.
  - destruct (binary_round_aux prec emax false _ _ _) as [z|i| |f m e'];
      try discriminate G; try contradiction; subst; reflexivity.
Qed.

(** The sign of a difference of positive numbers of the format is the
    order of the numbers. *)
Lemma SFsub_sign (mx my : positive) (ex ey : Z) :
  bounded prec emax mx ex = true -> bounded prec emax my ey = true ->
  let x := S754_finite false mx ex in
  let y := S754_finite false my ey in
  SFleb (S754_zero false) (SF64sub x y) = SFleb y x
  /\ SFleb (SF64sub x y) (S754_zero false) = SFleb x y.
Proof.
  intros Bx By. cbv zeta.
  destruct (bounded_digits mx ex Bx) as (_ & Lx & _).
  destruct (bounded_digits my ey By) as (_ & Ly & _).
  unfold SF64sub, SFsub. cbv zeta.
  change (IntDef.Z.min ex ey) with (Z.min ex ey).
  pose proof (shl_align_spec mx ex (Z.min ex ey)) as A.
  pose proof (shl_align_spec my ey (Z.min ex ey)) as B.
  destruct (shl_align mx ex _) as [ma ea]. destruct (shl_align my ey _) as [mb eb].
  destruct A as [Ea Ma]. destruct B as [Eb Mb]. cbn [fst cond_Zopp].
  replace ea with (Z.min ex ey) in Ma by lia.
  replace eb with (Z.min ex ey) in Mb by lia.
  set (c := Z.min ex ey) in *.
  unfold SFleb.
  rewrite (SFcompare_value mx my ex ey c Bx By ltac:(lia) ltac:(lia)).
  rewrite (SFcompare_value my mx ey ex c By Bx ltac:(lia) ltac:(lia)).
  rewrite <- Ma, <- Mb.
  unfold binary_normalize.
  destruct (Zpos ma - Zpos mb) as [|p|p] eqn:D.
  - replace (Zpos ma) with (Zpos mb) by lia. rewrite Z.compare_refl. split; reflexivity.
  - pose proof (binary_round_nonzero false p c ltac:(lia)) as N.
    replace (Zpos mb ?= Zpos ma) with Lt by (symmetry; apply Z.compare_lt_iff; lia).
    replace (Zpos ma ?= Zpos mb) with Gt by (symmetry; apply Z.compare_gt_iff; lia).
    destruct (binary_round prec emax false p c) as [z|i| |f m e'];
      try contradiction; subst; split; reflexivity.
  - pose proof (binary_round_nonzero true p c ltac:(lia)) as N.
    replace (Zpos mb ?= Zpos ma) with Gt by (symmetry; apply Z.compare_gt_iff; lia).
    replace (Zpos ma ?= Zpos mb) with Lt by (symmetry; apply Z.compare_lt_iff; lia).
    destruct (binary_round prec emax true p c) as [z|i| |f m e'];
      try contradiction; subst; split; reflexivity.
Qed.

Local Close Scope Z_scope.

(** The sign of a difference of finite numbers that are not negative. *)
Lemma sub_sign (x y : float) :
  (0 <=? x) = true -> (0 <=? y) = true ->
  is_finite x = true -> is_finite y = true ->
  (0 <=? x - y) = (y <=? x) /\ (x - y <=? 0) = (x <=? y).
Proof.
  rewrite !is_finite_spec, !leb_spec, sub_spec.
  pose proof (Prim2SF_valid x) as Vx. pose proof (Prim2SF_valid y) as Vy.
  change (Prim2SF 0) with (S754_zero false).
  destruct (Prim2SF x) as [sx|sx| |sx mx ex];
    destruct (Prim2SF y) as [sy|sy| |sy my ey];
    intros P1 P2 F1 F2; try discriminate;
    destruct sx; try discriminate; destruct sy; try discriminate;
    try (split; reflexivity).
  apply SFsub_sign; assumption.
Qed.

(** X11. The figures of a card agree about the side of break-even they
    are on, rounding included. For every input state with a finite
    investment (amount times unit): when the investment is above zero
    and the proceeds (exit value times ownership) are finite and not
    negative, the profit is not negative exactly when the proceeds reach
    the investment, and then the return multiple is at least 1, and the
    profit is not positive exactly when the investment reaches the
    proceeds, and then the return multiple is at most 1; when the
    investment is not negative and the valuation today is finite and
    above zero, the pre-money valuation is not negative exactly when the
    valuation reaches the investment, and then the ownership is at most
    1, and it is not positive exactly when the investment reaches the
    valuation, and then the ownership is at least 1. *)
Theorem signs_agree (pow_approx : float -> float -> float)
    (s : VCMState float) :
  let r := results (arith := JSNumber pow_approx) s in
  let investTotal := investimento s * investUnita s in
  let proceeds := exitValue r * vcOwnership r in
  is_finite investTotal = true ->
  ((0 <? investTotal) = true ->
   (0 <=? proceeds) = true -> is_finite proceeds = true ->
   (0 <=? profitto r) = (investTotal <=? proceeds)
   /\ (profitto r <=? 0) = (proceeds <=? investTotal)
   /\ ((0 <=? profitto r) = true -> (1 <=? roiAtteso r) = true)
   /\ ((profitto r <=? 0) = true -> (roiAtteso r <=? 1) = true))
  /\ ((0 <=? investTotal) = true ->
      (0 <? valuationToday r) = true -> is_finite (valuationToday r) = true ->
      (0 <=? preMoneyVal r) = (investTotal <=? valuationToday r)
      /\ (preMoneyVal r <=? 0) = (valuationToday r <=? investTotal)
      /\ ((0 <=? preMoneyVal r) = true -> (vcOwnership r <=? 1) = true)
      /\ ((preMoneyVal r <=? 0) = true -> (1 <=? vcOwnership r) = true)).
Proof.
  cbv zeta. intros FI.
  assert (P : forall a, (0 <? a) = true -> (0 <=? a) = true).
  { intros a. rewrite ltb_spec, leb_spec. unfold SFltb, SFleb.
    destruct (SFcompare _ _) as [[| |]|]; intros; try discriminate; reflexivity. }
  split.
  - intros PI PX FX.
    destruct (sub_sign _ _ PX (P _ PI) FX FI) as [A B].
    change (profitto (results (arith := JSNumber pow_approx) s))
      with (exitValue (results (arith := JSNumber pow_approx) s)
            * vcOwnership (results (arith := JSNumber pow_approx) s)
            - investimento s * investUnita s).
    change (roiAtteso (results (arith := JSNumber pow_approx) s))
      with (exitValue (results (arith := JSNumber pow_approx) s)
            * vcOwnership (results (arith := JSNumber pow_approx) s)
            / (investimento s * investUnita s)).
    split; [exact A|]. split; [exact B|]. split.
    + intros H. rewrite A in H. apply div_ge_one; assumption.
    + intros H. rewrite B in H. apply div_le_one; assumption.
  - intros PI PV FV.
    destruct (sub_sign _ _ (P _ PV) PI FV FI) as [A B].
    change (preMoneyVal (results (arith := JSNumber pow_approx) s))
      with (valuationToday (results (arith := JSNumber pow_approx) s)
            - investimento s * investUnita s).
    change (vcOwnership (results (arith := JSNumber pow_approx) s))
      with (investimento s * investUnita s
            / valuationToday (results (arith := JSNumber pow_approx) s)).
    split; [exact A|]. split; [exact B|]. split.
    + intros H. rewrite A in H. apply div_le_one; assumption.
    + intros H. rewrite B in H. apply div_ge_one; assumption.
Qed.

(** X11 on the initial state. *)
Lemma signs_agree_witness :
  let r := results (arith := JSNumber pow_integral) initialState in
  (1 <=? roiAtteso r) = true /\ (vcOwnership r <=? 1) = true.
Proof.
  destruct (signs_agree pow_integral initialState eq_refl) as [A B].
  destruct (A eq_refl eq_refl eq_refl) as (_ & _ & R & _).
  destruct (B eq_refl eq_refl eq_refl) as (_ & _ & O & _).
  exact (conj (R eq_refl) (O eq_refl)).
Defined.

(** ** The cards *)

(** The smaller of a hundred and a number. *)
Lemma Math_min_hundred (p : float) :
  Math_min [100; p]
  = if is_nan p then nan else if p <? 100 then p else 100.
Proof.
  unfold Math_min. cbn [existsb fold_left].
  change (is_nan 100) with false. rewrite orb_false_r. cbn [orb].
  destruct (is_nan p); [reflexivity|].
  change (is_zero 100) with false. change (100 <? infinity) with true.
  cbn [andb]. rewrite andb_false_r. reflexivity.
Qed.

(** The order of the numbers: a number that is not below another is at
    least that number, and equal to it when it is also at most that
    number. *)
Lemma ltb_false_leb (a b : float) :
  is_nan a = false -> is_nan b = false -> (a <? b) = false -> (b <=? a) = true.
Proof.
  rewrite !is_nan_spec, ltb_spec, leb_spec. unfold SFltb, SFleb, SFcompare.
  destruct (Prim2SF a) as [[|]|[|]| |[|] ma ea];
    destruct (Prim2SF b) as [[|]|[|]| |[|] mb eb];
    try discriminate; try reflexivity; intros _ _;
    change (Pos.compare_cont Eq) with Pos.compare;
    destruct (Z.compare_spec ea eb); destruct (Z.compare_spec eb ea);
    try discriminate; try reflexivity; try lia; subst;
    destruct (Pos.compare_spec ma mb); destruct (Pos.compare_spec mb ma);
    cbn; try discriminate; try reflexivity; lia.
Qed.

Lemma leb_not_ltb (a b : float) :
  is_finite b = true -> is_zero b = false ->
  (a <=? b) = true -> (a <? b) = false -> a = b.
Proof.
  rewrite is_finite_spec, is_zero_spec, ltb_spec, leb_spec.
  intros F Z L N. apply Prim2SF_inj. revert F Z L N.
  unfold SFltb, SFleb, SFcompare.
  destruct (Prim2SF a) as [[|]|[|]| |[|] ma ea];
    destruct (Prim2SF b) as [[|]|[|]| |[|] mb eb];
    try discriminate; intros _ _;
    change (Pos.compare_cont Eq) with Pos.compare;
    destruct (Z.compare_spec ea eb); try discriminate; subst;
    destruct (Pos.compare_spec ma mb); cbn; try discriminate;
    subst; reflexivity.
Qed.

(** The operands of a comparison that holds are numbers. *)
Lemma not_nan_of_leb_l (a b : float) : (a <=? b) = true -> is_nan a = false.
Proof.
  rewrite is_nan_spec, leb_spec.
  destruct (Prim2SF a); intros; try discriminate; reflexivity.
Qed.

Lemma not_nan_of_leb_r (a b : float) : (a <=? b) = true -> is_nan b = false.
Proof.
  rewrite is_nan_spec, leb_spec.
  destruct (Prim2SF a) as [[|]|[|]| |[|] ? ?]; destruct (Prim2SF b);
    intros; try discriminate; reflexivity.
Qed.

(** A hundred times a number of at most a half is at most fifty. *)
Lemma hundredfold_le (x : float) :
  (x <=? 0.5) = true -> (x * 100 <=? 50) = true.
Proof.
  rewrite !leb_spec, mul_spec.
  pose proof (Prim2SF_valid x) as Vx.
  change (Prim2SF 0.5) with (S754_finite false 4503599627370496 (-53)).
  change (Prim2SF 100) with (S754_finite false 7036874417766400 (-46)).
  change (Prim2SF 50) with (S754_finite false 7036874417766400 (-47)).
  destruct (Prim2SF x) as [sx|sx| |sx mx ex];
    try discriminate; try (destruct sx; discriminate || reflexivity).
  unfold SF64mul, SFmul. destruct sx; cbn [xorb].
  - intros _.
    generalize (binary_round_aux_number true (Zpos (mx * 7036874417766400))
                  (ex + -46) loc_Exact ltac:(lia)).
    destruct (binary_round_aux _ _ _ _ _ _) as [s|s| |s m e]; intros; subst;
      try reflexivity. contradiction.
  - intros L.
    set (c := Z.min ex (-53)).
    pose proof (SFcompare_value mx 4503599627370496 ex (-53) c
                  Vx eq_refl ltac:(lia) ltac:(lia)) as C.
    unfold SFleb in L. rewrite C in L.
    assert (K : (Zpos mx * 2 ^ (ex - c) <= 4503599627370496 * 2 ^ (-53 - c))%Z)
      by (destruct (Z.compare_spec (Zpos mx * 2 ^ (ex - c))
                      (4503599627370496 * 2 ^ (-53 - c))); try discriminate; lia).
    clear L C.
    destruct (bounded_digits mx ex Vx) as (_ & _ & Full).
    assert (E : (ex <= -53)%Z).
    { destruct (Z_le_gt_dec ex (-53)) as [|G]; [assumption|exfalso].
      specialize (Full ltac:(lia)). change (2 ^ 52)%Z with 4503599627370496%Z in Full.
      replace c with (-53)%Z in K by lia.
      change (-53 - -53)%Z with 0%Z in K. rewrite Z.pow_0_r in K.
      assert (2 <= 2 ^ (ex - -53))%Z
        by (change 2%Z with (2 ^ 1)%Z at 1; apply Z.pow_le_mono_r; lia).
      revert K H. generalize (2 ^ (ex - -53))%Z. intros t K H.
      assert (Zpos mx * 2 <= Zpos mx * t)%Z
        by (apply Z.mul_le_mono_nonneg_l; lia).
      lia. }
    replace c with ex in K by lia. rewrite Z.sub_diag, Z.mul_1_r in K.
    apply binary_round_aux_le; [reflexivity|lia|lia|].
    rewrite Pos2Z.inj_mul.
    replace (-47 - (ex + -46))%Z with (52 + (-53 - ex))%Z by lia.
    rewrite Z.pow_add_r by lia. change (2 ^ 52)%Z with 4503599627370496%Z.
    pose proof (pow2_pos (-53 - ex) ltac:(lia)) as P.
    revert K P. generalize (2 ^ (-53 - ex))%Z. intros t K P.
    destruct (Z_lt_le_dec (Zpos mx) (4503599627370496 * t)) as [Lt|Ge].
    + left. lia.
    + right. split; [lia|reflexivity].
Qed.

(** X12. The ownership card, for every input state. The width of the
    bar is at most 100 unless the ownership is NaN, in which case the
    width is NaN; it is the ownership in percent when that is at most
    100. Whenever the bar is full, that is the ownership in percent
    reaches 100, the dilution warning is shown. With a zero investment
    amount the warning is not shown. *)
Theorem ownership_card (pow_approx : float -> float -> float)
    (s : VCMState float) :
  let r := results (arith := JSNumber pow_approx) s in
  (ownership_bar r <=? 100) = negb (is_nan (vcOwnership r))
  /\ is_nan (ownership_bar r) = is_nan (vcOwnership r)
  /\ ((vcOwnership r * 100 <=? 100) = true ->
      ownership_bar r = vcOwnership r * 100)
  /\ ((100 <=? vcOwnership r * 100) = true -> dilution_warning r = true)
  /\ (is_zero (investimento s) = true -> dilution_warning r = false).
Proof.
  cbv zeta. unfold ownership_bar, dilution_warning. rewrite Math_min_hundred.
  set (o := vcOwnership (results (arith := JSNumber pow_approx) s)).
  assert (N : is_nan (o * 100) = is_nan o).
  { rewrite !is_nan_spec, mul_spec.
    change (Prim2SF 100) with (S754_finite false 7036874417766400 (-46)).
    destruct (Prim2SF o) as [sx|sx| |sx mx ex]; try reflexivity.
    unfold SF64mul, SFmul.
    generalize (binary_round_aux_number (xorb sx false)
                  (Zpos (mx * 7036874417766400)) (ex + -46) loc_Exact ltac:(lia)).
    destruct (binary_round_aux _ _ _ _ _ _); intros; try reflexivity. contradiction. }
  split; [|split; [|split; [|split]]].
  - destruct (is_nan (o * 100)) eqn:Np; rewrite <- N; [reflexivity|].
    destruct (o * 100 <? 100) eqn:Lt; cbn [negb]; [|reflexivity].
    revert Lt. rewrite ltb_spec, leb_spec. unfold SFltb, SFleb.
    destruct (SFcompare _ _) as [[| |]|]; intros; try discriminate; reflexivity.
  - rewrite <- N. destruct (is_nan (o * 100)) eqn:Np; [reflexivity|].
    destruct (o * 100 <? 100); [exact Np|reflexivity].
  - intros L. rewrite (not_nan_of_leb_l _ _ L).
    destruct (o * 100 <? 100) eqn:Lt; [reflexivity|].
    symmetry. apply leb_not_ltb; auto.
  - intros L. destruct (0.5 <? o) eqn:W; [reflexivity|exfalso].
    assert (No : is_nan o = false)
      by (rewrite <- N; apply (not_nan_of_leb_r _ _ L)).
    assert (H : (o <=? 0.5) = true) by (apply ltb_false_leb; auto).
    pose proof (leb_trans _ _ _ L (hundredfold_le o H)) as A.
    discriminate A.
  - intros Z. unfold o. cbn [results vcOwnership JSNumber div mul].
    rewrite ltb_spec.
    change (Prim2SF 0.5) with (S754_finite false 4503599627370496 (-53)).
    revert Z. rewrite is_zero_spec, div_spec, mul_spec.
    generalize (Prim2SF (investUnita s)).
    match goal with |- context [SF64div _ ?v] => generalize v end.
    destruct (Prim2SF (investimento s)) as [[|]|[|]| |[|] ? ?]; try discriminate;
      intros v u _; destruct u as [[|]|[|]| |[|] ? ?];
      destruct v as [[|]|[|]| |[|] ? ?]; reflexivity.
Qed.

(** X12 on the initial state, with 100 millions invested, and with
    nothing invested. *)
Lemma ownership_card_witness :
  ownership_bar (results (arith := JSNumber pow_integral) initialState)
  = vcOwnership (results (arith := JSNumber pow_integral) initialState) * 100
  /\ dilution_warning (results (arith := JSNumber pow_integral) overfunded) = true
  /\ dilution_warning (results (arith := JSNumber pow_integral) nothing_invested)
     = false.
Proof.
  exact (conj
           (proj1 (proj2 (proj2 (ownership_card pow_integral initialState)))
              eq_refl)
           (conj
              (proj1 (proj2 (proj2 (proj2 (ownership_card pow_integral overfunded))))
                 eq_refl)
              (proj2 (proj2 (proj2 (proj2
                 (ownership_card pow_integral nothing_invested))))
                 eq_refl))).
Defined.

(** The formatting calls of the cards return. *)
Ltac returns :=
  repeat match goal with
         | |- context [formatCurrency ?v] =>
             let t := fresh "t" in
             let E := fresh "E" in
             destruct (formatCurrency_euro v) as [t E]; rewrite E; clear E;
             cbn [bind]
         | |- context [toFixed ?v ?f] =>
             let t := fresh "t" in
             let E := fresh "E" in
             destruct (toFixed_returns v f ltac:(lia)) as [t E]; rewrite E; clear E;
             cbn [bind]
         end.

(** X13. The texts of the cards never throw: for every input state and
    every record of results, the seven figures and the five calculation
    lines are produced, because every [toFixed] in them has 0, 1 or 2
    fractional digits. On the initial state, with [pow_integral] for the
    approximated power, they read as below; once the revenue field has
    been emptied, every figure that depends on it reads NaN. *)
Theorem cards_render (state : VCMState float) (r : VCMResults float) :
  (exists l, figures state r = Normal l /\ length l = 7%nat)
  /\ (exists l, calculations state r = Normal l /\ length l = 5%nat)
  /\ figures initialState (results (arith := JSNumber pow_integral) initialState)
     = Normal ["€300.0M"; "€46.8M"; "€36.8M"; "€10.0M"; "21.4%"; "6.4x"; "€54.1M"]
  /\ calculations initialState (results (arith := JSNumber pow_integral) initialState)
     = Normal ["= €50.0M × 6.0x = €300.0M";
               "= €300.0M / (1,45)^5 = €300.0M / 6.41 = €46.8M";
               "= €46.8M - €10.0M = €36.8M";
               "= €10.0M / €46.8M = 21.4%";
               "= (€300.0M × 21.4%) / €10.0M = €64.1M / €10.0M = 6.4x"]
  /\ figures revenue_cleared (results (arith := JSNumber pow_integral) revenue_cleared)
     = Normal ["€NaN"; "€NaN"; "€NaN"; "€10.0M"; "NaN%"; "NaNx"; "€NaN"].
Proof.
  split; [|split; [|vm_compute; repeat split]].
  - unfold figures, ownership_percent. returns. eexists. split; reflexivity.
  - unfold calculations, ownership_percent. returns. eexists. split; reflexivity.
Qed.




(** ** The chart *)

(** X16. The tooltip of the chart against the valuation card. For every
    input state whose discount rate is 100 times a rate of the grid, the
    point of the sweep at that rate carries the label that stands over
    the rate slider, and, when the valuation today reaches a million in
    magnitude, its tooltip shows the text of the valuation card. Below a
    million the two differ, the card changing to thousands and the
    tooltip not: with a revenue of half a million at 40%, and
    [pow_integral] for the approximated power, the card reads "€557.8k"
    and the tooltip "€0.6M". *)
Theorem tooltip_agrees_with_card (pow_approx : float -> float -> float)
    (s : VCMState float) :
  (forall i r,
     let V := valuationToday (results (arith := JSNumber pow_approx) s) in
     nth_error drRates i = Some r ->
     discountRate s = 100 * r ->
     exists points p,
       sensitivityData pow_approx s = Normal points
       /\ nth_error points i = Some p
       /\ dr p = discountRate_label s
       /\ ((1000000 <=? abs V) = true ->
           formatter (valuation p)
           = (text <- formatCurrency V ;; Normal (text, "Valuation"))))
  /\ formatCurrency
       (valuationToday (results (arith := JSNumber pow_integral) small_exit))
     = Normal "€557.8k"
  /\ (points <- sensitivityData pow_integral small_exit ;;
      Array_map (fun p => formatter (valuation p)) points)
     = Normal [("€1.2M", "Valuation"); ("€0.8M", "Valuation");
               ("€0.6M", "Valuation"); ("€0.4M", "Valuation");
               ("€0.3M", "Valuation"); ("€0.2M", "Valuation")].
Proof.
  split; [|vm_compute; split; reflexivity].
  cbv zeta. intros i r Hi Hd.
  pose proof (sensitivityData_eq pow_approx s) as E. cbv zeta in E.
  assert (Hr : discountRate s / 100 = r).
  { rewrite Hd. apply rate_of_percent. eapply nth_error_In, Hi. }
  unfold discountRate_label. rewrite Hd.
  unfold drRates in Hi.
  do 6 (destruct i as [|i];
        [injection Hi as <-; eexists; eexists; split; [exact E|];
         split; [reflexivity|]; split; [reflexivity|];
         intros M; unfold formatCurrency, formatter; cbv zeta;
         cbn [valuation results valuationToday Math_pow JSNumber mul div add lit] in *;
         rewrite literal_100, literal_1, Hr in *; rewrite M;
         destruct (toFixed _ 1); reflexivity|]); cbn [nth_error] in Hi.
  destruct i; discriminate.
Qed.

(** X16 on the initial state at a rate of 40%, the third of the grid. *)
Lemma tooltip_agrees_with_card_witness :
  let s := handleInputChange (set_discountRate 40) initialState in
  exists points p,
    sensitivityData pow_integral s = Normal points
    /\ nth_error points 2 = Some p
    /\ dr p = discountRate_label s
    /\ formatter (valuation p)
       = (text <- formatCurrency
                    (valuationToday (results (arith := JSNumber pow_integral) s)) ;;
          Normal (text, "Valuation")).
Proof.
  cbv zeta.
  destruct (proj1 (tooltip_agrees_with_card pow_integral
                     (handleInputChange (set_discountRate 40) initialState))
              2%nat 0.4 eq_refl eq_refl)
    as (points & p & E & N & L & T).
  exists points, p. exact (conj E (conj N (conj L (T eq_refl)))).
Defined.

(** * The engine against the exact formulas *)

(** ** Rounding, bit for bit

    [binary_round_aux] rounds a mantissa that comes with two more bits:
    a round bit and a sticky bit. Read as one integer, the three encode
    the exact value to the precision that rounding to nearest needs. *)

Local Open Scope Z_scope.

(** One shift, on codes: the last two bits of the code go, and the new
    last bit records whether one of them was set. *)
Lemma code_shr_1 (mrs : shr_record) :
  0 <= shr_m mrs -> code (shr_1 mrs) = sticky_floor (code mrs) 4.
Proof.
  destruct mrs as [m r s]. cbn [shr_m]. intros Hm.
  assert (Q : forall a k, 0 <= k < 4 ->
     sticky_floor (4 * a + k) 4 = 2 * a + (if k =? 0 then 0 else 1)).
  { intros a k Hk. unfold sticky_floor.
    replace ((4 * a + k) / 4) with a by (apply Z.div_unique with k; lia).
    replace ((4 * a + k) mod 4) with k by (apply Z.mod_unique with a; lia).
    reflexivity. }
  unfold code at 2. cbn [shr_m shr_r shr_s].
  rewrite <- Z.add_assoc, Q by (destruct r, s; lia).
  destruct m as [|[p|p|]|]; try lia; unfold code; cbn [shr_1 shr_m shr_r shr_s];
    destruct r, s; cbn [orb Z.add Z.eqb]; lia.
Qed.

(** The code of a value that is not negative is not negative, and so is
    the mantissa of a record with such a code. *)
Lemma sticky_floor_nonneg (X Y : Z) : 0 <= X -> 0 < Y -> 0 <= sticky_floor X Y.
Proof.
  intros HX HY. unfold sticky_floor.
  pose proof (Z.div_pos X Y HX HY). destruct (_ =? _); lia.
Qed.

Lemma code_nonneg (mrs : shr_record) : 0 <= code mrs -> 0 <= shr_m mrs.
Proof. unfold code. destruct (shr_r mrs), (shr_s mrs); lia. Qed.

(** Dividing an encoded value by [W]: the code of the quotient is read
    off the code of the value. *)
Lemma sticky_floor_twice (X Y W : Z) :
  0 <= X -> 0 < Y -> 0 < W ->
  sticky_floor (sticky_floor X Y) (2 * W) = sticky_floor X (Y * W).
Proof.
  intros HX HY HW. unfold sticky_floor at 1 3.
  pose proof (sticky_floor_nonneg X Y HX HY) as N.
  rewrite (mod_mul_eqb X Y W), (mod_mul_eqb _ 2 W) by lia.
  rewrite <- !Z.div_div by lia.
  assert (D : sticky_floor X Y / 2 = X / Y).
  { unfold sticky_floor. destruct (_ =? _); Z.to_euclidean_division_equations; lia. }
  assert (M : (sticky_floor X Y mod 2 =? 0) = (X mod Y =? 0)).
  { unfold sticky_floor. destruct (X mod Y =? 0);
      [apply Z.eqb_eq|apply Z.eqb_neq]; Z.to_euclidean_division_equations; lia. }
  rewrite D, M. reflexivity.
Qed.

(** A record that encodes [X / (2 * Y)] encodes, after [p] shifts,
    [X / (2 * Y * 2 ^ p)]: no bit of the value is forgotten. *)
Lemma code_iter_shr_1 (p : positive) (mrs : shr_record) (X Y : Z) :
  0 <= X -> 0 < Y -> code mrs = sticky_floor X Y ->
  code (iter_pos shr_1 p mrs) = sticky_floor X (Y * 2 ^ Zpos p).
Proof.
  intros HX. revert mrs Y.
  assert (One : forall mrs Y, 0 < Y -> code mrs = sticky_floor X Y ->
                code (shr_1 mrs) = sticky_floor X (Y * 2)).
  { intros mrs Y HY C. rewrite code_shr_1.
    - rewrite C. apply (sticky_floor_twice X Y 2); lia.
    - apply code_nonneg. rewrite C. apply sticky_floor_nonneg; lia. }
  induction p as [p IH|p IH|]; intros mrs Y HY C; cbn [iter_pos].
  - assert (P : 0 < 2 ^ Zpos p) by (apply Z.pow_pos_nonneg; lia).
    rewrite (IH _ (Y * 2 * 2 ^ Zpos p)); [| nia |].
    + f_equal. replace (Zpos p~1) with (1 + Zpos p + Zpos p) by lia.
      rewrite !Z.pow_add_r, Z.pow_1_r by lia. ring.
    + apply IH; [lia|]. apply One; assumption.
  - assert (P : 0 < 2 ^ Zpos p) by (apply Z.pow_pos_nonneg; lia).
    rewrite (IH _ (Y * 2 ^ Zpos p)); [| nia |].
    + f_equal. replace (Zpos p~0) with (Zpos p + Zpos p) by lia.
      rewrite !Z.pow_add_r by lia. ring.
    + apply IH; assumption.
  - rewrite (One mrs Y HY C). reflexivity.
Qed.

(** The same for [shr], which shifts [n] times when [n] is positive. *)
Lemma code_shr (mrs : shr_record) (e n X Y : Z) :
  0 <= X -> 0 < Y -> code mrs = sticky_floor X Y ->
  code (fst (shr mrs e n)) = sticky_floor X (Y * 2 ^ Z.max n 0)
  /\ snd (shr mrs e n) = e + Z.max n 0.
Proof.
  intros HX HY C. unfold shr. destruct n as [|p|p]; cbn [fst snd].
  - cbn [Z.max Z.compare Z.pow]. rewrite Z.mul_1_r, Z.add_0_r. split; [exact C|reflexivity].
  - replace (Z.max (Zpos p) 0) with (Zpos p) by lia.
    split; [apply code_iter_shr_1; assumption|reflexivity].
  - replace (Z.max (Zneg p) 0) with 0 by lia.
    cbn [Z.pow]. rewrite Z.mul_1_r, Z.add_0_r. split; [exact C|reflexivity].
Qed.

(** The location of a remainder [r] of a division by [B]: against half
    of [B]. *)
Lemma new_location_spec (B r : Z) :
  new_location B r
  = if r =? 0 then loc_Exact
    else loc_Inexact (if Z.even B then 2 * r ?= B
                      else match 2 * r + 1 ?= B with Gt => Gt | _ => Lt end).
Proof.
  unfold new_location, new_location_even, new_location_odd.
  change (IntDef.Z.even B) with (Z.even B).
  destruct (Z.even B); reflexivity.
Qed.

(** The quotient and the location that a division hands to the rounding
    encode the exact quotient. *)
Lemma code_new_location (A B q r : Z) :
  0 <= A -> 0 < B -> Z.div_eucl A B = (q, r) ->
  code (shr_record_of_loc q (new_location B r)) = sticky_floor (2 * A) B.
Proof.
  intros HA HB D. pose proof (div_eucl_spec A B HB) as S. rewrite D in S.
  destruct S as [E R]. unfold sticky_floor.
  assert (Q : forall h k, 0 <= k < B -> 2 * r = h * B + k ->
              (2 * A) / B = 2 * q + h /\ (2 * A) mod B = k).
  { intros h k Hk Hh.
    split; symmetry; [apply Z.div_unique with k|apply Z.mod_unique with (2 * q + h)]; lia. }
  rewrite new_location_spec.
  destruct (Z.eqb_spec r 0) as [R0|R0].
  - destruct (Q 0 0) as [-> ->]; try lia. unfold code; cbn [shr_record_of_loc shr_m shr_r shr_s Z.eqb]; lia.
  - destruct (Z.even B) eqn:Ev.
    + destruct (Z.compare_spec (2 * r) B) as [C|C|C].
      * destruct (Q 1 0) as [-> ->]; try lia. unfold code; cbn [shr_record_of_loc shr_m shr_r shr_s Z.eqb]; lia.
      * destruct (Q 0 (2 * r)) as [-> ->]; try lia.
        destruct (Z.eqb_spec (2 * r) 0); [lia|]. unfold code; cbn [shr_record_of_loc shr_m shr_r shr_s Z.eqb]; lia.
      * destruct (Q 1 (2 * r - B)) as [-> ->]; try lia.
        destruct (Z.eqb_spec (2 * r - B) 0); [lia|]. unfold code; cbn [shr_record_of_loc shr_m shr_r shr_s Z.eqb]; lia.
    + assert (Od : 2 * r <> B).
      { intros <-. rewrite Z.even_mul in Ev. discriminate. }
      destruct (Z.compare_spec (2 * r + 1) B) as [C|C|C].
      * destruct (Q 0 (2 * r)) as [-> ->]; try lia.
        destruct (Z.eqb_spec (2 * r) 0); [lia|]. unfold code; cbn [shr_record_of_loc shr_m shr_r shr_s Z.eqb]; lia.
      * destruct (Q 0 (2 * r)) as [-> ->]; try lia.
        destruct (Z.eqb_spec (2 * r) 0); [lia|]. unfold code; cbn [shr_record_of_loc shr_m shr_r shr_s Z.eqb]; lia.
      * destruct (Q 1 (2 * r - B)) as [-> ->]; try lia.
        destruct (Z.eqb_spec (2 * r - B) 0); [lia|]. unfold code; cbn [shr_record_of_loc shr_m shr_r shr_s Z.eqb]; lia.
Qed.

(** An exact mantissa encodes itself. *)
Lemma code_exact (q : Z) :
  code (shr_record_of_loc q loc_Exact) = sticky_floor (2 * q) 1.
Proof.
  unfold sticky_floor, code. cbn [shr_record_of_loc shr_m shr_r shr_s].
  rewrite Z.div_1_r, Z.mod_1_r. cbn [Z.eqb]. lia.
Qed.

(** [round_nearest_even], on codes. *)
Lemma round_nearest_even_code (mrs : shr_record) :
  round_nearest_even (shr_m mrs) (loc_of_shr_record mrs) = nearest_even (code mrs).
Proof.
  destruct mrs as [m r s]. unfold nearest_even, code. cbn [shr_m shr_r shr_s].
  assert (Q : forall k, 0 <= k < 4 -> (4 * m + k) / 4 = m /\ (4 * m + k) mod 4 = k).
  { intros k Hk. split; symmetry; [apply Z.div_unique with k|apply Z.mod_unique with m]; lia. }
  destruct r, s; cbn [loc_of_shr_record round_nearest_even].
  - destruct (Q 3) as [D M]; [lia|]. replace (4 * m + 2 + 1) with (4 * m + 3) by lia.
    rewrite D, M. reflexivity.
  - destruct (Q 2) as [D M]; [lia|]. replace (4 * m + 2 + 0) with (4 * m + 2) by lia.
    rewrite D, M. reflexivity.
  - destruct (Q 1) as [D M]; [lia|]. replace (4 * m + 0 + 1) with (4 * m + 1) by lia.
    rewrite D, M. reflexivity.
  - destruct (Q 0) as [D M]; [lia|]. replace (4 * m + 0 + 0) with (4 * m + 0) by lia.
    rewrite D, M. reflexivity.
Qed.



(** It moves a value by half a unit at most. *)
Lemma nearest_even_error (X Y : Z) :
  0 <= X -> 0 < Y ->
  - Y <= 2 * Y * nearest_even (sticky_floor X Y) - X <= Y.
Proof.
  intros HX HY. unfold nearest_even, sticky_floor.
  pose proof (Z.div_mod X Y ltac:(lia)) as E.
  pose proof (Z.mod_pos_bound X Y HY) as B.
  set (q := X / Y) in *. set (r := X mod Y) in *.
  assert (Q : forall k, 0 <= k < 2 ->
     (2 * q + k) / 4 = q / 2 /\ (2 * q + k) mod 4 = 2 * (q mod 2) + k).
  { intros k Hk. Z.to_euclidean_division_equations. lia. }
  pose proof (Z.div_mod q 2 ltac:(lia)) as E2.
  pose proof (Z.mod_pos_bound q 2 ltac:(lia)) as B2.
  destruct (Z.eqb_spec r 0) as [R|R].
  - destruct (Q 0) as [-> ->]; [lia|].
    destruct (Z.ltb_spec (2 * (q mod 2) + 0) 2), (Z.eqb_spec (2 * (q mod 2) + 0) 2),
      (Z.even (q / 2)); nia.
  - destruct (Q 1) as [-> ->]; [lia|].
    destruct (Z.ltb_spec (2 * (q mod 2) + 1) 2), (Z.eqb_spec (2 * (q mod 2) + 1) 2),
      (Z.even (q / 2)); nia.
Qed.

(** It gives the integer part of the value, or the next integer. *)
Lemma nearest_even_bounds (X Y : Z) :
  0 <= X -> 0 < Y ->
  X / (2 * Y) <= nearest_even (sticky_floor X Y) <= X / (2 * Y) + 1.
Proof.
  intros HX HY. unfold nearest_even.
  assert (D : sticky_floor X Y / 4 = X / (2 * Y)).
  { unfold sticky_floor. rewrite (Z.mul_comm 2 Y), <- Z.div_div by lia.
    destruct (_ =? _); Z.to_euclidean_division_equations; lia. }
  cbv zeta. rewrite D.
  destruct (Z.ltb _ _); [lia|]. destruct (Z.eqb _ _); [|lia].
  destruct (Z.even _); lia.
Qed.

(** The mantissa a rounding starts from is the integer part of the
    value its record encodes. *)
Lemma code_mantissa (q : Z) (l : location) (X Y : Z) :
  0 <= X -> 0 < Y -> code (shr_record_of_loc q l) = sticky_floor X Y ->
  q = X / (2 * Y).
Proof.
  intros HX HY C.
  assert (D : sticky_floor X Y / 4 = X / (2 * Y)).
  { unfold sticky_floor. rewrite (Z.mul_comm 2 Y), <- Z.div_div by lia.
    destruct (_ =? _); Z.to_euclidean_division_equations; lia. }
  rewrite <- D, <- C. unfold code.
  destruct l as [|[| |]]; cbn [shr_record_of_loc shr_m shr_r shr_s];
    Z.to_euclidean_division_equations; lia.
Qed.

(** A number of [d] digits, shifted by [n], has [d - n] digits. *)
Lemma div_pow2_lt (q d n k : Z) :
  0 <= q -> 0 <= n -> 0 <= k -> q < 2 ^ d -> d <= k + n -> q / 2 ^ n < 2 ^ k.
Proof.
  intros Hq Hn Hk Hd Hle.
  assert (P : 0 < 2 ^ n) by (apply Z.pow_pos_nonneg; lia).
  apply Z.div_lt_upper_bound; [exact P|].
  rewrite <- Z.pow_add_r by lia.
  destruct (Z_le_gt_dec 0 d).
  - assert (2 ^ d <= 2 ^ (n + k)) by (apply Z.pow_le_mono_r; lia). lia.
  - rewrite Z.pow_neg_r in Hd by lia. lia.
Qed.

(** A number is below the power of two of its number of digits. *)
Lemma Zdigits2_lt (q : Z) : 0 <= q -> q < 2 ^ Zdigits2 q /\ 0 <= Zdigits2 q.
Proof.
  intros H. destruct q as [|p|p]; [cbn; lia| |lia].
  pose proof (Zdigits2_bounds p). cbn [Zdigits2] in *. lia.
Qed.

(** What [binary_round_aux] computes, for a mantissa [q] and a location
    [l] that encode the value [X / (2 * Y)]. *)
Lemma binary_round_aux_spec (s : bool) (q e' : Z) (l : location) (X Y : Z) :
  0 <= X -> 0 < Y -> code (shr_record_of_loc q l) = sticky_floor X Y ->
  let N1 := Z.max (Z.max (Zdigits2 q + e' - 53) (-1074) - e') 0 in
  let m3 := nearest_even (sticky_floor X (Y * 2 ^ N1)) in
  let N2 := if m3 <? 2 ^ 53 then 0 else 1 in
  (q / 2 ^ N1 <= m3 <= 2 ^ 53)
  /\ binary_round_aux prec emax s q e' l
     = match m3 / 2 ^ N2 with
       | 0 => S754_zero s
       | Zpos m =>
           if e' + N1 + N2 <=? 971 then S754_finite s m (e' + N1 + N2)
           else S754_infinity s
       | Zneg _ => S754_nan
       end.
Proof.
  intros HX HY C N1 m3 N2.
  assert (Hq : q = X / (2 * Y)) by (apply (code_mantissa q l); assumption).
  assert (Hq0 : 0 <= q) by (rewrite Hq; apply Z.div_pos; lia).
  assert (HN1 : 0 <= N1) by (unfold N1; lia).
  assert (P1 : 0 < 2 ^ N1) by (apply Z.pow_pos_nonneg; lia).
  assert (B3 : q / 2 ^ N1 <= m3 <= q / 2 ^ N1 + 1).
  { rewrite Hq, Z.div_div by lia. rewrite <- Z.mul_assoc.
    apply nearest_even_bounds; nia. }
  assert (U3 : m3 <= 2 ^ 53).
  { destruct (Zdigits2_lt q Hq0) as [D D0].
    assert (q / 2 ^ N1 < 2 ^ 53); [|lia].
    apply (div_pow2_lt q (Zdigits2 q)); unfold N1; lia. }
  assert (L3 : 0 <= m3).
  { assert (0 <= q / 2 ^ N1) by (apply Z.div_pos; lia). lia. }
  split; [lia|].
  unfold binary_round_aux, shr_fexp.
  destruct (code_shr (shr_record_of_loc q l) e'
              (fexp prec emax (Zdigits2 q + e') - e') X Y HX HY C) as [C1 E1].
  destruct (shr (shr_record_of_loc q l) e' _) as [mrs1 ea]. cbn [fst snd] in C1, E1.
  unfold fexp, SpecFloat.emin, prec, emax in C1, E1.
  replace (3 - 1024 - 53) with (-1074) in C1, E1 by reflexivity.
  fold N1 in C1, E1. rewrite round_nearest_even_code, C1. fold m3. subst ea.
  pose proof (shr_spec (shr_record_of_loc m3 loc_Exact) (e' + N1)
                (fexp prec emax (Zdigits2 m3 + (e' + N1)) - (e' + N1))) as S2.
  cbn [shr_record_of_loc shr_m] in S2. specialize (S2 L3).
  destruct (shr _ _ _) as [mrs2 eb]. destruct S2 as (M2 & _ & ->).
  unfold fexp, SpecFloat.emin, prec, emax in M2 |- *.
  replace (3 - 1024 - 53) with (-1074) in M2 |- * by reflexivity.
  replace (1024 - 53) with 971 by reflexivity.
  assert (E2 : Z.max (Z.max (Zdigits2 m3 + (e' + N1) - 53) (-1074) - (e' + N1)) 0 = N2).
  { unfold N2. destruct (Z.ltb_spec m3 (2 ^ 53)) as [Lt|Ge].
    - assert (Zdigits2 m3 <= 53) by (apply Zdigits2_le; lia). unfold N1. lia.
    - assert (m3 = 2 ^ 53) by lia.
      assert (Zdigits2 m3 = 54) by (rewrite H; reflexivity). unfold N1. lia. }
  rewrite E2 in M2 |- *. rewrite M2. reflexivity.
Qed.




(** ** Division is antitone in the divisor *)

(** The quotient [SFdiv_core_binary] hands to the rounding: a mantissa
    with at least the digits of the format, and the location of the
    exact quotient next to it. *)
Lemma SFdiv_core_binary_spec (m1 m2 : positive) (e1 e2 : Z) :
  let '(q, e', l) := SFdiv_core_binary prec emax (Zpos m1) e1 (Zpos m2) e2 in
  exists s,
    0 <= s /\ e' = e1 - e2 - s
    /\ code (shr_record_of_loc q l) = sticky_floor (2 * (Zpos m1 * 2 ^ s)) (Zpos m2)
    /\ e' <= Z.max (Zdigits2 q + e' - 53) (-1074).
Proof.
  unfold SFdiv_core_binary.
  pose proof (Zdigits2_bounds m1) as [L1 U1]. pose proof (Zdigits2_bounds m2) as [L2 U2].
  set (d1 := Zdigits2 (Zpos m1)) in *. set (d2 := Zdigits2 (Zpos m2)) in *.
  assert (Hd1 : 0 < d1) by (unfold d1; cbn; lia).
  assert (Hd2 : 0 < d2) by (unfold d2; cbn; lia).
  unfold fexp, SpecFloat.emin, prec, emax.
  replace (3 - 1024 - 53) with (-1074) by reflexivity.
  change (IntDef.Z.min ?a ?b) with (Z.min a b).
  set (e' := Z.min (Z.max (d1 + e1 - (d2 + e2) - 53) (-1074)) (e1 - e2)).
  set (s := e1 - e2 - e').
  assert (Hs : 0 <= s) by (unfold s, e'; lia).
  assert (P : forall k, 0 <= k -> 0 < 2 ^ k) by (intros; apply Z.pow_pos_nonneg; lia).
  assert (Hm' : match s with
                | 0 => Zpos m1
                | Zpos _ => IntDef.Z.shiftl (Zpos m1) s
                | Zneg _ => 0
                end = Zpos m1 * 2 ^ s).
  { destruct s as [|p|p] eqn:S; [cbn; lia| |lia].
    apply Z.shiftl_mul_pow2. lia. }
  rewrite Hm'.
  change (IntDef.Z.div_eucl ?a ?b) with (Z.div_eucl a b).
  pose proof (div_eucl_spec (Zpos m1 * 2 ^ s) (Zpos m2) eq_refl) as Q.
  pose proof (P s Hs) as Ps.
  pose proof (code_new_location (Zpos m1 * 2 ^ s) (Zpos m2)) as C.
  destruct (Z.div_eucl _ _) as [q r]. destruct Q as [Q R].
  exists s. split; [exact Hs|]. split; [unfold s; lia|].
  split; [apply C; [nia|lia|reflexivity]|].
  assert (Hq : 0 <= q) by nia.
  destruct (Zdigits2_lt q Hq) as [Dq Dq0].
  assert (K : d1 + s - d2 <= Zdigits2 q).
  { destruct (Z_le_gt_dec (d1 + s - d2) 0) as [|G]; [lia|].
    assert (A : 2 ^ (d1 + s - d2 - 1) <= q).
    { assert (2 ^ (d1 + s - d2 - 1) * 2 ^ d2 <= Zpos m1 * 2 ^ s).
      { rewrite <- Z.pow_add_r by lia.
        replace (d1 + s - d2 - 1 + d2) with (d1 - 1 + s) by lia.
        rewrite Z.pow_add_r by lia. apply Z.mul_le_mono_nonneg_r; lia. }
      pose proof (P (d1 + s - d2 - 1) ltac:(lia)) as Pk.
      destruct (Z_le_gt_dec (2 ^ (d1 + s - d2 - 1)) q) as [|G']; [assumption|exfalso].
      assert (Zpos m2 * (q + 1) <= Zpos m2 * 2 ^ (d1 + s - d2 - 1))
        by (apply Z.mul_le_mono_nonneg_l; lia).
      assert (Zpos m2 * 2 ^ (d1 + s - d2 - 1) < 2 ^ (d1 + s - d2 - 1) * 2 ^ d2) by nia.
      lia. }
    destruct (Z_le_gt_dec (d1 + s - d2) (Zdigits2 q)) as [|G']; [assumption|exfalso].
    assert (2 ^ Zdigits2 q <= 2 ^ (d1 + s - d2 - 1)) by (apply Z.pow_le_mono_r; lia).
    lia. }
  unfold s, e' in *. lia.
Qed.


Local Close Scope Z_scope.





(** ** The return multiple against the power factor *)

Local Open Scope R_scope.

(** A relative error, as a factor. *)
Lemma relative_error (a b u : R) :
  0 <= u -> Rabs (a - b) <= u * Rabs a ->
  exists d, - u <= d <= u /\ b = a * (1 + d).
Proof.
  intros Hu H. destruct (Req_dec a 0) as [Z|NZ].
  - exists 0. subst a. rewrite Rabs_R0, Rmult_0_r in H.
    pose proof (Rabs_pos (0 - b)) as Pz.
    assert (E : Rabs (0 - b) = 0) by lra.
    split; [lra|].
    destruct (Req_dec (0 - b) 0) as [B|B]; [lra|].
    apply Rabs_no_R0 in B. contradiction.
  - exists ((b - a) / a). split.
    + assert (Pa : 0 < Rabs a) by (apply Rabs_pos_lt; exact NZ).
      assert (Q : Rabs ((b - a) / a) <= u).
      { unfold Rdiv. rewrite Rabs_mult, Rabs_inv.
        apply Rmult_le_reg_r with (Rabs a); [exact Pa|].
        rewrite Rmult_assoc, Rinv_l by lra. rewrite Rmult_1_r.
        rewrite Rabs_minus_sym. exact H. }
      unfold Rabs in Q. destruct (Rcase_abs _); lra.
    + field. exact NZ.
Qed.

(** The factor that three relative errors of at most [u] leave of a
    fourth one. *)
Lemma error_factor (u d1 d2 d3 d4 : R) :
  0 <= u <= / 1000 ->
  - u <= d1 <= u -> - u <= d2 <= u -> - u <= d3 <= u -> - u <= d4 <= u ->
  let a := (1 + d2) * (1 + d3) * (1 + d4) in
  0 < a /\ - (5 * u * a) <= 1 + d1 - a <= 5 * u * a.
Proof.
  intros Hu B1 B2 B3 B4 a.
  assert (A2 : (1 - u) * (1 - u) <= (1 + d2) * (1 + d3) <= (1 + u) * (1 + u)) by nra.
  assert (A3 : (1 - u) * (1 - u) * (1 - u) <= a <= (1 + u) * (1 + u) * (1 + u)).
  { unfold a. revert A2. generalize ((1 + d2) * (1 + d3)). clear B2 B3 B1.
    intros a2 A2. nra. }
  clearbody a. clear A2 B2 B3 B4.
  assert (U0 : 0 < (1 - u) * (1 - u) * (1 - u)) by nra.
  assert (U1 : 1 + u <= (1 + 5 * u) * ((1 - u) * (1 - u) * (1 - u))) by nra.
  assert (U2 : (1 - 5 * u) * ((1 + u) * (1 + u) * (1 + u)) <= 1 - u) by nra.
  revert A3 U0 U1 U2.
  generalize ((1 - u) * (1 - u) * (1 - u)) ((1 + u) * (1 + u) * (1 + u)).
  intros lo hi A3 U0 U1 U2.
  assert (L : (1 + 5 * u) * lo <= (1 + 5 * u) * a)
    by (apply Rmult_le_compat_l; lra).
  assert (H : (1 - 5 * u) * a <= (1 - 5 * u) * hi)
    by (apply Rmult_le_compat_l; lra).
  split; [lra|]. lra.
Qed.

(** Four operations in a row, each with a relative error of at most
    [u]: the quotient of the product [e * o], for [o] the quotient of
    [i] by the quotient [v] of [e] by [p], by [i] is [p] up to a
    relative error of [5 * u]. *)
Lemma roi_error (e p i v o t r u : R) :
  0 <= u <= / 1000 -> p <> 0 -> i <> 0 -> v <> 0 ->
  Rabs (v - e / p) <= u * Rabs v ->
  Rabs (o - i / v) <= u * Rabs o ->
  Rabs (t - e * o) <= u * Rabs t ->
  Rabs (r - t / i) <= u * Rabs r ->
  Rabs (r - p) <= 5 * u * Rabs p.
Proof.
  intros Hu Hp Hi Hv H1 H2 H3 H4.
  destruct (relative_error _ _ _ (proj1 Hu) H1) as (d1 & B1 & E1).
  destruct (relative_error _ _ _ (proj1 Hu) H2) as (d2 & B2 & E2).
  destruct (relative_error _ _ _ (proj1 Hu) H3) as (d3 & B3 & E3).
  destruct (relative_error _ _ _ (proj1 Hu) H4) as (d4 & B4 & E4).
  clear H1 H2 H3 H4.
  assert (Ho : o <> 0).
  { intros Z. rewrite Z, Rmult_0_l in E2.
    apply (Rmult_eq_compat_r v) in E2. unfold Rdiv in E2.
    rewrite Rmult_assoc, Rinv_l, Rmult_1_r, Rmult_0_l in E2 by exact Hv.
    contradiction. }
  assert (Ee : e = p * v * (1 + d1)).
  { apply (Rmult_eq_compat_r p) in E1. unfold Rdiv in E1.
    rewrite Rmult_assoc, Rinv_l, Rmult_1_r in E1 by exact Hp. rewrite E1. ring. }
  assert (Ei : i = v * o * (1 + d2)).
  { apply (Rmult_eq_compat_r v) in E2. unfold Rdiv in E2.
    rewrite Rmult_assoc, Rinv_l, Rmult_1_r in E2 by exact Hv. rewrite E2. ring. }
  assert (Et : t = i * r * (1 + d4)).
  { apply (Rmult_eq_compat_r i) in E4. unfold Rdiv in E4.
    rewrite Rmult_assoc, Rinv_l, Rmult_1_r in E4 by exact Hi. rewrite E4. ring. }
  destruct (error_factor u d1 d2 d3 d4 Hu B1 B2 B3 B4) as [Pa Q].
  cbv zeta in Pa, Q.
  set (a := (1 + d2) * (1 + d3) * (1 + d4)) in *.
  assert (K : p * (1 + d1) = r * a).
  { apply Rmult_eq_reg_l with (v * o); [|apply Rmult_integral_contrapositive; tauto].
    transitivity (e * o); [rewrite Ee; ring|].
    rewrite E3, Et. rewrite Ei at 1. unfold a. ring. }
  assert (M : (r - p) * a = p * (1 + d1 - a)).
  { replace ((r - p) * a) with (r * a - p * a) by ring. rewrite <- K. ring. }
  apply Rmult_le_reg_r with a; [exact Pa|].
  rewrite <- (Rabs_pos_eq a) at 1 by lra.
  rewrite <- Rabs_mult, M, Rabs_mult.
  rewrite (Rmult_comm (5 * u)), Rmult_assoc.
  apply Rmult_le_compat_l; [apply Rabs_pos|].
  apply Rabs_le. lra.
Qed.

(** Powers of two, as integers and as real numbers. *)
Lemma IZR_pow2 (k : Z) : (0 <= k)%Z -> IZR (2 ^ k) = powerRZ 2 k.
Proof.
  intros H. destruct k as [|p|p]; [reflexivity| |lia].
  change (2 ^ Zpos p)%Z with (Z.pow_pos 2 p). apply Zpower_pos_powerRZ.
Qed.

Lemma powerRZ_2_pos (k : Z) : 0 < powerRZ 2 k.
Proof. apply powerRZ_lt. lra. Qed.

Lemma powerRZ_2_add (a b : Z) : powerRZ 2 (a + b) = powerRZ 2 a * powerRZ 2 b.
Proof. apply powerRZ_add. lra. Qed.

(** The error of a rounding to a normal number is at most [2 ^ -53]
    of the result. *)
Lemma binary_round_aux_error (s : bool) (q e' : Z) (l : location) (X Y : Z)
    (s4 : bool) (m4 : positive) (e4 : Z) :
  (0 <= X)%Z -> (0 < Y)%Z ->
  code (shr_record_of_loc q l) = sticky_floor X Y ->
  binary_round_aux prec emax s q e' l = S754_finite s4 m4 e4 ->
  (2 ^ 52 <= Zpos m4)%Z ->
  s4 = s
  /\ Rabs (IZR (Zpos m4) * powerRZ 2 e4 - IZR X / (2 * IZR Y) * powerRZ 2 e')
     <= / 2 ^ 53 * (IZR (Zpos m4) * powerRZ 2 e4).
Proof.
  intros HX HY C E N.
  destruct (binary_round_aux_spec s q e' l X Y HX HY C) as [B E'].
  cbv zeta in B, E'. rewrite E in E'. clear E.
  set (N1 := Z.max (Z.max (Zdigits2 q + e' - 53) (-1074) - e') 0) in *.
  assert (HN1 : (0 <= N1)%Z) by (unfold N1; lia).
  assert (P1 : (0 < 2 ^ N1)%Z) by (apply Z.pow_pos_nonneg; lia).
  pose proof (nearest_even_error X (Y * 2 ^ N1) HX ltac:(nia)) as Err.
  set (m3 := nearest_even (sticky_floor X (Y * 2 ^ N1))) in *.
  (* the second shift loses nothing *)
  assert (S : s4 = s /\ exists N2, (0 <= N2)%Z /\ m3 = (Zpos m4 * 2 ^ N2)%Z
                                   /\ e4 = (e' + N1 + N2)%Z).
  { destruct (Z.ltb_spec m3 (2 ^ 53)) as [Lt|Ge].
    - rewrite Z.pow_0_r, Z.div_1_r in E'.
      destruct m3 as [|p|p]; try discriminate E'.
      destruct (_ <=? 971)%Z; [|discriminate E'].
      injection E' as Es Em Ee. subst s4 m4 e4. split; [reflexivity|].
      exists 0%Z. repeat split; lia.
    - assert (M3 : m3 = (2 ^ 53)%Z) by lia. rewrite M3 in E'.
      change (2 ^ 53 / 2 ^ 1)%Z with (Zpos 4503599627370496) in E'.
      destruct (_ <=? 971)%Z; [|discriminate E'].
      injection E' as Es Em Ee. subst s4 m4 e4. split; [reflexivity|].
      exists 1%Z. rewrite M3. repeat split; lia. }
  destruct S as [-> (N2 & HN2 & M3 & ->)]. split; [reflexivity|].
  clearbody m3. subst m3.
  rewrite !powerRZ_2_add, <- (IZR_pow2 N1), <- (IZR_pow2 N2) by assumption.
  pose proof (powerRZ_2_pos e') as Pe.
  assert (P2 : (1 <= 2 ^ N2)%Z) by (pose proof (Z.pow_pos_nonneg 2 N2); lia).
  apply IZR_lt in P1. apply IZR_le in P2. apply IZR_le in N.
  destruct Err as [Lo Hi]. apply IZR_le in Lo, Hi.
  apply IZR_lt in HY.
  rewrite opp_IZR, minus_IZR, !mult_IZR in Lo. rewrite minus_IZR, !mult_IZR in Hi.
  replace (IZR (2 ^ 52)) with (2 ^ 52) in N by (rewrite pow_IZR; reflexivity).
  revert N Lo Hi P1 P2 Pe HY.
  generalize (IZR (Zpos m4)) (IZR (2 ^ N1)) (IZR (2 ^ N2)) (powerRZ 2 e') (IZR X) (IZR Y).
  intros m b c a x y N Lo Hi P1 P2 Pe HY.
  change (IZR 2) with 2 in *. change (IZR 0) with 0 in *.
  assert (F : m * (a * b * c) - x / (2 * y) * a
              = a / (2 * y) * (2 * (y * b) * (m * c) - x)) by (field; lra).
  rewrite F. clear F.
  assert (Pf : 0 < a / (2 * y)) by (apply Rdiv_lt_0_compat; lra).
  rewrite Rabs_mult, (Rabs_pos_eq (a / (2 * y))) by lra.
  apply Rle_trans with (a / (2 * y) * (y * b)).
  - apply Rmult_le_compat_l; [lra|]. apply Rabs_le. lra.
  - replace (a / (2 * y) * (y * b)) with (a * b / 2) by (field; lra).
    assert (T : / 2 ^ 53 * (2 ^ 52 * (a * b * c)) <= / 2 ^ 53 * (m * (a * b * c))).
    { apply Rmult_le_compat_l; [apply Rlt_le, Rinv_0_lt_compat; lra|].
      apply Rmult_le_compat_r; [|exact N].
      apply Rlt_le. repeat apply Rmult_lt_0_compat; lra. }
    replace (/ 2 ^ 53 * (2 ^ 52 * (a * b * c))) with (a * b / 2 * c) in T by (field; lra).
    apply Rle_trans with (a * b / 2 * c); [|exact T].
    rewrite <- (Rmult_1_r (a * b / 2)) at 1.
    apply Rmult_le_compat_l; [|].
    + apply Rlt_le. apply Rdiv_lt_0_compat; [apply Rmult_lt_0_compat; assumption|lra].
    + exact P2.
Qed.

(** A normal number has a mantissa of 53 bits. *)
Lemma normal_spec (x : float) :
  normal x = true ->
  exists s m e, Prim2SF x = S754_finite s m e /\ (2 ^ 52 <= Zpos m)%Z.
Proof.
  unfold normal. rewrite is_finite_spec, leb_spec, abs_spec.
  pose proof (Prim2SF_valid x) as V.
  change (Prim2SF 0x1p-1022) with (S754_finite false 4503599627370496 (-1074)).
  destruct (Prim2SF x) as [s|s| |s m e]; try discriminate.
  cbn [SFabs andb valid_binary] in *. intros H. exists s, m, e. split; [reflexivity|].
  destruct (bounded_digits m e V) as (U & L & F).
  unfold SFleb in H.
  rewrite (SFcompare_value 4503599627370496 m (-1074) e (-1074) eq_refl V) in H by lia.
  change (-1074 - -1074)%Z with 0%Z in H. rewrite Z.pow_0_r, Z.mul_1_r in H.
  destruct (Z.eq_dec e (-1074)) as [->|Ne]; [|apply F; lia].
  change (-1074 - -1074)%Z with 0%Z in H. rewrite Z.pow_0_r, Z.mul_1_r in H.
  change (2 ^ 52)%Z with 4503599627370496%Z.
  destruct (Z.compare_spec 4503599627370496 (Zpos m)); first [lia|discriminate H].
Qed.

(** The value of a finite number: its sign times its magnitude, which
    is positive. *)
Lemma SF2R_finite (s : bool) (m : positive) (e : Z) :
  SF2R (S754_finite s m e)
  = (if s then -1 else 1) * (IZR (Zpos m) * powerRZ 2 e).
Proof.
  unfold SF2R. destruct s.
  - change (IZR (Zneg m)) with (- IZR (Zpos m)). ring.
  - ring.
Qed.

Lemma SF2R_positive (m : positive) (e : Z) : 0 < IZR (Zpos m) * powerRZ 2 e.
Proof.
  apply Rmult_lt_0_compat; [apply IZR_lt; lia|apply powerRZ_2_pos].
Qed.

(** The sign [s] times [a], against the signs [s1] and [s2] times [b]
    and [c], when [s] is the product of [s1] and [s2]. *)
Lemma signed_error (s1 s2 : bool) (a b c u : R) (div : bool) :
  0 < a ->
  Rabs (a - (if div then b / c else b * c)) <= u * a ->
  let sg (s : bool) := if s then -1 else 1 in
  let v := if div then (sg s1 * b) / (sg s2 * c) else (sg s1 * b) * (sg s2 * c) in
  c <> 0 ->
  Rabs (sg (xorb s1 s2) * a - v) <= u * Rabs (sg (xorb s1 s2) * a).
Proof.
  intros Pa H sg v Hc.
  assert (E : v = sg (xorb s1 s2) * (if div then b / c else b * c)).
  { unfold v, sg. destruct div, s1, s2; cbn [xorb]; try field; try ring; exact Hc. }
  rewrite E, <- Rmult_minus_distr_l, !Rabs_mult.
  assert (S : Rabs (sg (xorb s1 s2)) = 1).
  { unfold sg. destruct (xorb s1 s2); unfold Rabs; destruct (Rcase_abs _); lra. }
  rewrite S, !Rmult_1_l, (Rabs_pos_eq a) by lra. exact H.
Qed.

(** A quotient that is a normal number is within [2 ^ -53] of itself
    of the exact quotient. *)
Lemma div_error (x y : float) :
  normal (x / y) = true ->
  Rabs (B2R (x / y) - B2R x / B2R y) <= / 2 ^ 53 * Rabs (B2R (x / y))
  /\ B2R y <> 0.
Proof.
  intros N. destruct (normal_spec _ N) as (s4 & m4 & e4 & E & M).
  unfold B2R. rewrite E. rewrite div_spec in E.
  destruct (Prim2SF x) as [sx|sx| |sx mx ex];
    destruct (Prim2SF y) as [sy|sy| |sy my ey]; try discriminate E.
  unfold SF64div, SFdiv in E.
  pose proof (SFdiv_core_binary_spec mx my ex ey) as S.
  destruct (SFdiv_core_binary prec emax (Zpos mx) ex (Zpos my) ey) as [[q e'] l].
  destruct S as (s & Hs & He' & C & _).
  assert (Ps : (0 < 2 ^ s)%Z) by (apply Z.pow_pos_nonneg; lia).
  assert (HX : (0 <= 2 * (Zpos mx * 2 ^ s))%Z) by nia.
  destruct (binary_round_aux_error _ q e' l _ (Zpos my) s4 m4 e4 HX eq_refl C E M)
    as [-> B].
  pose proof (SF2R_positive m4 e4) as P4. pose proof (SF2R_positive my ey) as Py.
  rewrite !SF2R_finite. split.
  - apply (signed_error sx sy _ _ _ _ true); [exact P4| |lra].
    replace (IZR (Zpos mx) * powerRZ 2 ex / (IZR (Zpos my) * powerRZ 2 ey))
      with (IZR (2 * (Zpos mx * 2 ^ s)) / (2 * IZR (Zpos my)) * powerRZ 2 e');
      [exact B|].
    assert (Ex : powerRZ 2 ex = powerRZ 2 e' * powerRZ 2 s * powerRZ 2 ey)
      by (rewrite <- !powerRZ_2_add; f_equal; lia).
    rewrite !mult_IZR, IZR_pow2, Ex by exact Hs.
    pose proof (powerRZ_2_pos s). pose proof (powerRZ_2_pos ey).
    pose proof (powerRZ_2_pos e').
    assert (0 < IZR (Zpos my)) by (apply IZR_lt; lia).
    field. lra.
  - destruct sy; lra.
Qed.

(** A product that is a normal number is within [2 ^ -53] of itself of
    the exact product. *)
Lemma mul_error (x y : float) :
  normal (x * y) = true ->
  Rabs (B2R (x * y) - B2R x * B2R y) <= / 2 ^ 53 * Rabs (B2R (x * y)).
Proof.
  intros N. destruct (normal_spec _ N) as (s4 & m4 & e4 & E & M).
  unfold B2R. rewrite E. rewrite mul_spec in E.
  destruct (Prim2SF x) as [sx|sx| |sx mx ex];
    destruct (Prim2SF y) as [sy|sy| |sy my ey]; try discriminate E.
  unfold SF64mul, SFmul in E.
  assert (HX : (0 <= 2 * Zpos (mx * my))%Z) by lia.
  destruct (binary_round_aux_error _ _ _ _ _ 1 s4 m4 e4 HX eq_refl
              (code_exact (Zpos (mx * my))) E M) as [-> B].
  pose proof (SF2R_positive m4 e4) as P4.
  rewrite !SF2R_finite.
  apply (signed_error sx sy _ _ _ _ false); [exact P4| |].
  - replace (IZR (Zpos mx) * powerRZ 2 ex * (IZR (Zpos my) * powerRZ 2 ey))
      with (IZR (2 * Zpos (mx * my)) / (2 * IZR 1) * powerRZ 2 (ex + ey));
      [exact B|].
    rewrite Pos2Z.inj_mul, !mult_IZR, powerRZ_2_add. field.
  - pose proof (SF2R_positive my ey). lra.
Qed.

Local Close Scope R_scope.

(** C10, as amended. For every input state in which the four results
    that are rounded on the way to the return multiple (the valuation
    today, the ownership, the product of exit value and ownership, and
    the return multiple itself) are normal numbers, the return multiple
    is within five times [2 ^ -53] of the power factor, relative to the
    power factor; and the power factor is
    [Math.pow (1 + rate / 100, years)]. Revenue, multiple, investment
    and the two units cancel up to the rounding of the four operations
    they go through. *)
Theorem roi_near_power_factor (pow_approx : float -> float -> float)
    (s : VCMState float) :
  let r := results (arith := JSNumber pow_approx) s in
  forallb normal [valuationToday r; vcOwnership r;
                  exitValue r * vcOwnership r; roiAtteso r] = true ->
  (Rabs (B2R (roiAtteso r) - B2R (powerFactor r))
   <= 5 * / 2 ^ 53 * Rabs (B2R (powerFactor r)))%R
  /\ powerFactor r = pow pow_approx (1 + discountRate s / 100) (anni s).
Proof.
  cbv zeta. intros N.
  cbn [forallb] in N. rewrite andb_true_r in N.
  apply andb_true_iff in N. destruct N as [NV N].
  apply andb_true_iff in N. destruct N as [NO N].
  apply andb_true_iff in N. destruct N as [NT NR].
  split.
  - revert NV NO NT NR.
    cbn [results exitValue valuationToday vcOwnership roiAtteso powerFactor
         JSNumber mul div Math_pow add lit].
    set (E := ricaviY5 s * ricaviUnita s * multiplo s).
    set (I := investimento s * investUnita s).
    generalize (pow pow_approx (literal 1 + discountRate s / literal 100) (anni s)).
    intros P NV NO NT NR.
    destruct (div_error _ _ NV) as [EV HP].
    destruct (div_error _ _ NO) as [EO HV].
    pose proof (mul_error _ _ NT) as ET.
    destruct (div_error _ _ NR) as [ER HI].
    apply (roi_error (B2R E) (B2R P) (B2R I) (B2R (E / P)) (B2R (I / (E / P)))
             (B2R (E * (I / (E / P))))); try assumption.
    split; [apply Rlt_le, Rinv_0_lt_compat; lra|].
    apply Rinv_le_contravar; lra.
  - cbn [results powerFactor Math_pow JSNumber add div lit].
    rewrite literal_100, literal_1. reflexivity.
Qed.

(** ** The two claims on concrete inputs *)

(** Setting the rate of a state changes its rate only. *)
Lemma same_but_discountRate_change (d d' : float) (s : VCMState float) :
  same_but_discountRate (handleInputChange (set_discountRate d) s)
    (handleInputChange (set_discountRate d') s).
Proof. destruct s. repeat split. Qed.


(** Two positive numbers with the same exponent whose mantissas are
    far apart are not within five times [2 ^ -53] of each other. *)
Lemma far_apart (x y : float) (m1 m2 : positive) (e : Z) :
  Prim2SF x = S754_finite false m1 e ->
  Prim2SF y = S754_finite false m2 e ->
  (5 * Zpos m2 < 2 ^ 53 * Z.abs (Zpos m1 - Zpos m2))%Z ->
  (5 * / 2 ^ 53 * Rabs (B2R y) < Rabs (B2R x - B2R y))%R.
Proof.
  intros Hx Hy H. unfold B2R. rewrite Hx, Hy. unfold SF2R.
  pose proof (powerRZ_2_pos e) as Pe.
  rewrite <- Rmult_minus_distr_r, !Rabs_mult, (Rabs_pos_eq (powerRZ 2 e)) by lra.
  rewrite <- Rmult_assoc. apply Rmult_lt_compat_r; [exact Pe|].
  rewrite <- minus_IZR, <- !abs_IZR.
  apply IZR_lt in H. rewrite !mult_IZR in H.
  replace (IZR (2 ^ 53)) with (2 ^ 53)%R in H by (rewrite pow_IZR; reflexivity).
  replace (Z.abs (Zpos m2)) with (Zpos m2) by lia.
  apply (Rmult_lt_reg_l (2 ^ 53)); [lra|].
  replace (2 ^ 53 * (5 * / 2 ^ 53 * IZR (Zpos m2)))%R with (5 * IZR (Zpos m2))%R
    by (field; lra).
  exact H.
Qed.

(** C10, as amended, on the initial state. *)
Lemma roi_near_power_factor_witness :
  let r := results (arith := JSNumber pow_integral) initialState in
  (Rabs (B2R (roiAtteso r) - B2R (powerFactor r))
   <= 5 * / 2 ^ 53 * Rabs (B2R (powerFactor r)))%R
  /\ powerFactor r = pow pow_integral (1 + 45 / 100) 5.
Proof.
  apply (roi_near_power_factor pow_integral initialState).
  vm_compute. reflexivity.
Defined.

(** C10 fails as stated. On the initial state, and on a state whose
    power factor is exactly 8, all values are finite and not zero, and
    the return multiple differs from the power factor in its last digit.
    With the smallest positive investment amount the ownership
    underflows to zero, and the return multiple is 0 against a power
    factor of 6.41, all values being finite, the investment and the
    valuation not zero. And when one of the four rounded results lies
    below the normal range, the others being normal, the return
    multiple is further from the power factor than five times
    [2 ^ -53] of it: each of the four conditions of the amended claim
    is needed. *)
Lemma roi_differs_from_power_factor :
  let r := results (arith := JSNumber pow_integral) initialState in
  let r' := results (arith := JSNumber pow_integral) doubling in
  let r0 := results (arith := JSNumber pow_integral) smallest_investment in
  let rv := results (arith := JSNumber pow_integral) subnormal_valuation in
  let ro := results (arith := JSNumber pow_integral) subnormal_ownership in
  let rp := results (arith := JSNumber pow_integral) subnormal_product in
  let rr := results (arith := JSNumber pow_integral) subnormal_return in
  let outputs r :=
    [exitValue r; valuationToday r; preMoneyVal r; vcOwnership r; roiAtteso r;
     profitto r; powerFactor r] in
  let rounded r :=
    [valuationToday r; vcOwnership r; exitValue r * vcOwnership r; roiAtteso r] in
  let far r :=
    (5 * / 2 ^ 53 * Rabs (B2R (powerFactor r))
     < Rabs (B2R (roiAtteso r) - B2R (powerFactor r)))%R in
  (* a difference in the last digit *)
  forallb is_finite (outputs r ++ outputs r') = true
  /\ is_zero (investimento initialState * investUnita initialState) = false
  /\ is_zero (valuationToday r) = false
  /\ (roiAtteso r =? powerFactor r) = false
  /\ is_zero (investimento doubling * investUnita doubling) = false
  /\ is_zero (valuationToday r') = false
  /\ powerFactor r' = 8
  /\ roiAtteso r' = 7.9999999999999991
  (* an ownership that underflows to zero *)
  /\ forallb is_finite (outputs r0) = true
  /\ is_zero (investimento smallest_investment * investUnita smallest_investment)
     = false
  /\ is_zero (valuationToday r0) = false
  /\ powerFactor r0 = 6.4097340624999992
  /\ roiAtteso r0 = 0
  (* one result below the normal range *)
  /\ forallb is_finite (outputs rv ++ outputs ro ++ outputs rp ++ outputs rr) = true
  /\ existsb is_zero
       [investimento subnormal_valuation * investUnita subnormal_valuation;
        valuationToday rv;
        investimento subnormal_ownership * investUnita subnormal_ownership;
        valuationToday ro;
        investimento subnormal_product * investUnita subnormal_product;
        valuationToday rp;
        investimento subnormal_return * investUnita subnormal_return;
        valuationToday rr] = false
  /\ map normal (rounded rv) = [false; true; true; true] /\ far rv
  /\ map normal (rounded ro) = [true; false; true; true] /\ far ro
  /\ map normal (rounded rp) = [true; true; false; true] /\ far rp
  /\ map normal (rounded rr) = [true; true; true; false] /\ far rr.
Proof.
  cbv zeta.
  repeat match goal with
         | |- _ /\ _ => split
         | |- (_ < _)%R =>
             eapply far_apart; [vm_compute; reflexivity|vm_compute; reflexivity
                               |vm_compute; reflexivity]
         | |- _ => vm_compute; reflexivity
         end.
Qed.
